(** * The ngcore archive (archive.hpp) in Rocq

    A shallow embedding of the serialization core of netgen:
    - [BinaryOut] / [BinaryIn]: the buffered binary codec pair;
    - [TextCodec]: the line oriented text codec pair;
    - [Core]: the codec independent [Archive] base class, its container
      rules and the identity tables for raw pointers and shared handles;
    - [BinaryArrays], [CStrings], [Sessions], [TextEdges]: arrays, C
      strings and whole sessions of primitives through the two codecs;
    - [Containers], [Tables]: the remaining containers and more of the
      identity tables;
    - [Register]: the casters [RegisterClassForArchive] builds.

    Sizes follow the LP64 data model the library is built for
    (int 4 bytes, long, size_t and double 8 bytes); the object
    representation of a scalar is taken little endian. *)

From Stdlib Require Import ZArith List Lia Strings.Byte Ascii String DecimalString DecimalZ.
From stdpp Require Import gmap strings list sorting.

Local Open Scope Z_scope.

(** ** Bytes and object representations *)

Definition Z_of_byte (b : byte) : Z := Z.of_N (Byte.to_N b).

Definition byte_of_Z (z : Z) : byte :=
  match Byte.of_N (Z.to_N (z mod 256)) with
  | Some b => b
  | None => x00
  end.

(** The [n] bytes of the object representation of the bit pattern [z],
    least significant byte first. *)
Fixpoint le_bytes (n : nat) (z : Z) : list byte :=
  match n with
  | O => []
  | S n' => byte_of_Z z :: le_bytes n' (z / 256)
  end.

(** The bit pattern held by a run of bytes. *)
Fixpoint le_value (bs : list byte) : Z :=
  match bs with
  | [] => 0
  | b :: bs' => Z_of_byte b + 256 * le_value bs'
  end.

Lemma Z_of_byte_range b : 0 <= Z_of_byte b < 256.
Proof.
  unfold Z_of_byte. pose proof (Byte.to_N_bounded b). lia.
Qed.

Lemma Z_of_byte_of_Z z : Z_of_byte (byte_of_Z z) = z mod 256.
Proof.
  unfold Z_of_byte, byte_of_Z.
  pose proof (Z.mod_pos_bound z 256 eq_refl) as Hr.
  destruct (Byte.of_N (Z.to_N (z mod 256))) as [b|] eqn:E.
  - apply Byte.to_of_N in E. rewrite E. lia.
  - apply Byte.of_N_None_iff in E. lia.
Qed.

Lemma byte_of_Z_of_byte b : byte_of_Z (Z_of_byte b) = b.
Proof.
  unfold byte_of_Z, Z_of_byte.
  pose proof (Byte.to_N_bounded b) as Hb.
  rewrite Z.mod_small by lia.
  rewrite N2Z.id, Byte.of_to_N. reflexivity.
Qed.

Lemma length_le_bytes n z : length (le_bytes n z) = n.
Proof. revert z. induction n as [|n IH]; intros z; simpl; [reflexivity|]. now rewrite IH. Qed.

Lemma le_value_le_bytes n z :
  le_value (le_bytes n z) = z mod 2 ^ (8 * Z.of_nat n).
Proof.
  revert z. induction n as [|n IH]; intros z.
  - simpl. now rewrite Z.mod_1_r.
  - cbn [le_bytes le_value]. rewrite IH, Z_of_byte_of_Z.
    replace (8 * Z.of_nat (S n)) with (8 + 8 * Z.of_nat n) by lia.
    rewrite Z.pow_add_r by lia. change (2 ^ 8) with 256.
    rewrite Z.rem_mul_r by lia. reflexivity.
Qed.

Lemma le_value_range bs : 0 <= le_value bs < 2 ^ (8 * Z.of_nat (length bs)).
Proof.
  induction bs as [|b bs IH].
  - simpl. lia.
  - cbn [le_value length]. pose proof (Z_of_byte_range b).
    replace (8 * Z.of_nat (S (length bs))) with (8 + 8 * Z.of_nat (length bs)) by lia.
    rewrite Z.pow_add_r by lia. change (2 ^ 8) with 256. nia.
Qed.

Lemma le_bytes_le_value bs : le_bytes (length bs) (le_value bs) = bs.
Proof.
  induction bs as [|b bs IH]; [reflexivity|].
  cbn [le_value length le_bytes]. pose proof (Z_of_byte_range b) as Hb.
  f_equal.
  - rewrite <- (byte_of_Z_of_byte b) at 2. unfold byte_of_Z.
    replace ((Z_of_byte b + 256 * le_value bs) mod 256) with (Z_of_byte b mod 256);
      [reflexivity|].
    replace (256 * le_value bs) with (le_value bs * 256) by lia.
    now rewrite Z.mod_add by lia.
  - replace ((Z_of_byte b + 256 * le_value bs) / 256) with (le_value bs); [exact IH|].
    replace (256 * le_value bs) with (le_value bs * 256) by lia.
    rewrite Z.div_add by lia.
    rewrite (Z.div_small (Z_of_byte b)) by lia. lia.
Qed.

(** ** The scalar kinds of the primitive codec protocol

    The pure virtual [operator&] overloads of [Archive]: double, int, long,
    size_t, short, unsigned char and bool.  A scalar is carried as the bit
    pattern of its object representation. *)

Inductive ctype := TDouble | TInt | TLong | TSizeT | TShort | TUChar | TBool.

Definition sizeof (t : ctype) : nat :=
  match t with
  | TDouble => 8 | TInt => 4 | TLong => 8 | TSizeT => 8
  | TShort => 2 | TUChar => 1 | TBool => 1
  end%nat.

Record scalar := Scalar { sc_type : ctype; sc_bits : Z }.

(** A scalar is well formed when its bit pattern fits its width; a bool
    holds 0 or 1. *)
Definition scalar_wf (s : scalar) : Prop :=
  0 <= sc_bits s < 2 ^ (8 * Z.of_nat (sizeof (sc_type s))) /\
  (sc_type s = TBool -> sc_bits s < 2).

(** Object representation of a scalar: what [*reinterpret_cast<T*>(q) = x]
    stores at [q]. *)
Definition repr (s : scalar) : list byte := le_bytes (sizeof (sc_type s)) (sc_bits s).

(** Two's complement views used by the callers of the codec. *)
Definition int_bits (i : Z) : Z := i mod 2 ^ 32.
Definition int_value (bits : Z) : Z :=
  let u := bits mod 2 ^ 32 in if decide (u < 2 ^ 31) then u else u - 2 ^ 32.
Definition short_value (bits : Z) : Z :=
  let u := bits mod 2 ^ 16 in if decide (u < 2 ^ 15) then u else u - 2 ^ 16.
Definition long_bits (i : Z) : Z := i mod 2 ^ 64.
Definition long_value (bits : Z) : Z :=
  let u := bits mod 2 ^ 64 in if decide (u < 2 ^ 63) then u else u - 2 ^ 64.
Definition size_t_wrap (z : Z) : Z := z mod 2 ^ 64.

(** ** BinaryOutArchive *)

Module BinaryOut.

Definition BUFFERSIZE : Z := 1024.

(** [buffer], [ptr] and the bytes already handed to [stream]. *)
Record BinaryOutArchive := mkOut {
  buffer : list byte;
  ptr : Z;
  stream : list byte
}.

(** A freshly constructed archive: [char buffer[BUFFERSIZE] = {}], [ptr = 0]. *)
Definition create : BinaryOutArchive :=
  {| buffer := replicate (Z.to_nat BUFFERSIZE) x00; ptr := 0; stream := [] |}.

(** [*reinterpret_cast<T*>(&buffer[off]) = x]: the bytes of [x] overwrite
    [buffer[off .. off + sizeof(T))].  A store that leaves the array is
    undefined behaviour and is reported as [None]. *)
Definition store (buf : list byte) (off : Z) (x : list byte) : option (list byte) :=
  if decide (0 <= off /\ off + Z.of_nat (length x) <= Z.of_nat (length buf)) then
    Some (take (Z.to_nat off) buf ++ x ++ drop (Z.to_nat off + length x) buf)
  else None.

(** [stream->write(&buffer[0], n)]. *)
Definition stream_write (s : list byte) (buf : list byte) (n : Z) : list byte :=
  s ++ take (Z.to_nat n) buf.

(** [template <typename T> Archive & Write (T x)], with [x] given by its
    object representation, so that [sizeof(T) = length x].  The comparison
    is done in [size_t], as in the source. *)
Definition Write (x : list byte) (a : BinaryOutArchive) : option BinaryOutArchive :=
  let sz := Z.of_nat (length x) in
  if decide (ptr a > size_t_wrap (BUFFERSIZE - sz)) then
    buf' ← store (buffer a) 0 x;
    Some {| buffer := buf'; ptr := sz;
            stream := stream_write (stream a) (buffer a) (ptr a) |}
  else
    buf' ← store (buffer a) (ptr a) x;
    Some {| buffer := buf'; ptr := size_t_wrap (ptr a + sz); stream := stream a |}.

(** [void FlushBuffer()]. *)
Definition FlushBuffer (a : BinaryOutArchive) : BinaryOutArchive :=
  if decide (ptr a > 0) then
    {| buffer := buffer a; ptr := 0;
       stream := stream_write (stream a) (buffer a) (ptr a) |}
  else a.

(** [operator & (double&)], [(int&)], ...: each is [Write] of the scalar. *)
Definition write_scalar (s : scalar) (a : BinaryOutArchive) : option BinaryOutArchive :=
  Write (repr s) a.

(** A sequence of [Write] calls, in order. *)
Fixpoint Write_all (xs : list (list byte)) (a : BinaryOutArchive) : option BinaryOutArchive :=
  match xs with
  | [] => Some a
  | x :: xs' => a' ← Write x a; Write_all xs' a'
  end.

(** The states the archive goes through: the one before each call and the
    final one. *)
Fixpoint Write_trace (xs : list (list byte)) (a : BinaryOutArchive) : list BinaryOutArchive :=
  match xs with
  | [] => [a]
  | x :: xs' => a :: match Write x a with
                     | Some a' => Write_trace xs' a'
                     | None => []
                     end
  end.

(** [operator & (std::string & str)]: the length as an [int], a flush,
    and the characters straight to the stream. *)
Definition write_string (str : list byte) (a : BinaryOutArchive) : option BinaryOutArchive :=
  let len := int_value (Z.of_nat (length str)) in
  a1 ← write_scalar (Scalar TInt (int_bits len)) a;
  let a2 := FlushBuffer a1 in
  Some (if decide (len <> 0) then
          {| buffer := buffer a2; ptr := ptr a2;
             stream := stream a2 ++ take (Z.to_nat len) str |}
        else a2).

(** What a caller does with a binary output archive: archive a scalar
    or a string, or call [FlushBuffer] explicitly. *)
Inductive op := Put (s : scalar) | PutString (str : list byte) | Flush.

Fixpoint run (ops : list op) (a : BinaryOutArchive) : option BinaryOutArchive :=
  match ops with
  | [] => Some a
  | Put s :: ops' => a' ← write_scalar s a; run ops' a'
  | PutString str :: ops' => a' ← write_string str a; run ops' a'
  | Flush :: ops' => run ops' (FlushBuffer a)
  end.

(** A session: construct, run the calls, destroy ([~BinaryOutArchive]
    calls [FlushBuffer]); the result is what reached the sink. *)
Definition session (ops : list op) : option (list byte) :=
  a ← run ops create; Some (stream (FlushBuffer a)).

(** The encoding of a string: its length as an [int], then its
    characters. *)
Definition string_record (str : list byte) : list byte :=
  let len := int_value (Z.of_nat (length str)) in
  repr (Scalar TInt (int_bits len)) ++ (if decide (len <> 0) then take (Z.to_nat len) str else []).

(** The unbuffered writer: every scalar goes to the sink at once, in its
    fixed width encoding, every string as its record; a flush has
    nothing to do. *)
Definition unbuffered (ops : list op) : list byte :=
  concat (map (fun o => match o with
                        | Put s => repr s
                        | PutString str => string_record str
                        | Flush => []
                        end) ops).

(** What an observer would see if the archive were flushed now. *)
Definition delivered (a : BinaryOutArchive) : list byte :=
  stream a ++ take (Z.to_nat (ptr a)) (buffer a).

Definition buffer_ok (a : BinaryOutArchive) : Prop :=
  Z.of_nat (length (buffer a)) = BUFFERSIZE /\ 0 <= ptr a <= BUFFERSIZE.

Lemma create_ok : buffer_ok create.
Proof. unfold buffer_ok, create, BUFFERSIZE. cbn [buffer ptr]. rewrite length_replicate. lia. Qed.

Lemma store_length buf off x buf' :
  store buf off x = Some buf' -> length buf' = length buf.
Proof.
  unfold store. case_decide; [|discriminate]. intros [= <-].
  rewrite !length_app, length_take, length_drop. lia.
Qed.

Lemma store_take buf off x buf' :
  store buf off x = Some buf' ->
  take (Z.to_nat off + length x) buf' = take (Z.to_nat off) buf ++ x.
Proof.
  unfold store. case_decide as H; [|discriminate]. intros [= <-].
  rewrite app_assoc. rewrite take_app_length'; [reflexivity|].
  rewrite length_app, length_take. lia.
Qed.

Lemma size_t_wrap_small z : 0 <= z < 2 ^ 64 -> size_t_wrap z = z.
Proof. intros. unfold size_t_wrap. now apply Z.mod_small. Qed.

(** One [Write] of an object no larger than the buffer succeeds, keeps the
    index inside the buffer and extends the observable output by the
    object's bytes. *)
Lemma Write_step x a :
  buffer_ok a -> Z.of_nat (length x) <= BUFFERSIZE ->
  exists a', Write x a = Some a' /\ buffer_ok a' /\ delivered a' = delivered a ++ x.
Proof.
  intros [Hlen Hptr] Hx. unfold Write, BUFFERSIZE in *.
  rewrite size_t_wrap_small by lia.
  case_decide as Hcmp.
  - destruct (store (buffer a) 0 x) as [buf'|] eqn:Hs.
    2:{ unfold store in Hs. case_decide; [discriminate|lia]. }
    eexists. split; [reflexivity|].
    pose proof (store_length _ _ _ _ Hs) as Hl.
    pose proof (store_take _ _ _ _ Hs) as Ht.
    split; [unfold buffer_ok, BUFFERSIZE; cbn [buffer ptr]; lia|].
    unfold delivered, stream_write. simpl. rewrite Nat2Z.id.
    simpl in Ht. rewrite Ht. reflexivity.
  - destruct (store (buffer a) (ptr a) x) as [buf'|] eqn:Hs.
    2:{ unfold store in Hs. case_decide; [discriminate|lia]. }
    eexists. split; [reflexivity|].
    pose proof (store_length _ _ _ _ Hs) as Hl.
    pose proof (store_take _ _ _ _ Hs) as Ht.
    rewrite size_t_wrap_small by lia.
    split; [unfold buffer_ok, BUFFERSIZE; cbn [buffer ptr]; lia|].
    unfold delivered. simpl.
    replace (Z.to_nat (ptr a + Z.of_nat (length x)))
      with (Z.to_nat (ptr a) + length x)%nat by lia.
    rewrite Ht. now rewrite app_assoc.
Qed.

Lemma Write_all_steps xs a :
  buffer_ok a -> Forall (fun x => Z.of_nat (length x) <= BUFFERSIZE) xs ->
  exists a', Write_all xs a = Some a' /\ buffer_ok a' /\
             delivered a' = delivered a ++ concat xs.
Proof.
  revert a. induction xs as [|x xs IH]; intros a Hok Hall.
  - exists a. simpl. rewrite app_nil_r. auto.
  - inversion Hall as [|? ? Hx Hxs]; subst.
    destruct (Write_step x a Hok Hx) as (a1 & Hw & Hok1 & Hd1).
    destruct (IH a1 Hok1 Hxs) as (a2 & Hw2 & Hok2 & Hd2).
    exists a2. simpl. rewrite Hw. simpl. split; [exact Hw2|]. split; [exact Hok2|].
    rewrite Hd2, Hd1. now rewrite <- app_assoc.
Qed.

Lemma FlushBuffer_stream a : buffer_ok a -> stream (FlushBuffer a) = delivered a.
Proof.
  intros [_ Hp]. unfold FlushBuffer, delivered. case_decide; [reflexivity|].
  replace (ptr a) with 0 by lia. simpl. now rewrite app_nil_r.
Qed.

Lemma repr_length s : length (repr s) = sizeof (sc_type s).
Proof. apply length_le_bytes. Qed.

Lemma repr_fits s : Z.of_nat (length (repr s)) <= BUFFERSIZE.
Proof. rewrite repr_length. unfold BUFFERSIZE. destruct (sc_type s); simpl; lia. Qed.

Lemma FlushBuffer_ok a : buffer_ok a -> buffer_ok (FlushBuffer a).
Proof.
  intros [Hl Hp]. unfold FlushBuffer. case_decide; [|now split].
  unfold buffer_ok, BUFFERSIZE in *. cbn [buffer ptr]. lia.
Qed.

Lemma FlushBuffer_delivered a : buffer_ok a -> delivered (FlushBuffer a) = delivered a.
Proof.
  intros Hok. unfold FlushBuffer. case_decide; [|reflexivity].
  unfold delivered, stream_write. cbn [buffer ptr stream]. simpl. now rewrite app_nil_r.
Qed.

Lemma write_string_delivered str a :
  buffer_ok a ->
  exists a', write_string str a = Some a' /\ buffer_ok a' /\
             delivered a' = delivered a ++ string_record str.
Proof.
  intros Hok. unfold write_string, string_record.
  set (len := int_value (Z.of_nat (length str))).
  destruct (Write_step (repr (Scalar TInt (int_bits len))) a Hok (repr_fits _))
    as (a1 & Hw & Hok1 & Hd1).
  unfold write_scalar. rewrite Hw. cbn [mbind option_bind].
  pose proof (FlushBuffer_ok a1 Hok1) as Hok2.
  pose proof (FlushBuffer_delivered a1 Hok1) as Hd2.
  assert (Hp : ptr (FlushBuffer a1) = 0).
  { unfold FlushBuffer. case_decide; [reflexivity|]. destruct Hok1 as [_ Hp]. lia. }
  eexists. split; [reflexivity|]. case_decide.
  - split; [exact Hok2|].
    unfold delivered in *. cbn [stream ptr buffer]. rewrite Hp in *. cbn [Z.to_nat take] in *.
    rewrite app_nil_r in *. rewrite Hd2, Hd1. now rewrite <- app_assoc.
  - split; [exact Hok2|]. rewrite Hd2, Hd1. reflexivity.
Qed.

Lemma run_delivered ops a :
  buffer_ok a ->
  exists a', run ops a = Some a' /\ buffer_ok a' /\
             delivered a' = delivered a ++ unbuffered ops.
Proof.
  revert a. induction ops as [|[s|str|] ops IH]; intros a Hok.
  - exists a. unfold unbuffered. simpl. rewrite app_nil_r. auto.
  - destruct (Write_step (repr s) a Hok (repr_fits s)) as (a1 & Hw & Hok1 & Hd1).
    destruct (IH a1 Hok1) as (a2 & Hr & Hok2 & Hd2).
    exists a2. cbn [run]. unfold write_scalar. rewrite Hw. simpl.
    split; [exact Hr|]. split; [exact Hok2|].
    rewrite Hd2, Hd1. unfold unbuffered. simpl. now rewrite <- app_assoc.
  - destruct (write_string_delivered str a Hok) as (a1 & Hw & Hok1 & Hd1).
    destruct (IH a1 Hok1) as (a2 & Hr & Hok2 & Hd2).
    exists a2. cbn [run]. rewrite Hw. simpl.
    split; [exact Hr|]. split; [exact Hok2|].
    rewrite Hd2, Hd1. unfold unbuffered. simpl. now rewrite <- app_assoc.
  - destruct (IH (FlushBuffer a) (FlushBuffer_ok a Hok)) as (a2 & Hr & Hok2 & Hd2).
    exists a2. cbn [run]. split; [exact Hr|]. split; [exact Hok2|].
    rewrite Hd2, FlushBuffer_delivered by exact Hok. reflexivity.
Qed.

Lemma buffered_session_is_unbuffered_aux (ops : list op) :
  session ops = Some (unbuffered ops).
Proof.
  unfold session.
  destruct (run_delivered ops create create_ok) as (a & Hr & Hok & Hd).
  rewrite Hr. simpl. rewrite (FlushBuffer_stream a Hok), Hd.
  unfold delivered, create. reflexivity.
Qed.

(** C8. Whatever scalars and strings are archived, and wherever
    [FlushBuffer] is called in between, the bytes that have reached the
    sink once the archive is destroyed are the fixed width encodings of
    the scalars (and the records of the strings) in write order: the
    1024 byte buffer cannot be observed. *)
Theorem buffered_session_is_unbuffered (ops : list op) :
  session ops = Some (unbuffered ops).
Proof.
  unfold session, unbuffered.
  destruct (run_delivered ops create create_ok) as (a & Hr & Hok & Hd).
  rewrite Hr. cbn [mbind option_bind]. f_equal.
  rewrite (FlushBuffer_stream a Hok), Hd. reflexivity.
Qed.

Lemma Write_trace_bounds xs a :
  buffer_ok a -> Forall (fun x => Z.of_nat (length x) <= BUFFERSIZE) xs ->
  length (Write_trace xs a) = S (length xs) /\
  Forall (fun s => 0 <= ptr s <= BUFFERSIZE) (Write_trace xs a).
Proof.
  revert a. induction xs as [|x xs IH]; intros a Hok Hall.
  - simpl. split; [reflexivity|]. constructor; [apply Hok|constructor].
  - inversion Hall as [|? ? Hx Hxs]; subst.
    destruct (Write_step x a Hok Hx) as (a1 & Hw & Hok1 & _).
    destruct (IH a1 Hok1 Hxs) as [Hlen Hf].
    cbn [Write_trace]. rewrite Hw. split.
    + simpl. now rewrite Hlen.
    + constructor; [apply Hok|exact Hf].
Qed.

(** C9. When no object written is larger than the buffer, every [Write]
    of the sequence is defined (no store leaves the 1024 byte array, which
    is the only way [Write] has of failing), and [ptr] lies in
    [0, BUFFERSIZE] before and after each call. *)
Theorem Write_stays_in_buffer (xs : list (list byte)) (a : BinaryOutArchive) :
  buffer_ok a ->
  Forall (fun x => Z.of_nat (length x) <= BUFFERSIZE) xs ->
  is_Some (Write_all xs a) /\
  length (Write_trace xs a) = S (length xs) /\
  Forall (fun s => 0 <= ptr s <= BUFFERSIZE) (Write_trace xs a).
Proof.
  intros Hok Hall. split.
  - destruct (Write_all_steps xs a Hok Hall) as (a' & -> & _). eauto.
  - now apply Write_trace_bounds.
Qed.

(** A store is defined exactly when its range lies inside the array. *)
Lemma store_defined_iff buf off x :
  is_Some (store buf off x) <->
  0 <= off /\ off + Z.of_nat (length x) <= Z.of_nat (length buf).
Proof.
  unfold store. case_decide as H.
  - split; [intros _; exact H|eauto].
  - split; [intros [? [=]]|intros H'; contradiction].
Qed.

(** Crossing the end of the window: 1020 bytes, then an int and a double. *)
Lemma Write_stays_in_buffer_witness :
  is_Some (Write_all [replicate 1020 x01; repr (Scalar TInt 7); repr (Scalar TDouble 1)] create) /\
  length (Write_trace [replicate 1020 x01; repr (Scalar TInt 7); repr (Scalar TDouble 1)] create)
    = 4%nat /\
  Forall (fun s => 0 <= ptr s <= BUFFERSIZE)
    (Write_trace [replicate 1020 x01; repr (Scalar TInt 7); repr (Scalar TDouble 1)] create).
Proof.
  apply (Write_stays_in_buffer
           [replicate 1020 x01; repr (Scalar TInt 7); repr (Scalar TDouble 1)] create).
  - exact create_ok.
  - repeat constructor; vm_compute; discriminate.
Defined.

End BinaryOut.

(** ** Input streams and what the standard library throws

    A [std::istream] over the characters still to come.  Once a read has
    failed the stream is no longer [good()] and further reads do
    nothing (no exception mask is ever set by the archives). *)
Record istream (C : Type) := mkIn { pending : list C; failed : bool }.
Arguments mkIn {C} pending failed.
Arguments pending {C} i.
Arguments failed {C} i.

(** [std::string::max_size()] of the library the archive is built with;
    [resize] beyond it throws [std::length_error]. *)
Definition string_max_size : Z := 2 ^ 62 - 1.

Inductive std_exception := length_error.

(** [str.resize(n)] for [n] already converted to [size_t]. *)
Definition string_resize {C} (zero : C) (n : Z) (str : list C) : std_exception + list C :=
  if decide (n > string_max_size) then inl length_error
  else inr (take (Z.to_nat n) str ++ replicate (Z.to_nat n - length str) zero).

(** ** BinaryInArchive *)

Module BinaryIn.

(** [stream->read(q, n)]: the next [n] bytes if there are that many;
    otherwise what is left is delivered and the stream fails. *)
Definition stream_read (n : Z) (i : istream byte) : list byte * istream byte :=
  if failed i then ([], i)
  else if decide (n <= Z.of_nat (length (pending i))) then
    (take (Z.to_nat n) (pending i), mkIn (drop (Z.to_nat n) (pending i)) false)
  else (pending i, mkIn [] true).

(** Bytes read into an object overwrite its first bytes. *)
Definition overwrite (old new : list byte) : list byte := new ++ drop (length new) old.

(** [template<typename T> void Read(T& val)]: [val] goes in with its old
    contents and comes out with the bytes read. *)
Definition Read (t : ctype) (old : Z) (i : istream byte) : scalar * istream byte :=
  let '(bs, i') := stream_read (Z.of_nat (sizeof t)) i in
  (Scalar t (le_value (overwrite (le_bytes (sizeof t) old) bs)), i').

(** Reading scalars of the given types one after the other, into
    variables that held [old]. *)
Fixpoint Read_all (ts : list ctype) (old : Z) (i : istream byte) : list scalar * istream byte :=
  match ts with
  | [] => ([], i)
  | t :: ts' =>
      let '(x, i1) := Read t old i in
      let '(xs, i2) := Read_all ts' old i1 in
      (x :: xs, i2)
  end.

(** [Archive & operator & (std::string & str)]; [len] is declared
    without a value, [junk] is what it happens to hold. *)
Definition read_string (junk : Z) (str : list byte) (i : istream byte)
  : (std_exception + list byte) * istream byte :=
  let '(x, i1) := Read TInt junk i in
  let len := int_value (sc_bits x) in
  match string_resize x00 (size_t_wrap len) str with
  | inl e => (inl e, i1)
  | inr str1 =>
      if decide (len <> 0) then
        let '(bs, i2) := stream_read len i1 in
        (inr (overwrite str1 bs), i2)
      else (inr str1, i1)
  end.

Lemma stream_read_exact bs rest :
  stream_read (Z.of_nat (length bs)) (mkIn (bs ++ rest) false) = (bs, mkIn rest false).
Proof.
  unfold stream_read. cbn [failed pending].
  rewrite decide_True by (rewrite length_app; lia).
  rewrite Nat2Z.id, take_app_length, drop_app_length. reflexivity.
Qed.

Lemma Read_repr (x : scalar) old rest :
  0 <= sc_bits x < 2 ^ (8 * Z.of_nat (sizeof (sc_type x))) ->
  Read (sc_type x) old (mkIn (repr x ++ rest) false) = (x, mkIn rest false).
Proof.
  intros Hx. unfold Read.
  rewrite <- (length_le_bytes (sizeof (sc_type x)) (sc_bits x)) at 1.
  fold (repr x). rewrite stream_read_exact. unfold overwrite.
  rewrite drop_ge by (unfold repr; rewrite !length_le_bytes; lia).
  rewrite app_nil_r. unfold repr. rewrite le_value_le_bytes.
  rewrite Z.mod_small by exact Hx. now destruct x.
Qed.

Lemma Read_all_repr (xs : list scalar) old rest :
  Forall (fun x => 0 <= sc_bits x < 2 ^ (8 * Z.of_nat (sizeof (sc_type x)))) xs ->
  Read_all (map sc_type xs) old (mkIn (concat (map repr xs) ++ rest) false)
  = (xs, mkIn rest false).
Proof.
  induction 1 as [|x xs Hx _ IH]; [reflexivity|].
  cbn [map concat Read_all]. rewrite <- app_assoc, (Read_repr x old _ Hx).
  now rewrite IH.
Qed.

End BinaryIn.

(** ** The text codec pair

    [TextOutArchive] writes each scalar with [operator<<] followed by a
    newline; [TextInArchive] reads with [operator>>].  Nothing in either
    class touches the formatting state of the stream, so numbers are
    written and parsed with the defaults of the standard library:
    decimal integers, and doubles in the general format with six
    significant digits. *)

Module TextCodec.

Definition newline : ascii := ascii_of_nat 10.
Definition NUL : ascii := ascii_of_nat 0.

(** [std::isspace] and [std::isdigit] in the classic locale. *)
Definition is_space (c : ascii) : bool :=
  let n := nat_of_ascii c in ((n =? 32) || ((9 <=? n) && (n <=? 13)))%nat.

Definition is_digit (c : ascii) : bool :=
  let n := nat_of_ascii c in ((48 <=? n) && (n <=? 57))%nat.

Definition digit_of_char (c : ascii) : Z := Z.of_nat (nat_of_ascii c) - 48.
Definition char_of_digit (d : Z) : ascii := ascii_of_nat (Z.to_nat (48 + d)).

(** *** Integers *)

(** The decimal digits of [n >= 0], most significant first. *)
Fixpoint decimal_fuel (fuel : nat) (n : Z) (acc : list ascii) : list ascii :=
  match fuel with
  | O => acc
  | S f =>
      let acc' := char_of_digit (n mod 10) :: acc in
      if n <? 10 then acc' else decimal_fuel f (n / 10) acc'
  end.

Definition decimal (n : Z) : list ascii :=
  decimal_fuel (S (Z.to_nat (Z.log2 n))) n [].

(** [os << i] for an integer [i]. *)
Definition print_integer (i : Z) : list ascii :=
  if decide (i < 0) then "-"%char :: decimal (- i) else decimal i.

Definition digits_value (ds : list ascii) : Z :=
  foldl (fun acc c => 10 * acc + digit_of_char c) 0 ds.

Fixpoint skip_space (cs : list ascii) : list ascii :=
  match cs with
  | c :: cs' => if is_space c then skip_space cs' else cs
  | [] => []
  end.

Fixpoint span_digits (cs : list ascii) : list ascii * list ascii :=
  match cs with
  | c :: cs' =>
      if is_digit c then let '(ds, rest) := span_digits cs' in (c :: ds, rest)
      else ([], cs)
  | [] => ([], [])
  end.

(** An optional sign in front of a number. *)
Definition take_sign (cs : list ascii) : bool * list ascii :=
  match cs with
  | c :: cs' =>
      if Ascii.eqb c "-" then (true, cs')
      else if Ascii.eqb c "+" then (false, cs')
      else (false, cs)
  | [] => (false, [])
  end.

(** The state a formatted read leaves the stream in: reading up to the
    end of the input sets [eofbit], after which the stream is not
    [good()]. *)
Definition after_field (rest : list ascii) (fail : bool) : istream ascii :=
  mkIn rest (fail || match rest with [] => true | _ => false end).

(** [is >> i] for an integer type with values [lo .. hi]; for an
    unsigned type a minus sign negates modulo [hi + 1].  [old] is what
    [i] held.  Nothing is done on a stream that is not good; no digits
    give 0, a value out of range gives the nearest bound, both with
    [failbit]. *)
Definition extract_integer (lo hi : Z) (old : Z) (i : istream ascii) : Z * istream ascii :=
  if failed i then (old, i)
  else
    match skip_space (pending i) with
    | [] => (old, mkIn [] true)
    | cs =>
        let '(neg, body) := take_sign cs in
        let '(ds, rest) := span_digits body in
        match ds with
        | [] => (0, mkIn rest true)
        | _ =>
            let u := digits_value ds in
            if decide (lo = 0) then
              if decide (hi < u) then (hi, mkIn rest true)
              else (if neg then (- u) mod (hi + 1) else u, after_field rest false)
            else
              let v := if neg then - u else u in
              if decide (v < lo) then (lo, mkIn rest true)
              else if decide (hi < v) then (hi, mkIn rest true)
              else (v, after_field rest false)
        end
    end.

(** [is >> c] for a [char]. *)
Definition extract_char (old : ascii) (i : istream ascii) : ascii * istream ascii :=
  if failed i then (old, i)
  else
    match skip_space (pending i) with
    | [] => (old, mkIn [] true)
    | c :: cs => (c, mkIn cs false)
    end.

(** [is.get(ch)]. *)
Definition get_char (old : ascii) (i : istream ascii) : ascii * istream ascii :=
  if failed i then (old, i)
  else
    match pending i with
    | [] => (old, mkIn [] true)
    | c :: cs => (c, mkIn cs false)
    end.

(** Up to [k] characters, stopping in front of [delim]. *)
Fixpoint take_until (delim : ascii) (k : nat) (cs : list ascii) : list ascii * list ascii :=
  match k, cs with
  | S k', c :: cs' =>
      if Ascii.eqb c delim then ([], cs)
      else let '(xs, rest) := take_until delim k' cs' in (c :: xs, rest)
  | _, _ => ([], cs)
  end.

(** [is.get(&str[0], n, delim)] into a string of [length str]
    characters: at most [n - 1] characters are stored, then a NUL. *)
Definition get_into (n : Z) (delim : ascii) (str : list ascii) (i : istream ascii)
  : list ascii * istream ascii :=
  if failed i then (take (length str) (NUL :: drop 1 str), i)
  else
    let '(xs, rest) := take_until delim (Z.to_nat (n - 1)) (pending i) in
    (take (length str) (xs ++ NUL :: drop (S (length xs)) str),
     mkIn rest (match xs with [] => true | _ => false end
                || (match rest with [] => true | _ => false end
                    && (length xs <? Z.to_nat (n - 1))%nat))).

(** *** Doubles

    A double is carried as its 64 bits (IEEE 754 binary64).  A finite
    one has the value [M * 2 ^ E]. *)
Inductive fp_class :=
| FZero (neg : bool)
| FFinite (neg : bool) (M E : Z)
| FInf (neg : bool)
| FNaN.

Definition classify (bits : Z) : fp_class :=
  let neg := Z.testbit bits 63 in
  let e := (bits / 2 ^ 52) mod 2 ^ 11 in
  let m := bits mod 2 ^ 52 in
  if e =? 2047 then (if m =? 0 then FInf neg else FNaN)
  else if e =? 0 then (if m =? 0 then FZero neg else FFinite neg m (-1074))
  else FFinite neg (2 ^ 52 + m) (e - 1075).

(** The nearest integer to [p / q], ties to even ([0 <= p], [0 < q]). *)
Definition round_half_even (p q : Z) : Z :=
  let d := p / q in
  let r := p mod q in
  if 2 * r <? q then d
  else if q <? 2 * r then d + 1
  else if Z.even d then d else d + 1.

(** [floor (log10 (p / q))] for [0 < p], [0 < q]. *)
Fixpoint count_digits (fuel : nat) (n : Z) : Z :=
  match fuel with
  | O => 1
  | S f => if n <? 10 then 1 else 1 + count_digits f (n / 10)
  end.

Fixpoint first_power (fuel : nat) (p q k : Z) : Z :=
  match fuel with
  | O => k
  | S f => if q <=? p * 10 then k else first_power f (p * 10) q (k + 1)
  end.

Definition log10_floor (p q : Z) : Z :=
  if q <=? p then count_digits (S (Z.to_nat (Z.log2 (p / q)))) (p / q) - 1
  else - first_power 400 p q 1.

(** The six significant digits of [p / q] as an integer in
    [100000, 999999], with the decimal exponent of the first. *)
Definition six_digits (p q : Z) : Z * Z :=
  let X := log10_floor p q in
  let n := if 5 <=? X then round_half_even p (q * 10 ^ (X - 5))
           else round_half_even (p * 10 ^ (5 - X)) q in
  if n =? 1000000 then (100000, X + 1) else (n, X).

Fixpoint strip_zeros_rev (rev_ds : list ascii) : list ascii :=
  match rev_ds with
  | c :: cs => if Ascii.eqb c "0" then strip_zeros_rev cs else rev_ds
  | [] => []
  end.

(** Trailing zeros of a fraction are not printed, nor is the point when
    nothing is left after it. *)
Definition fraction (ds : list ascii) : list ascii :=
  match reverse (strip_zeros_rev (reverse ds)) with
  | [] => []
  | fs => "."%char :: fs
  end.

Definition two_digits (n : Z) : list ascii :=
  if n <? 10 then "0"%char :: decimal n else decimal n.

(** [printf("%g")] with the default precision 6, which is what
    [os << d] does on a stream in its initial state. *)
Definition format_general (n X : Z) : list ascii :=
  let ds := decimal n in
  if (X <? -4) || (6 <=? X) then
    take 1 ds ++ fraction (drop 1 ds)
    ++ "e"%char :: (if X <? 0 then "-"%char else "+"%char) :: two_digits (Z.abs X)
  else if 0 <=? X then
    take (Z.to_nat (X + 1)) ds ++ fraction (drop (Z.to_nat (X + 1)) ds)
  else
    "0"%char :: fraction (replicate (Z.to_nat (- X - 1)) "0"%char ++ ds).

Definition sign_chars (neg : bool) : list ascii := if neg then ["-"%char] else [].

Definition print_double (bits : Z) : list ascii :=
  match classify bits with
  | FNaN => sign_chars (Z.testbit bits 63) ++ list_ascii_of_string "nan"
  | FInf neg => sign_chars neg ++ list_ascii_of_string "inf"
  | FZero neg => sign_chars neg ++ ["0"%char]
  | FFinite neg M E =>
      let '(n, X) := if 0 <=? E then six_digits (M * 2 ^ E) 1
                     else six_digits M (2 ^ (- E)) in
      sign_chars neg ++ format_general n X
  end.

(** The double nearest to [p / q] ([0 < p], [0 < q]), ties to even;
    [None] when it is too large for a double. *)
Definition nearest_double (p q : Z) : option Z :=
  let a := Z.log2 p - Z.log2 q in
  let e2 := if (if 0 <=? a then q * 2 ^ a <=? p else q <=? p * 2 ^ (- a)) then a else a - 1 in
  let E := Z.max (e2 - 52) (-1074) in
  let M := if 0 <=? E then round_half_even p (q * 2 ^ E)
           else round_half_even (p * 2 ^ (- E)) q in
  let '(M, E) := if M =? 2 ^ 53 then (2 ^ 52, E + 1) else (M, E) in
  if 972 <=? E then None
  else if M <? 2 ^ 52 then Some M
  else Some ((E + 1075) * 2 ^ 52 + (M - 2 ^ 52)).

Definition DBL_MAX_bits : Z := 2046 * 2 ^ 52 + (2 ^ 52 - 1).

Definition with_sign (neg : bool) (bits : Z) : Z := if neg then 2 ^ 63 + bits else bits.

(** [is >> d] for a double: sign, digits, fraction, exponent, converted
    as [strtod] does.  A field without digits gives 0 and [failbit]. *)
Definition extract_double (old : Z) (i : istream ascii) : Z * istream ascii :=
  if failed i then (old, i)
  else
    match skip_space (pending i) with
    | [] => (old, mkIn [] true)
    | cs =>
        let '(neg, body) := take_sign cs in
        let '(ip, r1) := span_digits body in
        let '(fp, r2) := match r1 with
                         | c :: r => if Ascii.eqb c "." then span_digits r else ([], r1)
                         | [] => ([], r1)
                         end in
        match ip ++ fp with
        | [] => (0, mkIn r2 true)
        | ds =>
            let '(ex, r3, bad) :=
              match r2 with
              | c :: r =>
                  if Ascii.eqb c "e" || Ascii.eqb c "E" then
                    let '(eneg, r') := take_sign r in
                    let '(es, r'') := span_digits r' in
                    match es with
                    | [] => (0, r'', true)
                    | _ => (if eneg then - digits_value es else digits_value es, r'', false)
                    end
                  else (0, r2, false)
              | [] => (0, r2, false)
              end in
            if bad then (0, mkIn r3 true)
            else
              let N := digits_value ds in
              let k := ex - Z.of_nat (length fp) in
              if N =? 0 then (with_sign neg 0, after_field r3 false)
              else
                match (if 0 <=? k then nearest_double (N * 10 ^ k) 1
                       else nearest_double N (10 ^ (- k))) with
                | Some bits => (with_sign neg bits, after_field r3 false)
                | None => (with_sign neg DBL_MAX_bits, mkIn r3 true)
                end
        end
    end.

(** The bits of the double nearest to an integer, for examples. *)
Definition double_of_Z (n : Z) : Z :=
  if n =? 0 then 0
  else with_sign (n <? 0) (default 0 (nearest_double (Z.abs n) 1)).

(** *** The archives *)

Definition bool_char (b : bool) : ascii := if b then "t"%char else "f"%char.

(** What [TextOutArchive::operator&] puts in front of the newline. *)
Definition print_scalar (x : scalar) : list ascii :=
  match sc_type x with
  | TDouble => print_double (sc_bits x)
  | TInt => print_integer (int_value (sc_bits x))
  | TLong => print_integer (long_value (sc_bits x))
  | TSizeT => print_integer (sc_bits x mod 2 ^ 64)
  | TShort => print_integer (short_value (sc_bits x))
  | TUChar => print_integer (sc_bits x mod 2 ^ 8)
  | TBool => [bool_char (negb (sc_bits x =? 0))]
  end.

Definition write_scalar (x : scalar) (out : list ascii) : list ascii :=
  out ++ print_scalar x ++ [newline].

Definition write_all (xs : list scalar) (out : list ascii) : list ascii :=
  foldl (fun o x => write_scalar x o) out xs.

(** [TextInArchive::operator&] for the scalar kinds.  [old] is what the
    variable read into held; the unsigned char and the bool are read
    through a local [int _i] and [char c], which start out holding
    whatever [junk] and [junk_c] stand for. *)
Definition read_scalar (t : ctype) (old junk : Z) (junk_c : ascii) (i : istream ascii)
  : scalar * istream ascii :=
  match t with
  | TDouble => let '(b, i') := extract_double old i in (Scalar TDouble b, i')
  | TInt =>
      let '(v, i') := extract_integer (- 2 ^ 31) (2 ^ 31 - 1) (int_value old) i in
      (Scalar TInt (v mod 2 ^ 32), i')
  | TLong =>
      let '(v, i') := extract_integer (- 2 ^ 63) (2 ^ 63 - 1) (long_value old) i in
      (Scalar TLong (v mod 2 ^ 64), i')
  | TSizeT =>
      let '(v, i') := extract_integer 0 (2 ^ 64 - 1) (old mod 2 ^ 64) i in
      (Scalar TSizeT v, i')
  | TShort =>
      let '(v, i') := extract_integer (- 2 ^ 15) (2 ^ 15 - 1) (short_value old) i in
      (Scalar TShort (v mod 2 ^ 16), i')
  | TUChar =>
      let '(v, i') := extract_integer (- 2 ^ 31) (2 ^ 31 - 1) junk i in
      (Scalar TUChar (v mod 2 ^ 8), i')
  | TBool =>
      let '(c, i') := extract_char junk_c i in
      (Scalar TBool (if Ascii.eqb c "t" then 1 else 0), i')
  end.

Fixpoint read_all (ts : list ctype) (old junk : Z) (junk_c : ascii) (i : istream ascii)
  : list scalar * istream ascii :=
  match ts with
  | [] => ([], i)
  | t :: ts' =>
      let '(x, i1) := read_scalar t old junk junk_c i in
      let '(xs, i2) := read_all ts' old junk junk_c i1 in
      (x :: xs, i2)
  end.

(** [TextOutArchive::operator & (std::string & str)] *)
Definition write_string (str : list ascii) (out : list ascii) : list ascii :=
  let len := int_value (Z.of_nat (length str)) in
  let out1 := out ++ print_integer len ++ [newline] in
  if decide (len <> 0) then out1 ++ take (Z.to_nat len) str ++ [newline] else out1.

(** [len + 1] on an [int len]: the sum is an [int] again, and at
    [len = 2^31 - 1] it is outside the type (taken here as wrapping to
    [- 2^31]; the statements below stay under that length). *)
Definition succ_int (len : Z) : Z := int_value (len + 1).

(** [TextInArchive::operator & (std::string & str)]; [len] and [ch] are
    declared without a value, and the count passed to [get] is the
    [int] sum [len + 1]. *)
Definition read_string (junk : Z) (junk_c : ascii) (str : list ascii) (i : istream ascii)
  : (std_exception + list ascii) * istream ascii :=
  let '(len, i1) := extract_integer (- 2 ^ 31) (2 ^ 31 - 1) junk i in
  let '(_, i2) := get_char junk_c i1 in
  match string_resize NUL (size_t_wrap len) str with
  | inl e => (inl e, i2)
  | inr str1 =>
      if decide (len <> 0) then
        let '(str2, i3) := get_into (succ_int len) NUL str1 i2 in (inr str2, i3)
      else (inr str1, i2)
  end.

(** **** Printing and parsing integers agree *)

Lemma char_of_digit_value d : 0 <= d < 10 -> digit_of_char (char_of_digit d) = d.
Proof.
  intros Hd. unfold digit_of_char, char_of_digit.
  rewrite nat_ascii_embedding by lia. lia.
Qed.

Lemma char_of_digit_is_digit d : 0 <= d < 10 -> is_digit (char_of_digit d) = true.
Proof.
  intros Hd. unfold is_digit, char_of_digit.
  rewrite nat_ascii_embedding by lia.
  apply andb_true_iff. split; apply Nat.leb_le; lia.
Qed.

Lemma decimal_fuel_acc fuel n acc :
  decimal_fuel fuel n acc = decimal_fuel fuel n [] ++ acc.
Proof.
  revert n acc. induction fuel as [|f IH]; intros n acc; [reflexivity|].
  cbn [decimal_fuel]. destruct (n <? 10); [reflexivity|].
  rewrite (IH _ (_ :: acc)), (IH _ [_]). now rewrite <- app_assoc.
Qed.

Lemma digits_value_snoc ds c : digits_value (ds ++ [c]) = 10 * digits_value ds + digit_of_char c.
Proof. unfold digits_value. now rewrite foldl_snoc. Qed.

Lemma decimal_fuel_value fuel n :
  0 <= n < 10 ^ Z.of_nat fuel -> digits_value (decimal_fuel fuel n []) = n.
Proof.
  revert n. induction fuel as [|f IH]; intros n Hn.
  - cbn in Hn. cbn. lia.
  - cbn [decimal_fuel]. destruct (Z.ltb_spec n 10) as [Hlt|Hge].
    + unfold digits_value. cbn. rewrite Z.mod_small by lia.
      rewrite char_of_digit_value by lia. lia.
    + rewrite decimal_fuel_acc, digits_value_snoc.
      rewrite char_of_digit_value by (apply Z.mod_pos_bound; lia).
      rewrite IH.
      * pose proof (Z.div_mod n 10). lia.
      * rewrite Nat2Z.inj_succ, Z.pow_succ_r in Hn by lia.
        split; [apply Z.div_pos; lia|]. apply Z.div_lt_upper_bound; lia.
Qed.

Lemma decimal_fuel_digits fuel n acc :
  0 <= n -> Forall (fun c => is_digit c = true) acc ->
  Forall (fun c => is_digit c = true) (decimal_fuel fuel n acc).
Proof.
  revert n acc. induction fuel as [|f IH]; intros n acc Hn Hacc; [exact Hacc|].
  cbn [decimal_fuel].
  assert (Hd : is_digit (char_of_digit (n mod 10)) = true)
    by (apply char_of_digit_is_digit, Z.mod_pos_bound; lia).
  destruct (n <? 10); [now constructor|].
  apply IH; [apply Z.div_pos; lia|now constructor].
Qed.

Lemma decimal_fuel_nonempty fuel n acc : decimal_fuel (S fuel) n acc <> [].
Proof.
  cbn [decimal_fuel]. destruct (n <? 10); [discriminate|].
  rewrite decimal_fuel_acc. intros H. apply app_eq_nil in H as [_ H]. discriminate.
Qed.

Lemma decimal_bound n : 0 <= n -> n < 10 ^ Z.of_nat (S (Z.to_nat (Z.log2 n))).
Proof.
  intros Hn. destruct (Z.eq_dec n 0) as [->|Hne]; [cbn; lia|].
  rewrite Nat2Z.inj_succ, Z2Nat.id by apply Z.log2_nonneg.
  pose proof (Z.log2_spec n ltac:(lia)) as [_ Hlt].
  eapply Z.lt_le_trans; [exact Hlt|].
  apply Z.pow_le_mono_l. lia.
Qed.

Lemma decimal_value n : 0 <= n -> digits_value (decimal n) = n.
Proof.
  intros Hn. unfold decimal. apply decimal_fuel_value.
  split; [exact Hn|now apply decimal_bound].
Qed.

Lemma decimal_digits n : 0 <= n -> Forall (fun c => is_digit c = true) (decimal n).
Proof. intros Hn. unfold decimal. now apply decimal_fuel_digits. Qed.

Lemma decimal_nonempty n : decimal n <> [].
Proof. unfold decimal. apply decimal_fuel_nonempty. Qed.

Lemma span_digits_app ds c rest :
  Forall (fun c => is_digit c = true) ds -> is_digit c = false ->
  span_digits (ds ++ c :: rest) = (ds, c :: rest).
Proof.
  intros Hds Hc. induction Hds as [|d ds Hd _ IH]; cbn.
  - now rewrite Hc.
  - now rewrite Hd, IH.
Qed.

Lemma skip_space_app ws c rest :
  Forall (fun c => is_space c = true) ws -> is_space c = false ->
  skip_space (ws ++ c :: rest) = c :: rest.
Proof.
  intros Hws Hc. induction Hws as [|w ws Hw _ IH]; cbn.
  - now rewrite Hc.
  - now rewrite Hw.
Qed.

Lemma digit_not_space c : is_digit c = true -> is_space c = false.
Proof.
  unfold is_digit, is_space. intros H. apply andb_true_iff in H as [H1 H2].
  apply Nat.leb_le in H1, H2. apply orb_false_iff. split.
  - apply Nat.eqb_neq. lia.
  - apply andb_false_iff. right. apply Nat.leb_gt. lia.
Qed.

Lemma digit_not_sign c cs :
  is_digit c = true -> take_sign (c :: cs) = (false, c :: cs).
Proof.
  intros H. unfold take_sign.
  destruct (Ascii.eqb_spec c "-") as [->|_]; [discriminate|].
  destruct (Ascii.eqb_spec c "+") as [->|_]; [discriminate|]. reflexivity.
Qed.

Lemma take_sign_minus cs : take_sign ("-"%char :: cs) = (true, cs).
Proof. reflexivity. Qed.

(** Reading back a printed integer of the type's range: the value, and
    the stream left in front of the character that followed it. *)
Lemma extract_printed_integer lo hi v old ws c rest :
  lo <= 0 -> lo <= v <= hi ->
  Forall (fun c => is_space c = true) ws -> is_digit c = false ->
  extract_integer lo hi old (mkIn (ws ++ print_integer v ++ c :: rest) false)
  = (v, mkIn (c :: rest) false).
Proof.
  intros Hlo Hv Hws Hc. unfold extract_integer, print_integer. cbn [failed pending].
  case_decide as Hneg.
  - (* a minus sign, then the digits of -v *)
    cbn [app]. rewrite skip_space_app by (exact Hws || reflexivity).
    rewrite take_sign_minus.
    rewrite span_digits_app by first [apply decimal_digits; lia | exact Hc].
    pose proof (decimal_nonempty (- v)) as Hne.
    destruct (decimal (- v)) as [|d ds] eqn:Hdec; [contradiction|].
    rewrite <- Hdec, decimal_value by lia.
    rewrite decide_False by lia. rewrite !decide_False by lia.
    f_equal. lia.
  - pose proof (decimal_nonempty v) as Hne.
    pose proof (decimal_digits v ltac:(lia)) as Hdig.
    destruct (decimal v) as [|d ds] eqn:Hdec; [contradiction|].
    inversion Hdig as [|? ? Hd Hds]; subst.
    cbn [app]. rewrite skip_space_app by (exact Hws || now apply digit_not_space).
    rewrite digit_not_sign by exact Hd.
    change (d :: ds ++ c :: rest) with ((d :: ds) ++ c :: rest).
    rewrite span_digits_app by (exact Hdig || exact Hc).
    rewrite <- Hdec, decimal_value by lia.
    case_decide; [rewrite decide_False by lia; reflexivity|].
    rewrite !decide_False by lia. reflexivity.
Qed.

(** **** Scalars through both codecs *)

Lemma signed_wraps m h u :
  m = 2 * h -> 0 <= u < m ->
  h * -1 <= (if decide (u < h) then u else u - m) <= h - 1 /\
  (if decide (u < h) then u else u - m) mod m = u.
Proof.
  intros -> Hu. case_decide.
  - split; [lia|]. apply Z.mod_small. lia.
  - split; [lia|]. rewrite <- (Z.mod_add _ 1) by lia.
    replace (u - 2 * h + 1 * (2 * h)) with u by lia. apply Z.mod_small. lia.
Qed.

Lemma newline_not_digit : is_digit newline = false.
Proof. reflexivity. Qed.

Lemma read_written_scalar (x : scalar) old junk junk_c ws rest :
  scalar_wf x -> sc_type x <> TDouble ->
  Forall (fun c => is_space c = true) ws ->
  read_scalar (sc_type x) old junk junk_c (mkIn (ws ++ print_scalar x ++ newline :: rest) false)
  = (x, mkIn (newline :: rest) false).
Proof.
  intros [Hr Hb] Hnd Hws. destruct x as [t bits]. cbn [sc_type sc_bits] in *.
  destruct t; try contradiction; unfold read_scalar, print_scalar; cbn [sc_type sc_bits];
    cbn [sizeof] in Hr.
  - (* int *)
    unfold int_value at 2. rewrite (Z.mod_small bits) by (cbn in Hr |- *; lia).
    destruct (signed_wraps (2 ^ 32) (2 ^ 31) bits eq_refl ltac:(cbn in Hr |- *; lia)) as [Hv Hm].
    rewrite extract_printed_integer; [now rewrite Hm|lia|lia|exact Hws|reflexivity].
  - (* long *)
    unfold long_value at 2. rewrite (Z.mod_small bits) by (cbn in Hr |- *; lia).
    destruct (signed_wraps (2 ^ 64) (2 ^ 63) bits eq_refl ltac:(cbn in Hr |- *; lia)) as [Hv Hm].
    rewrite extract_printed_integer; [now rewrite Hm|lia|lia|exact Hws|reflexivity].
  - (* size_t *)
    rewrite (Z.mod_small bits (2 ^ 64)) by (cbn in Hr |- *; lia).
    rewrite extract_printed_integer;
      [reflexivity|lia|cbn in Hr |- *; lia|exact Hws|reflexivity].
  - (* short *)
    unfold short_value at 2. rewrite (Z.mod_small bits) by (cbn in Hr |- *; lia).
    destruct (signed_wraps (2 ^ 16) (2 ^ 15) bits eq_refl ltac:(cbn in Hr |- *; lia)) as [Hv Hm].
    rewrite extract_printed_integer; [now rewrite Hm|lia|lia|exact Hws|reflexivity].
  - (* unsigned char, written as an int *)
    rewrite (Z.mod_small bits (2 ^ 8)) by (cbn in Hr |- *; lia).
    rewrite extract_printed_integer;
      [|lia|cbn in Hr |- *; lia|exact Hws|reflexivity].
    rewrite Z.mod_small by (cbn in Hr |- *; lia). reflexivity.
  - (* bool *)
    specialize (Hb eq_refl). unfold extract_char. cbn [failed pending].
    assert (bits = 0 \/ bits = 1) as [-> | ->] by lia; cbn [Z.eqb negb bool_char app].
    + rewrite skip_space_app by (exact Hws || reflexivity). reflexivity.
    + rewrite skip_space_app by (exact Hws || reflexivity). reflexivity.
Qed.

Definition written_text (xs : list scalar) : list ascii :=
  concat (map (fun x => print_scalar x ++ [newline]) xs).

Lemma write_all_text xs out : write_all xs out = out ++ written_text xs.
Proof.
  revert out. induction xs as [|x xs IH]; intros out; cbn.
  - now rewrite app_nil_r.
  - unfold write_all in *. cbn. rewrite IH. unfold write_scalar, written_text.
    cbn. now rewrite <- !app_assoc.
Qed.

Lemma read_all_written (xs : list scalar) old junk junk_c ws :
  Forall scalar_wf xs -> Forall (fun x => sc_type x <> TDouble) xs ->
  Forall (fun c => is_space c = true) ws ->
  read_all (map sc_type xs) old junk junk_c (mkIn (ws ++ written_text xs) false)
  = (xs, mkIn (match xs with [] => ws | _ => [newline] end) false).
Proof.
  intros Hwf. revert ws. induction Hwf as [|x xs Hx _ IH]; intros ws Hnd Hws.
  - cbn. now rewrite app_nil_r.
  - inversion Hnd as [|? ? Hxd Hxsd]; subst.
    cbn [map read_all written_text concat]. fold (written_text xs).
    rewrite <- app_assoc. cbn [app].
    rewrite (read_written_scalar x old junk junk_c ws _ Hx Hxd Hws).
    change (newline :: written_text xs) with ([newline] ++ written_text xs).
    rewrite IH by (assumption || (repeat constructor)).
    now destruct xs.
Qed.


Lemma take_until_all delim xs rest :
  Forall (fun c => c <> delim) xs -> take_until delim (length xs) (xs ++ rest) = (xs, rest).
Proof.
  induction 1 as [|x xs Hx _ IH]; cbn [length app take_until].
  - now destruct rest.
  - destruct (Ascii.eqb_spec x delim) as [->|_]; [contradiction|]. now rewrite IH.
Qed.

Lemma int_value_small n : 0 <= n < 2 ^ 31 -> int_value n = n.
Proof.
  intros Hn. unfold int_value. rewrite Z.mod_small by lia. now rewrite decide_True by lia.
Qed.

Lemma string_resize_length {C} (zero : C) n str :
  0 <= n < 2 ^ 31 ->
  exists str1, string_resize zero (size_t_wrap n) str = inr str1 /\ length str1 = Z.to_nat n.
Proof.
  intros Hn. unfold string_resize, size_t_wrap, string_max_size.
  rewrite Z.mod_small by lia. rewrite decide_False by lia.
  eexists. split; [reflexivity|].
  rewrite length_app, length_take, length_replicate. lia.
Qed.

Lemma binary_string_back (str old rest : list byte) junk :
  Z.of_nat (length str) < 2 ^ 31 ->
  BinaryIn.read_string junk old (mkIn (BinaryOut.string_record str ++ rest) false)
  = (inr str, mkIn rest false).
Proof.
  intros Hlen. unfold BinaryIn.read_string, BinaryOut.string_record.
  rewrite int_value_small by lia. rewrite <- app_assoc.
  assert (Hbits : 0 <= int_bits (Z.of_nat (length str)) < 2 ^ (8 * Z.of_nat (sizeof TInt)))
    by (unfold int_bits; apply Z.mod_pos_bound; reflexivity).
  pose proof (BinaryIn.Read_repr (Scalar TInt (int_bits (Z.of_nat (length str)))) junk
                ((if decide (Z.of_nat (length str) <> 0)
                  then take (Z.to_nat (Z.of_nat (length str))) str else []) ++ rest) Hbits) as Hrd.
  cbn [sc_type] in Hrd. rewrite Hrd. cbn [sc_bits].
  unfold int_bits. rewrite (Z.mod_small (Z.of_nat (length str))) by lia.
  rewrite int_value_small by lia.
  destruct (string_resize_length x00 (Z.of_nat (length str)) old ltac:(lia))
    as (str1 & -> & Hl1).
  case_decide as Hz.
  - rewrite Nat2Z.id, firstn_all. rewrite BinaryIn.stream_read_exact.
    unfold BinaryIn.overwrite. rewrite drop_ge by lia. now rewrite app_nil_r.
  - destruct str; [|cbn in Hz; lia]. destruct str1; [reflexivity|cbn in Hl1; lia].
Qed.

Lemma succ_int_small len : 0 <= len < 2 ^ 31 - 1 -> succ_int len = len + 1.
Proof. intros Hlen. unfold succ_int. apply int_value_small. lia. Qed.

Lemma text_string_back (str old ws : list ascii) junk junk_c :
  Z.of_nat (length str) < 2 ^ 31 - 1 ->
  Forall (fun c => c <> NUL) str ->
  Forall (fun c => is_space c = true) ws ->
  read_string junk junk_c old (mkIn (ws ++ write_string str []) false)
  = (inr str, mkIn (match str with [] => [] | _ => [newline] end) false).
Proof.
  intros Hlen Hnul Hws. unfold read_string, write_string.
  rewrite int_value_small by lia. cbn [app].
  destruct (string_resize_length NUL (Z.of_nat (length str)) old ltac:(lia))
    as (str1 & Hres & Hl1).
  case_decide as Hz.
  - rewrite <- !app_assoc. cbn [app].
    rewrite extract_printed_integer by (lia || assumption || reflexivity).
    unfold get_char. cbn [failed pending]. rewrite Hres.
    rewrite decide_True by exact Hz.
    rewrite succ_int_small by lia.
    unfold get_into. cbn [failed pending].
    replace (Z.to_nat (Z.of_nat (length str) + 1 - 1)) with (length str) by lia.
    rewrite Nat2Z.id, firstn_all, (take_until_all NUL str [newline] Hnul).
    rewrite Hl1, Nat2Z.id, take_app_length.
    destruct str; [cbn in Hz; lia|reflexivity].
  - destruct str; [|cbn in Hz; lia]. cbn [length] in *.
    rewrite extract_printed_integer by (lia || assumption || reflexivity).
    unfold get_char. cbn [failed pending]. rewrite Hres.
    destruct str1; [reflexivity|cbn in Hl1; lia].
Qed.

(** A string with a NUL inside does not come back through the text
    codec: the read stops in front of the NUL. *)
Lemma text_string_stops_at_nul :
  read_string 0 "x" [] (mkIn (write_string ["a"%char; NUL; "b"%char] []) false)
  = (inr ["a"%char; NUL; NUL], mkIn [NUL; "b"%char; newline] false).
Proof. vm_compute. reflexivity. Qed.



(** **** String lengths *)

(** The characters at the head of the source are no integer: after the
    white space and an optional sign there is no digit. *)
Definition no_length_field (cs : list ascii) : Prop :=
  skip_space cs <> [] /\ fst (span_digits (snd (take_sign (skip_space cs)))) = [].

Lemma negative_length_too_long {C} (zero : C) len str :
  - 2 ^ 31 <= len < 0 -> string_resize zero (size_t_wrap len) str = inl length_error.
Proof.
  intros Hlen. unfold string_resize, size_t_wrap, string_max_size.
  rewrite decide_True; [reflexivity|].
  rewrite <- (Z.mod_add _ 1) by lia. rewrite Z.mod_small by lia. lia.
Qed.

(** C6 as stated fails: a text source that starts with "abc" where the
    length of a string should be makes the read return normally, with
    the empty string and a failed stream; no exception is thrown. *)
Lemma text_malformed_length_reads_empty :
  read_string 7 "x" (list_ascii_of_string "old")
    (mkIn (list_ascii_of_string "abc" ++ [newline]) false)
  = (inr [], mkIn (list_ascii_of_string "abc" ++ [newline]) true).
Proof. vm_compute. reflexivity. Qed.

(** C6, amended.  The string reads check nothing themselves and throw
    no exception of the archive.  A text length prefix that is no
    number leaves the stream failed and the length 0: the read returns
    normally with the empty string.  A negative length, text or binary,
    goes to [resize] converted to [size_t], which is beyond [max_size]:
    [resize] throws [std::length_error], and no character of the
    payload is read with that length. *)
Theorem string_length_is_not_checked (junk : Z) (junk_c : ascii) :
  (forall (str cs : list ascii),
     no_length_field cs ->
     exists i', read_string junk junk_c str (mkIn cs false) = (inr [], i') /\
                failed i' = true) /\
  (forall (str ws rest : list ascii) (c : ascii) (len : Z),
     - 2 ^ 31 <= len < 0 ->
     Forall (fun c => is_space c = true) ws -> is_digit c = false ->
     read_string junk junk_c str (mkIn (ws ++ print_integer len ++ c :: rest) false)
     = (inl length_error, mkIn rest false)) /\
  (forall (str rest : list byte) (len : Z),
     - 2 ^ 31 <= len < 0 ->
     BinaryIn.read_string junk str (mkIn (repr (Scalar TInt (int_bits len)) ++ rest) false)
     = (inl length_error, mkIn rest false)).
Proof.
  split; [|split].
  - intros str cs [Hne Hnd]. unfold read_string, extract_integer. cbn [failed pending].
    destruct (skip_space cs) as [|c cs'] eqn:Hsk; [contradiction|].
    destruct (take_sign (c :: cs')) as [neg body]. cbn [snd] in Hnd.
    destruct (span_digits body) as [ds rest]. cbn [fst] in Hnd. subst ds.
    unfold get_char. cbn [failed]. eexists. split; [reflexivity|reflexivity].
  - intros str ws rest c len Hlen Hws Hc. unfold read_string.
    rewrite extract_printed_integer by (lia || assumption).
    unfold get_char. cbn [failed pending].
    now rewrite negative_length_too_long by exact Hlen.
  - intros str rest len Hlen. unfold BinaryIn.read_string.
    assert (Hbits : 0 <= int_bits len < 2 ^ (8 * Z.of_nat (sizeof TInt)))
      by (unfold int_bits; apply Z.mod_pos_bound; reflexivity).
    pose proof (BinaryIn.Read_repr (Scalar TInt (int_bits len)) junk rest Hbits) as Hrd.
    cbn [sc_type] in Hrd. rewrite Hrd. cbn [sc_bits].
    assert (Hval : int_value (int_bits len) = len).
    { unfold int_value, int_bits. rewrite Z.mod_mod by lia.
      assert (Hm : len mod 2 ^ 32 = len + 2 ^ 32).
      { rewrite <- (Z.mod_add _ 1) by lia. apply Z.mod_small. lia. }
      rewrite Hm. rewrite decide_False by lia. lia. }
    rewrite Hval. now rewrite negative_length_too_long by exact Hlen.
Qed.

Lemma string_length_is_not_checked_witness :
  read_string 7 "x" [] (mkIn (print_integer (-5) ++ newline :: list_ascii_of_string "hello") false)
    = (inl length_error, mkIn (list_ascii_of_string "hello") false) /\
  BinaryIn.read_string 7 [] (mkIn (repr (Scalar TInt (int_bits (-5))) ++ [x68; x69]) false)
    = (inl length_error, mkIn [x68; x69] false).
Proof.
  destruct (string_length_is_not_checked 7 "x") as (_ & Htext & Hbin). split.
  - apply (Htext [] [] (list_ascii_of_string "hello") newline (-5)).
    + lia.
    + constructor.
    + reflexivity.
  - apply (Hbin [] [x68; x69] (-5)). lia.
Defined.

End TextCodec.

(** ** The codec independent [Archive] class

    [Archive] leaves the nine primitive [operator&] overloads pure virtual.
    The embedding fixes no codec: the stream is the sequence of primitives
    handed to (or delivered by) the codec, each tagged with the overload
    it went through. *)

Module Core.

(** [void*]; the null pointer is 0. *)
Definition addr := Z.
Definition nullptr : addr := 0.

Inductive token :=
| TokDouble (bits : Z)
| TokInt (i : Z)
| TokLong (i : Z)
| TokSizeT (n : Z)
| TokShort (i : Z)
| TokUChar (c : Z)
| TokBool (b : bool)
| TokString (s : string).

(** How an archive call can end other than by returning. *)
Inductive fault :=
| Exception (what : string)  (* [throw Exception(what)] *)
| OutOfRange                 (* access outside a vector or array: undefined behaviour *)
| BadStream                  (* the source does not hold a primitive of the kind asked for *)
| OutOfFuel                  (* the recursion bound of the embedding was reached *)
| StdError (e : std_exception). (* an exception of the standard library *)

Inductive result (A : Type) :=
| Ok (a : A)
| Fault (f : fault).
Arguments Ok {A} a.
Arguments Fault {A} f.

(** A [std::shared_ptr]: the control block it shares ownership through
    and the address it holds.  An empty handle owns nothing. *)
Record shared_ptr := SharedPtr { owner : option nat; get : addr }.

Definition null_shared : shared_ptr := {| owner := None; get := nullptr |}.

(** The aliasing constructor [std::shared_ptr<void>(r, p)] and
    [std::static_pointer_cast]. *)
Definition alias (r : shared_ptr) (p : addr) : shared_ptr :=
  {| owner := owner r; get := p |}.
Definition static_pointer_cast (r : shared_ptr) : shared_ptr := r.

(** What an archived object hands to the archive, field by field. *)
Inductive value :=
| VPrim (t : token)
| VPtr (T : string) (p : addr)            (* a [T*] *)
| VShared (T : string) (sp : shared_ptr). (* a [std::shared_ptr<T>] *)

(** The kinds of fields, which is what a reading [DoArchive] knows. *)
Inductive prim_kind :=
| KDouble | KInt | KLong | KSizeT | KShort | KUChar | KBool | KString.

Inductive field_type :=
| FPrim (k : prim_kind)
| FPtr (T : string)
| FShared (T : string).

(** The free store as the reading archive sees it: the next address
    [new] hands out, the next control block, and the fields read into
    each object so far. *)
Record Heap := mkHeap {
  next_object : addr;
  next_owner : nat;
  objects : gmap addr (list value)
}.

(** The members of [Archive], and the codec's stream. *)
Record Archive := mkArchive {
  is_output : bool;
  shared_ptr_count : Z;
  ptr_count : Z;
  shared_ptr2nr : gmap addr Z;
  ptr2nr : gmap addr Z;
  nr2shared_ptr : list shared_ptr;
  nr2ptr : list addr;
  stream : list token;
  heap : Heap
}.

Definition empty_heap : Heap :=
  {| next_object := 4096; next_owner := 0%nat; objects := ∅ |}.

(** [Archive(bool ais_output)] over a codec whose stream holds [ts]. *)
Definition new_archive (out : bool) (ts : list token) : Archive :=
  {| is_output := out; shared_ptr_count := 0; ptr_count := 0;
     shared_ptr2nr := ∅; ptr2nr := ∅; nr2shared_ptr := []; nr2ptr := [];
     stream := ts; heap := empty_heap |}.

(** Archive calls mutate the archive in place and may throw; the archive
    keeps the state it had when the exception left. *)
Definition M (A : Type) : Type := Archive -> Archive * result A.

Definition ret {A} (a : A) : M A := fun s => (s, Ok a).

Definition bind {A B} (m : M A) (k : A -> M B) : M B :=
  fun s => match m s with
           | (s', Ok a) => k a s'
           | (s', Fault f) => (s', Fault f)
           end.

Definition throw {A} (f : fault) : M A := fun s => (s, Fault f).

Definition lift {A} (r : result A) : M A := fun s => (s, r).

Definition get_state : M Archive := fun s => (s, Ok s).

Definition modify (f : Archive -> Archive) : M unit := fun s => (f s, Ok tt).

Declare Scope archive_scope.
Delimit Scope archive_scope with archive.
Notation "x ← y ; z" := (bind y (fun x => z)) (only parsing) : archive_scope.
Notation "x ;; z" := (bind x (fun _ => z)) (only parsing) : archive_scope.
Local Open Scope archive_scope.

Definition set_stream (ts : list token) (s : Archive) : Archive :=
  {| is_output := is_output s; shared_ptr_count := shared_ptr_count s;
     ptr_count := ptr_count s; shared_ptr2nr := shared_ptr2nr s;
     ptr2nr := ptr2nr s; nr2shared_ptr := nr2shared_ptr s; nr2ptr := nr2ptr s;
     stream := ts; heap := heap s |}.

Definition set_heap (h : Heap) (s : Archive) : Archive :=
  {| is_output := is_output s; shared_ptr_count := shared_ptr_count s;
     ptr_count := ptr_count s; shared_ptr2nr := shared_ptr2nr s;
     ptr2nr := ptr2nr s; nr2shared_ptr := nr2shared_ptr s; nr2ptr := nr2ptr s;
     stream := stream s; heap := h |}.

(** [ptr2nr[reg_ptr] = ptr_count++] *)
Definition register_ptr (reg : addr) (s : Archive) : Archive :=
  {| is_output := is_output s; shared_ptr_count := shared_ptr_count s;
     ptr_count := ptr_count s + 1; shared_ptr2nr := shared_ptr2nr s;
     ptr2nr := <[reg := ptr_count s]> (ptr2nr s);
     nr2shared_ptr := nr2shared_ptr s; nr2ptr := nr2ptr s;
     stream := stream s; heap := heap s |}.

(** [shared_ptr2nr[reg_ptr] = shared_ptr_count++] *)
Definition register_shared (reg : addr) (s : Archive) : Archive :=
  {| is_output := is_output s; shared_ptr_count := shared_ptr_count s + 1;
     ptr_count := ptr_count s;
     shared_ptr2nr := <[reg := shared_ptr_count s]> (shared_ptr2nr s);
     ptr2nr := ptr2nr s;
     nr2shared_ptr := nr2shared_ptr s; nr2ptr := nr2ptr s;
     stream := stream s; heap := heap s |}.

(** [nr2ptr.push_back(p)] and [nr2shared_ptr.push_back(sp)] *)
Definition push_ptr (p : addr) (s : Archive) : Archive :=
  {| is_output := is_output s; shared_ptr_count := shared_ptr_count s;
     ptr_count := ptr_count s; shared_ptr2nr := shared_ptr2nr s;
     ptr2nr := ptr2nr s; nr2shared_ptr := nr2shared_ptr s;
     nr2ptr := nr2ptr s ++ [p];
     stream := stream s; heap := heap s |}.

Definition push_shared (sp : shared_ptr) (s : Archive) : Archive :=
  {| is_output := is_output s; shared_ptr_count := shared_ptr_count s;
     ptr_count := ptr_count s; shared_ptr2nr := shared_ptr2nr s;
     ptr2nr := ptr2nr s; nr2shared_ptr := nr2shared_ptr s ++ [sp];
     nr2ptr := nr2ptr s;
     stream := stream s; heap := heap s |}.

(** *** Primitives on an output and on an input archive *)

(** An output codec appends the primitive to the sink. *)
Definition put (t : token) : M unit :=
  modify (fun s => set_stream (stream s ++ [t]) s).

(** An input codec delivers the next primitive of the source. *)
Definition next_token : M token :=
  fun s => match stream s with
           | t :: ts => (set_stream ts s, Ok t)
           | [] => (s, Fault BadStream)
           end.

Definition get_int : M Z :=
  t ← next_token; match t with TokInt i => ret i | _ => throw BadStream end.
Definition get_bool : M bool :=
  t ← next_token; match t with TokBool b => ret b | _ => throw BadStream end.
Definition get_string : M string :=
  t ← next_token; match t with TokString s => ret s | _ => throw BadStream end.
Definition get_size_t : M Z :=
  t ← next_token; match t with TokSizeT n => ret n | _ => throw BadStream end.

Definition kind_of (t : token) : prim_kind :=
  match t with
  | TokDouble _ => KDouble | TokInt _ => KInt | TokLong _ => KLong
  | TokSizeT _ => KSizeT | TokShort _ => KShort | TokUChar _ => KUChar
  | TokBool _ => KBool | TokString _ => KString
  end.

Definition prim_kind_eqb (a b : prim_kind) : bool :=
  match a, b with
  | KDouble, KDouble | KInt, KInt | KLong, KLong | KSizeT, KSizeT
  | KShort, KShort | KUChar, KUChar | KBool, KBool | KString, KString => true
  | _, _ => false
  end.

Definition get_prim (k : prim_kind) : M token :=
  t ← next_token; if prim_kind_eqb (kind_of t) k then ret t else throw BadStream.

(** [for (auto& x : xs) ( *this) & x], for any way [w] of archiving one. *)
Fixpoint archive_all {A} (w : A -> M unit) (xs : list A) : M unit :=
  match xs with
  | [] => ret tt
  | x :: xs' => w x;; archive_all w xs'
  end.

(** The same on input: one read per entry of [ks], results in order. *)
Fixpoint read_all {K A} (r : K -> M A) (ks : list K) : M (list A) :=
  match ks with
  | [] => ret []
  | k :: ks' => x ← r k; xs ← read_all r ks'; ret (x :: xs)
  end.

(** *** The world around the archive

    [detail::ClassArchiveInfo]: the three closures a registered class
    provides.  Each takes the name of the (base) class asked for; the
    creator allocates. *)
Record ClassArchiveInfo := mkInfo {
  creator : string -> Heap -> Heap * result addr;
  upcaster : string -> addr -> result addr;
  downcaster : string -> addr -> result addr
}.

(** What the archive relies on and the header does not define: run time
    type information, the archived classes with their [DoArchive], and
    the type register ([IsRegistered] and [GetArchiveRegister] are only
    declared in the header). *)
Record Env := mkEnv {
  (* [Demangle(typeid( *p).name())] for a [T* p] *)
  typeid_of : string -> addr -> string;
  (* [std::is_constructible<T>::value] *)
  is_constructible : string -> bool;
  object_size : string -> Z;
  IsRegistered : string -> bool;
  GetArchiveRegister : string -> ClassArchiveInfo;
  (* what [( *this) & ( *p)] archives for a [T* p] on output, in order *)
  DoArchive_out : string -> addr -> list value;
  (* the fields [( *this) & ( *p)] reads for a [T* p] to an object of
     the given run time class *)
  DoArchive_in : string -> string -> list field_type
}.

Definition not_registered (name : string) : fault :=
  Exception ("Archive error: Polymorphic type " +:+ name +:+ " not registered for archive").

Definition no_default_constructor (name : string) : fault :=
  Exception ("Archive error: Class " +:+ name +:+ " does not provide a default constructor!").

Definition not_default_constructible (name : string) : fault :=
  Exception (name +:+ " is not default constructible!").

(** *** Canonical addresses

    Both pointer overloads start alike: when the run time type of the
    object differs from [T], the class must be registered and its
    downcaster gives the address of the complete object, which is the
    key of the identity tables ([reg_ptr]). *)
Definition reg_ptr_of (E : Env) (T : string) (p : addr) : result addr :=
  let name := typeid_of E T p in
  if decide (T <> name) then
    if negb (IsRegistered E name) then Fault (not_registered name)
    else downcaster (GetArchiveRegister E name) T p
  else Ok p.

Definition canonical (E : Env) (T : string) (p : addr) : M addr :=
  lift (reg_ptr_of E T p).

(** *** Raw pointers: [Archive & operator& (T *& p)] *)

(** The [Output()] branch.  [archive_obj T p] is [( *this) & ( *p)]. *)
Definition write_ptr (E : Env) (archive_obj : string -> addr -> M unit)
    (T : string) (p : addr) : M unit :=
  if decide (p = nullptr) then put (TokInt (-2))
  else
    let name := typeid_of E T p in
    reg_ptr ← canonical E T p;
    s ← get_state;
    match ptr2nr s !! reg_ptr with
    | None =>
        modify (register_ptr reg_ptr);;
        if decide (name = T) then
          if is_constructible E T then
            put (TokInt (-1));; archive_obj T p
          else throw (no_default_constructor name)
        else
          if negb (IsRegistered E name) then throw (not_registered name)
          else put (TokInt (-3));; put (TokString name);; archive_obj T p
    | Some nr =>
        put (TokInt nr);;
        let downcasted := negb (bool_decide (reg_ptr = p)) in
        put (TokBool downcasted);; put (TokString name)
    end.

(** [new T]. *)
Definition new_object (E : Env) (T : string) : M addr :=
  fun s =>
    let h := heap s in
    (set_heap {| next_object := next_object h + object_size E T;
                 next_owner := next_owner h; objects := objects h |} s,
     Ok (next_object h)).

(** [detail::constructIfPossible<T>()]. *)
Definition constructIfPossible (E : Env) (T : string) : M addr :=
  if is_constructible E T then new_object E T
  else throw (not_default_constructible T).

(** [info.creator(typeid(T))]. *)
Definition call_creator (info : ClassArchiveInfo) (T : string) : M addr :=
  fun s => let '(h, r) := creator info T (heap s) in (set_heap h s, r).

(** [v[nr]] on a [std::vector] indexed by an [int]. *)
Definition index {A} (v : list A) (nr : Z) : M A :=
  if decide (0 <= nr) then
    match v !! Z.to_nat nr with
    | Some x => ret x
    | None => throw OutOfRange
    end
  else throw OutOfRange.

(** The [Input()] branch.  [archive_obj T name p] is [( *this) & ( *p)]
    for a [T* p] to an object of run time class [name]. *)
Definition read_ptr (E : Env) (archive_obj : string -> string -> addr -> M unit)
    (T : string) : M addr :=
  nr ← get_int;
  if decide (nr = -2) then ret nullptr
  else if decide (nr = -1) then
    p ← constructIfPossible E T;
    modify (push_ptr p);;
    archive_obj T T p;;
    ret p
  else if decide (nr = -3) then
    name ← get_string;
    let info := GetArchiveRegister E name in
    p ← call_creator info T;
    q ← lift (downcaster info T p);
    modify (push_ptr q);;
    archive_obj T name p;;
    ret p
  else
    downcasted ← get_bool;
    name ← get_string;
    if downcasted then
      let info := GetArchiveRegister E name in
      s ← get_state;
      q ← index (nr2ptr s) nr;
      lift (upcaster info T q)
    else
      s ← get_state;
      index (nr2ptr s) nr.

(** *** Shared handles: [Archive& operator & (std::shared_ptr<T>& ptr)] *)

(** The [Output()] branch.  [archive_ptr T p] is [( *this) & p] for the
    [T* p] the handle holds. *)
Definition write_shared (E : Env) (archive_ptr : string -> addr -> M unit)
    (T : string) (ptr : shared_ptr) : M unit :=
  if decide (get ptr = nullptr) then put (TokInt (-2))
  else
    let name := typeid_of E T (get ptr) in
    reg_ptr ← canonical E T (get ptr);
    let neededDowncast := negb (bool_decide (reg_ptr = get ptr)) in
    s ← get_state;
    match shared_ptr2nr s !! reg_ptr with
    | None =>
        let p := get ptr in
        put (TokInt (-1));;
        put (TokBool neededDowncast);;
        archive_ptr T p;;
        (if neededDowncast then put (TokString name) else ret tt);;
        modify (register_shared reg_ptr)
    | Some nr =>
        put (TokInt nr);;
        put (TokBool neededDowncast);;
        if neededDowncast then put (TokString name) else ret tt
    end.

(** [std::shared_ptr<T>(p)]: a new control block takes ownership of [p]. *)
Definition make_shared_from (p : addr) : M shared_ptr :=
  fun s =>
    let h := heap s in
    (set_heap {| next_object := next_object h; next_owner := S (next_owner h);
                 objects := objects h |} s,
     Ok {| owner := Some (next_owner h); get := p |}).

(** The [Input()] branch.  [archive_ptr] is [( *this) & p] for a [T* p]. *)
Definition read_shared (E : Env) (archive_ptr : M addr) (T : string) : M shared_ptr :=
  nr ← get_int;
  if decide (nr = -2) then ret null_shared
  else if decide (nr = -1) then
    neededDowncast ← get_bool;
    p ← archive_ptr;
    ptr ← make_shared_from p;
    (if neededDowncast then
       name ← get_string;
       let info := GetArchiveRegister E name in
       q ← lift (downcaster info T (get ptr));
       modify (push_shared (alias (static_pointer_cast ptr) q))
     else modify (push_shared ptr));;
    ret ptr
  else
    s ← get_state;
    other ← index (nr2shared_ptr s) nr;
    neededDowncast ← get_bool;
    if neededDowncast then
      name ← get_string;
      let info := GetArchiveRegister E name in
      q ← lift (upcaster info T (get other));
      ret (static_pointer_cast (alias other q))
    else ret (static_pointer_cast other).

(** *** The two overloads as the caller sees them

    The direction is fixed when the archive is constructed; each call
    takes the branch [Output()] selects.  The result is what the
    argument, passed by reference, holds afterwards. *)
Definition archive_ptr (E : Env) (wobj : string -> addr -> M unit)
    (robj : string -> string -> addr -> M unit) (T : string) (p : addr) : M addr :=
  s ← get_state;
  if is_output s then write_ptr E wobj T p;; ret p
  else read_ptr E robj T.

Definition archive_shared (E : Env) (wptr : string -> addr -> M unit) (rptr : M addr)
    (T : string) (ptr : shared_ptr) : M shared_ptr :=
  s ← get_state;
  if is_output s then write_shared E wptr T ptr;; ret ptr
  else read_shared E rptr T.

(** *** Object graphs

    [DoArchive] of an archived class calls back into the archive for
    each field.  The recursion follows the object graph, which may be
    cyclic, so it is bounded by [fuel]. *)
Definition write_obj (E : Env) (rec : value -> M unit) (T : string) (p : addr) : M unit :=
  archive_all rec (DoArchive_out E T p).

Fixpoint write_value (E : Env) (fuel : nat) (v : value) : M unit :=
  match fuel with
  | O => throw OutOfFuel
  | S f =>
      match v with
      | VPrim t => put t
      | VPtr T p => write_ptr E (write_obj E (write_value E f)) T p
      | VShared T sp =>
          write_shared E (write_ptr E (write_obj E (write_value E f))) T sp
      end
  end.

(** Record the fields read into the object at [p]. *)
Definition store_object (p : addr) (vs : list value) : M unit :=
  modify (fun s =>
    let h := heap s in
    set_heap {| next_object := next_object h; next_owner := next_owner h;
                objects := <[p := vs]> (objects h) |} s).

Definition read_obj (E : Env) (rec : field_type -> M value)
    (T name : string) (p : addr) : M unit :=
  vs ← read_all rec (DoArchive_in E T name);
  store_object p vs.

Fixpoint read_value (E : Env) (fuel : nat) (t : field_type) : M value :=
  match fuel with
  | O => throw OutOfFuel
  | S f =>
      match t with
      | FPrim k => tok ← get_prim k; ret (VPrim tok)
      | FPtr T =>
          p ← read_ptr E (read_obj E (read_value E f)) T; ret (VPtr T p)
      | FShared T =>
          sp ← read_shared E (read_ptr E (read_obj E (read_value E f)) T) T;
          ret (VShared T sp)
      end
  end.

Definition type_of (v : value) : field_type :=
  match v with
  | VPrim t => FPrim (kind_of t)
  | VPtr T _ => FPtr T
  | VShared T _ => FShared T
  end.

(** A write session archives the values one after the other; a read
    session reads back values of the given types. *)
Definition write_session (E : Env) (fuel : nat) (vs : list value) : Archive * result unit :=
  archive_all (write_value E fuel) vs (new_archive true []).

Definition read_session (E : Env) (fuel : nat) (ts : list field_type) (src : list token)
  : Archive * result (list value) :=
  read_all (read_value E fuel) ts (new_archive false src).

(** *** Containers

    The element type is any type the archive can do: [welem x] stands
    for [( *this) & x] on output and [relem] for the same on input,
    where it gives the new value of [x]. *)

(** The indices [for (size_t j = 0; j < n; j++)] goes through. *)
Definition loop_indices (n : Z) : list nat := seq 0 (Z.to_nat n).

(** [Archive & Do (T * data, size_t n)]: [( *this) & data[j]] for each
    [j] of the loop.  [elem x] archives [x] and gives its new value.
    Touching [data[j]] outside the array is undefined behaviour. *)
Fixpoint Do_over {A} (elem : A -> M A) (data : list A) (js : list nat) : M (list A) :=
  match js with
  | [] => ret data
  | j :: js' =>
      match data !! j with
      | None => throw OutOfRange
      | Some x => x' ← elem x; Do_over elem (<[j := x']> data) js'
      end
  end.

Definition Do {A} (elem : A -> M A) (data : list A) (n : Z) : M (list A) :=
  Do_over elem data (loop_indices n).

(** What [v.resize(size)] leaves in [v], new elements value
    initialised. *)
Definition resize_vector {A} (dflt : A) (size : Z) (v : list A) : list A :=
  take (Z.to_nat size) v ++ replicate (Z.to_nat size - length v) dflt.

(** [v.resize(size)]: a size beyond [v.max_size()] makes it throw
    [std::length_error]; below that the allocation is taken to
    succeed. *)
Definition resize {A} (max_size : Z) (dflt : A) (size : Z) (v : list A) : M (list A) :=
  if decide (max_size < size) then throw (StdError length_error)
  else ret (resize_vector dflt size v).

(** [v[0]], of which [&v[0]] takes the address: [operator[]] asks for
    an index below [size()].  An empty vector has no element 0, and
    the call is undefined behaviour (it aborts where the library checks
    its preconditions). *)
Definition element_0 {A} (v : list A) : M unit :=
  match v with
  | [] => throw OutOfRange
  | _ :: _ => ret tt
  end.

(** [Archive& operator & (std::vector<T>& v)], output and input:
    [Do(&v[0], size)] after the size, and on input after the resize.
    [relem x] reads into the element that holds [x]. *)
Definition write_vector {A} (welem : A -> M unit) (v : list A) : M unit :=
  let size := Z.of_nat (length v) in
  put (TokSizeT size);;
  element_0 v;;
  Do (fun x => welem x;; ret x) v size;;
  ret tt.

Definition read_vector {A} (relem : A -> M A) (dflt : A) (max_size : Z) (v : list A)
  : M (list A) :=
  size ← get_size_t;
  v' ← resize max_size dflt size v;
  element_0 v';;
  Do relem v' size.

(** [Archive& operator& (std::map<T1, T2>& map)].  A [std::map] is a
    finite map whose iteration goes through the keys in ascending
    order. *)
Section Map.

Context {K V : Type} `{Countable K}.
Variable key_le : relation K.
Context `{!RelDecision key_le}.

Definition pair_le (a b : K * V) : Prop := key_le a.1 b.1.

#[local] Instance pair_le_dec : RelDecision pair_le.
Proof. intros a b. unfold pair_le. apply _. Defined.

(** [for (auto& pair : map)] *)
Definition map_iteration (m : gmap K V) : list (K * V) :=
  merge_sort pair_le (map_to_list m).

Definition write_map (wkey : K -> M unit) (wval : V -> M unit) (m : gmap K V) : M unit :=
  put (TokSizeT (Z.of_nat (size m)));;
  archive_all (fun pair : K * V => wkey pair.1;; wval pair.2) (map_iteration m).

(** [for (size_t i = 0; i < size; i++) { ...; map[key] = val; }] *)
Fixpoint read_map_loop (rkey : M K) (rval : M V) (n : nat) (m : gmap K V) : M (gmap K V) :=
  match n with
  | O => ret m
  | S n' =>
      key ← rkey; val ← rval;
      read_map_loop rkey rval n' (<[key := val]> m)
  end.

Definition read_map (rkey : M K) (rval : M V) (m : gmap K V) : M (gmap K V) :=
  size ← get_size_t;
  read_map_loop rkey rval (Z.to_nat size) m.

End Map.

(** A type is archived as plain data when writing a value appends an
    encoding of it and reading takes the encoding off the source and
    gives the value back, the tables playing no part. *)
Definition plain_data {A} (w : A -> M unit) (r : M A) (enc : A -> list token) : Prop :=
  (forall x s, w x s = (set_stream (stream s ++ enc x) s, Ok tt)) /\
  (forall x rest s, r (set_stream (enc x ++ rest) s) = (set_stream rest s, Ok x)).

(** *** A small world to run the archive in

    The scenario of the specification: [Face] derives from [GraphNode]
    (at offset 0) and from [Colored] (at offset 16) and is registered.
    A [Face] lives at address 1000.  [Patch] also derives from
    [GraphNode] but was never registered; one lives at 2000.  Any other
    address holds an object of exactly the static type.  A [Loop] holds
    a shared handle to the [Loop] at 5000, which so owns itself. *)
Definition cast_failed (what : string) : fault :=
  Exception (what +:+ " not successful, some classes are not registered properly for archiving!").

Definition face_up (ti : string) (p : addr) : result addr :=
  if String.eqb ti "Face" then Ok p
  else if String.eqb ti "GraphNode" then Ok p
  else if String.eqb ti "Colored" then Ok (p + 16)
  else Fault (cast_failed "Upcast").

Definition face_down (ti : string) (p : addr) : result addr :=
  if String.eqb ti "Face" then Ok p
  else if String.eqb ti "GraphNode" then Ok p
  else if String.eqb ti "Colored" then Ok (p - 16)
  else Fault (cast_failed "Downcast").

Definition face_info : ClassArchiveInfo :=
  {| creator := fun ti h =>
       ({| next_object := next_object h + 32; next_owner := next_owner h;
           objects := objects h |}, face_up ti (next_object h));
     upcaster := face_up;
     downcaster := face_down |}.

Definition no_info : ClassArchiveInfo :=
  {| creator := fun _ h => (h, Fault (cast_failed "Upcast"));
     upcaster := fun _ _ => Fault (cast_failed "Upcast");
     downcaster := fun _ _ => Fault (cast_failed "Downcast") |}.

Definition scene_typeid (T : string) (p : addr) : string :=
  if bool_decide (p = 1000 \/ p = 1016) then "Face"
  else if bool_decide (p = 2000) then "Patch" else T.

Definition loop_handle : shared_ptr := {| owner := Some 9%nat; get := 5000 |}.

Definition scene : Env :=
  {| typeid_of := scene_typeid;
     is_constructible := fun _ => true;
     object_size := fun _ => 32;
     IsRegistered := fun name => String.eqb name "Face";
     GetArchiveRegister := fun name =>
       if String.eqb name "Face" then face_info else no_info;
     DoArchive_out := fun T p =>
       if String.eqb (scene_typeid T p) "Face"
       then [VPrim (TokInt 42); VPrim (TokString "red")]
       else if String.eqb (scene_typeid T p) "Loop" then [VShared "Loop" loop_handle]
       else [VPrim (TokInt 7)];
     DoArchive_in := fun T name =>
       if String.eqb name "Face" then [FPrim KInt; FPrim KString]
       else if String.eqb name "Loop" then [FShared "Loop"]
       else [FPrim KInt] |}.

(** What the specification says a raw pointer to a seen object is
    written as: slot, flag, and the type name if the flag is set. *)
Definition seen_record_of_spec (nr : Z) (downcasted : bool) (name : string) : list token :=
  [TokInt nr; TokBool downcasted] ++ (if downcasted then [TokString name] else []).

(** *** Reasoning about archive calls *)

Lemma bind_inv {A B} (m : M A) (k : A -> M B) s s' r :
  bind m k s = (s', r) ->
  (exists s1 a, m s = (s1, Ok a) /\ k a s1 = (s', r)) \/
  (exists f, m s = (s', Fault f) /\ r = Fault f).
Proof.
  unfold bind. destruct (m s) as [s1 [a|f]]; intros H.
  - left. eauto.
  - right. injection H as <- <-. eauto.
Qed.

Lemma bind_ok {A B} (m : M A) (k : A -> M B) s s1 a :
  m s = (s1, Ok a) -> bind m k s = k a s1.
Proof. unfold bind. now intros ->. Qed.

Lemma bind_fault {A B} (m : M A) (k : A -> M B) s s1 f :
  m s = (s1, Fault f) -> bind m k s = (s1, Fault f).
Proof. unfold bind. now intros ->. Qed.

(** Split a run of [x ← m; k] into the run of [m] and the run of [k]. *)
Ltac bind_cases H :=
  let s1 := fresh "s" in
  let a := fresh "a" in
  let f := fresh "f" in
  let H1 := fresh "Hm" in
  let H2 := fresh "Hk" in
  apply bind_inv in H as [(s1 & a & H1 & H2)|(f & H1 & H2)].

(** Take a run apart into the runs of its primitive steps. *)
Ltac run_cases :=
  repeat first
    [ progress simplify_eq
    | match goal with
      | H : bind _ _ _ = (_, _) |- _ => bind_cases H
      | H : ret _ _ = (_, _) |- _ => unfold ret in H
      | H : throw _ _ = (_, _) |- _ => unfold throw in H
      | H : lift _ _ = (_, _) |- _ => unfold lift in H
      | H : modify _ _ = (_, _) |- _ => unfold modify in H
      | H : get_state _ = (_, _) |- _ => unfold get_state in H
      | H : (if decide ?P then _ else _) _ = (_, _) |- _ => destruct (decide P)
      | H : (if ?b then _ else _) _ = (_, _) |- _ => destruct b eqn:?
      | H : (match ?x with _ => _ end) _ = (_, _) |- _ => destruct x eqn:?
      end ].

(** Computing the canonical address leaves the archive alone. *)
Lemma canonical_state E T p s s' r : canonical E T p s = (s', r) -> s' = s.
Proof. unfold canonical, lift. now intros [= <- _]. Qed.

(** **** Invariants of a write pass

    A property of the archive that survives a primitive write and the
    two registrations survives any archive call of a write pass.  The
    registration of a shared handle happens after its payload has been
    written: the rule for it speaks of the state [s1] in which the table
    was consulted and of the state [s2] in which the entry is made. *)
Section WriteInvariant.

Variable E : Env.
Variable I : Archive -> Prop.

Hypothesis I_put : forall s t, I s -> I (set_stream (stream s ++ [t]) s).
Hypothesis I_register_ptr :
  forall s reg, I s -> ptr2nr s !! reg = None -> I (register_ptr reg s).
Hypothesis I_register_shared :
  forall s1 s2 reg, I s1 -> shared_ptr2nr s1 !! reg = None -> I s2 ->
                    I (register_shared reg s2).

Lemma put_inv t s s' r : I s -> put t s = (s', r) -> I s'.
Proof. unfold put, modify. intros Hs [= <- _]. now apply I_put. Qed.

Lemma archive_all_inv {A} (w : A -> M unit) (xs : list A) :
  (forall x s s' r, I s -> w x s = (s', r) -> I s') ->
  forall s s' r, I s -> archive_all w xs s = (s', r) -> I s'.
Proof.
  intros Hw. induction xs as [|x xs IH]; intros s s' r Hs H.
  - injection H as <- _. exact Hs.
  - cbn [archive_all] in H. bind_cases H.
    + eapply IH; [|exact Hk]. eapply Hw; eauto.
    + eapply Hw; eauto.
Qed.

Lemma write_ptr_inv (wobj : string -> addr -> M unit) T p :
  (forall T' p' s s' r, I s -> wobj T' p' s = (s', r) -> I s') ->
  forall s s' r, I s -> write_ptr E wobj T p s = (s', r) -> I s'.
Proof.
  intros Hobj s s' r Hs H. unfold write_ptr in H.
  case_decide as Hp; [eapply put_inv; eauto|].
  bind_cases H.
  2:{ apply canonical_state in Hm. now subst. }
  apply canonical_state in Hm. subst s0.
  unfold get_state in Hk. bind_cases Hk; [|discriminate].
  injection Hm as <- <-.
  destruct (ptr2nr s !! a) as [nr|] eqn:Hl.
  - bind_cases Hk0; [|eapply put_inv; eauto].
    pose proof (put_inv _ _ _ _ Hs Hm) as Hs1.
    bind_cases Hk; [|eapply put_inv; eauto].
    pose proof (put_inv _ _ _ _ Hs1 Hm0) as Hs2.
    eapply put_inv; eauto.
  - bind_cases Hk0; [|discriminate].
    injection Hm as <- _.
    pose proof (I_register_ptr s a Hs Hl) as Hs1.
    case_decide.
    + destruct (is_constructible E T).
      * bind_cases Hk; [|eapply put_inv; eauto].
        eapply Hobj; [|exact Hk0]. eapply put_inv; eauto.
      * injection Hk as <- _. exact Hs1.
    + destruct (negb (IsRegistered E (typeid_of E T p))).
      * injection Hk as <- _. exact Hs1.
      * bind_cases Hk; [|eapply put_inv; eauto].
        pose proof (put_inv _ _ _ _ Hs1 Hm) as Hs2.
        bind_cases Hk0; [|eapply put_inv; eauto].
        eapply Hobj; [|exact Hk]. eapply put_inv; eauto.
Qed.

Lemma write_shared_inv (wptr : string -> addr -> M unit) T sp :
  (forall T' p' s s' r, I s -> wptr T' p' s = (s', r) -> I s') ->
  forall s s' r, I s -> write_shared E wptr T sp s = (s', r) -> I s'.
Proof.
  intros Hptr s s' r Hs H. unfold write_shared in H.
  case_decide as Hp; [eapply put_inv; eauto|].
  bind_cases H.
  2:{ apply canonical_state in Hm. now subst. }
  apply canonical_state in Hm. subst s0.
  unfold get_state in Hk. bind_cases Hk; [|discriminate].
  injection Hm as <- <-.
  destruct (shared_ptr2nr s !! a) as [nr|] eqn:Hl.
  - bind_cases Hk0; [|eapply put_inv; eauto].
    pose proof (put_inv _ _ _ _ Hs Hm) as Hs1.
    bind_cases Hk; [|eapply put_inv; eauto].
    pose proof (put_inv _ _ _ _ Hs1 Hm0) as Hs2.
    destruct (negb (bool_decide (a = get sp))).
    + eapply put_inv; eauto.
    + injection Hk0 as <- _. exact Hs2.
  - bind_cases Hk0; [|eapply put_inv; eauto].
    pose proof (put_inv _ _ _ _ Hs Hm) as Hs1.
    bind_cases Hk; [|eapply put_inv; eauto].
    pose proof (put_inv _ _ _ _ Hs1 Hm0) as Hs2.
    bind_cases Hk0; [|eapply Hptr; eauto].
    pose proof (Hptr _ _ _ _ _ Hs2 Hm1) as Hs3.
    bind_cases Hk.
    + injection Hk0 as <- _.
      eapply (I_register_shared s); eauto.
      destruct (negb (bool_decide (a = get sp))).
      * eapply put_inv; eauto.
      * injection Hm2 as <- _. exact Hs3.
    + destruct (negb (bool_decide (a = get sp))).
      * eapply put_inv; eauto.
      * discriminate.
Qed.

Lemma write_value_inv fuel v s s' r :
  I s -> write_value E fuel v s = (s', r) -> I s'.
Proof.
  revert v s s' r. induction fuel as [|f IH]; intros v s s' r Hs H.
  - injection H as <- _. exact Hs.
  - assert (Hobj : forall T' p' s s' r,
               I s -> write_obj E (write_value E f) T' p' s = (s', r) -> I s').
    { intros T' p' s1 s2 r' Hs1 H1. unfold write_obj in H1.
      eapply archive_all_inv; [|exact Hs1|exact H1]. intros; eapply IH; eauto. }
    destruct v as [t|T p|T sp]; cbn [write_value] in H.
    + eapply put_inv; eauto.
    + eapply write_ptr_inv; eauto.
    + eapply write_shared_inv; [|exact Hs|exact H].
      intros T' p' s1 s2 r' Hs1 H1. eapply write_ptr_inv; eauto.
Qed.

End WriteInvariant.

(** **** Invariants of a read pass

    A property that survives taking a primitive from the source, the
    two [push_back]s and any change of the free store survives any
    archive call of a read pass. *)
Section ReadInvariant.

Variable E : Env.
Variable I : Archive -> Prop.

Hypothesis I_stream : forall s ts, I s -> I (set_stream ts s).
Hypothesis I_heap : forall s h, I s -> I (set_heap h s).
Hypothesis I_push_ptr : forall s p, I s -> I (push_ptr p s).
Hypothesis I_push_shared : forall s sp, I s -> I (push_shared sp s).

Lemma next_token_inv s s' r : I s -> next_token s = (s', r) -> I s'.
Proof.
  unfold next_token. destruct (stream s) as [|t ts]; intros Hs [= <- _]; auto.
Qed.

Lemma get_int_inv s s' r : I s -> get_int s = (s', r) -> I s'.
Proof.
  unfold get_int. intros Hs H. bind_cases H; [|eapply next_token_inv; eauto].
  pose proof (next_token_inv _ _ _ Hs Hm).
  destruct a; injection Hk as <- _; assumption.
Qed.

Lemma get_bool_inv s s' r : I s -> get_bool s = (s', r) -> I s'.
Proof.
  unfold get_bool. intros Hs H. bind_cases H; [|eapply next_token_inv; eauto].
  pose proof (next_token_inv _ _ _ Hs Hm).
  destruct a; injection Hk as <- _; assumption.
Qed.

Lemma get_string_inv s s' r : I s -> get_string s = (s', r) -> I s'.
Proof.
  unfold get_string. intros Hs H. bind_cases H; [|eapply next_token_inv; eauto].
  pose proof (next_token_inv _ _ _ Hs Hm).
  destruct a; injection Hk as <- _; assumption.
Qed.

Lemma get_prim_inv k s s' r : I s -> get_prim k s = (s', r) -> I s'.
Proof.
  unfold get_prim. intros Hs H. bind_cases H; [|eapply next_token_inv; eauto].
  pose proof (next_token_inv _ _ _ Hs Hm).
  destruct (prim_kind_eqb (kind_of a) k); injection Hk as <- _; assumption.
Qed.

Lemma index_state {A} (v : list A) nr s s' (r : result A) :
  index v nr s = (s', r) -> s' = s.
Proof.
  unfold index. case_decide; [destruct (v !! Z.to_nat nr)|]; now intros [= <- _].
Qed.

Lemma constructIfPossible_inv T s s' r :
  I s -> constructIfPossible E T s = (s', r) -> I s'.
Proof.
  unfold constructIfPossible, new_object, throw.
  destruct (is_constructible E T); intros Hs [= <- _]; auto.
Qed.

Lemma call_creator_inv info T s s' r :
  I s -> call_creator info T s = (s', r) -> I s'.
Proof.
  unfold call_creator. destruct (creator info T (heap s)) as [h r0].
  intros Hs [= <- _]. auto.
Qed.

Lemma make_shared_from_inv p s s' r :
  I s -> make_shared_from p s = (s', r) -> I s'.
Proof. unfold make_shared_from. intros Hs [= <- _]. auto. Qed.

Lemma read_all_inv {K A} (rd : K -> M A) (ks : list K) :
  (forall k s s' r, I s -> rd k s = (s', r) -> I s') ->
  forall s s' r, I s -> read_all rd ks s = (s', r) -> I s'.
Proof.
  intros Hrd. induction ks as [|k ks IH]; intros s s' r Hs H.
  - injection H as <- _. exact Hs.
  - cbn [read_all] in H. bind_cases H; [|eapply Hrd; eauto].
    pose proof (Hrd _ _ _ _ Hs Hm) as Hs1.
    bind_cases Hk; [|eapply IH; eauto].
    injection Hk0 as <- _. eapply IH; eauto.
Qed.

Lemma read_obj_inv (rec : field_type -> M value) T name p :
  (forall t s s' r, I s -> rec t s = (s', r) -> I s') ->
  forall s s' r, I s -> read_obj E rec T name p s = (s', r) -> I s'.
Proof.
  intros Hrec s s' r Hs H. unfold read_obj in H.
  bind_cases H; [|eapply read_all_inv; eauto].
  unfold store_object, modify in Hk. injection Hk as <- _.
  apply I_heap. eapply read_all_inv; eauto.
Qed.

(** Walk back from the final state along the steps of the run. *)
Ltac read_back Hsub :=
  repeat match goal with
         | H : index _ _ _ = (_, _) |- _ => apply index_state in H; subst
         end;
  repeat first
    [ assumption
    | apply I_stream | apply I_heap | apply I_push_ptr | apply I_push_shared
    | match goal with
      | H : get_int _ = (?s', _) |- _ ?s' => eapply get_int_inv; [|exact H]
      | H : get_bool _ = (?s', _) |- _ ?s' => eapply get_bool_inv; [|exact H]
      | H : get_string _ = (?s', _) |- _ ?s' => eapply get_string_inv; [|exact H]
      | H : constructIfPossible _ _ _ = (?s', _) |- _ ?s' =>
          eapply constructIfPossible_inv; [|exact H]
      | H : call_creator _ _ _ = (?s', _) |- _ ?s' => eapply call_creator_inv; [|exact H]
      | H : make_shared_from _ _ = (?s', _) |- _ ?s' =>
          eapply make_shared_from_inv; [|exact H]
      | H : _ = (?s', _) |- _ ?s' => eapply Hsub; [|exact H]
      end ].

Lemma read_ptr_inv (robj : string -> string -> addr -> M unit) T :
  (forall T' name p s s' r, I s -> robj T' name p s = (s', r) -> I s') ->
  forall s s' r, I s -> read_ptr E robj T s = (s', r) -> I s'.
Proof.
  intros Hobj s s' r Hs H. unfold read_ptr in H.
  run_cases; read_back Hobj.
Qed.

Lemma read_shared_inv (rptr : M addr) T :
  (forall s s' r, I s -> rptr s = (s', r) -> I s') ->
  forall s s' r, I s -> read_shared E rptr T s = (s', r) -> I s'.
Proof.
  intros Hptr s s' r Hs H. unfold read_shared in H.
  run_cases; read_back Hptr.
Qed.

Lemma read_value_inv fuel t s s' r :
  I s -> read_value E fuel t s = (s', r) -> I s'.
Proof.
  revert t s s' r. induction fuel as [|f IH]; intros t s s' r Hs H.
  - injection H as <- _. exact Hs.
  - assert (Hptr : forall T s s' r,
               I s -> read_ptr E (read_obj E (read_value E f)) T s = (s', r) -> I s').
    { intros T. apply read_ptr_inv. intros T' name p. apply read_obj_inv. exact IH. }
    destruct t as [k|T|T]; cbn [read_value] in H.
    + bind_cases H; [|eapply get_prim_inv; eauto].
      injection Hk as <- _. eapply get_prim_inv; eauto.
    + bind_cases H; [|eapply Hptr; eauto].
      injection Hk as <- _. eapply Hptr; eauto.
    + bind_cases H; [|eapply read_shared_inv; eauto].
      injection Hk as <- _. eapply read_shared_inv; eauto.
Qed.

End ReadInvariant.

(** Slot numbers are handed out from 0 upwards: every entry of the two
    forward tables lies below its counter. *)
Definition slots_ok (s : Archive) : Prop :=
  0 <= ptr_count s /\ 0 <= shared_ptr_count s /\
  (forall a n, ptr2nr s !! a = Some n -> 0 <= n < ptr_count s) /\
  (forall a n, shared_ptr2nr s !! a = Some n -> 0 <= n < shared_ptr_count s).

(** What a call has added to the sink. *)
Definition written (s s' : Archive) : list token :=
  drop (length (stream s)) (stream s').

Lemma slots_ok_new out ts : slots_ok (new_archive out ts).
Proof.
  unfold slots_ok, new_archive. cbn. split; [lia|split; [lia|split]].
  all: intros a n H; now rewrite lookup_empty in H.
Qed.

Lemma write_value_slots_ok E fuel v s s' r :
  slots_ok s -> write_value E fuel v s = (s', r) -> slots_ok s'.
Proof.
  apply (write_value_inv E slots_ok).
  - intros s0 t H. exact H.
  - intros s0 reg (Hp & Hs & Hpt & Hst) Hnone. unfold slots_ok, register_ptr. cbn.
    split; [lia|split; [lia|split]]; intros a n Hl.
    + destruct (decide (reg = a)) as [->|Hne].
      * rewrite lookup_insert_eq in Hl. injection Hl as <-. lia.
      * rewrite lookup_insert_ne in Hl by exact Hne. apply Hpt in Hl. lia.
    + apply Hst in Hl. lia.
  - intros s1 s2 reg _ _ (Hp & Hs & Hpt & Hst). unfold slots_ok, register_shared. cbn.
    split; [lia|split; [lia|split]]; intros a n Hl.
    + apply Hpt in Hl. lia.
    + destruct (decide (reg = a)) as [->|Hne].
      * rewrite lookup_insert_eq in Hl. injection Hl as <-. lia.
      * rewrite lookup_insert_ne in Hl by exact Hne. apply Hst in Hl. lia.
Qed.

(** A write pass only appends to the sink. *)
Lemma write_value_appends E fuel v s s' r :
  write_value E fuel v s = (s', r) -> stream s' = stream s ++ written s s'.
Proof.
  intros H.
  assert (exists ts, stream s' = stream s ++ ts) as [ts Hts].
  { revert H. apply (write_value_inv E (fun x => exists ts, stream x = stream s ++ ts)).
    - intros s0 t [ts Hts]. exists (ts ++ [t]). cbn. rewrite Hts. now rewrite app_assoc.
    - intros s0 reg [ts Hts] _. exists ts. exact Hts.
    - intros s1 s2 reg _ _ [ts Hts]. exists ts. exact Hts.
    - exists []. now rewrite app_nil_r. }
  unfold written. rewrite Hts at 2. rewrite drop_app_length. exact Hts.
Qed.

(** ... and never touches the tables of a read pass or the free store. *)
Lemma write_value_read_side E fuel v s s' r :
  write_value E fuel v s = (s', r) ->
  is_output s' = is_output s /\ nr2ptr s' = nr2ptr s /\
  nr2shared_ptr s' = nr2shared_ptr s /\ heap s' = heap s.
Proof.
  apply (write_value_inv E (fun x =>
    is_output x = is_output s /\ nr2ptr x = nr2ptr s /\
    nr2shared_ptr x = nr2shared_ptr s /\ heap x = heap s)); auto.
Qed.

(** Once an address has its slot, the slot is never reassigned. *)
Lemma write_value_keeps_ptr_slot E fuel v s s' r reg nr :
  ptr2nr s !! reg = Some nr ->
  write_value E fuel v s = (s', r) -> ptr2nr s' !! reg = Some nr.
Proof.
  apply (write_value_inv E (fun x => ptr2nr x !! reg = Some nr)).
  - auto.
  - intros s0 reg' H Hnone. cbn. rewrite lookup_insert_ne; [exact H|congruence].
  - auto.
Qed.

Lemma write_value_keeps_shared_slot E fuel v s s' r reg nr :
  shared_ptr2nr s !! reg = Some nr ->
  write_value E fuel v s = (s', r) -> shared_ptr2nr s' !! reg = Some nr.
Proof.
  apply (write_value_inv E (fun x => shared_ptr2nr x !! reg = Some nr)).
  - auto.
  - auto.
  - intros s1 s2 reg' H1 Hnone H2. cbn. rewrite lookup_insert_ne; [exact H2|congruence].
Qed.

Lemma archive_all_keeps_shared_slot E fuel vs s s' r reg nr :
  shared_ptr2nr s !! reg = Some nr ->
  archive_all (write_value E fuel) vs s = (s', r) -> shared_ptr2nr s' !! reg = Some nr.
Proof.
  apply (archive_all_inv (fun x => shared_ptr2nr x !! reg = Some nr)).
  intros v s0 s1 r0. apply write_value_keeps_shared_slot.
Qed.

Lemma archive_all_slots_ok E fuel vs s s' r :
  slots_ok s -> archive_all (write_value E fuel) vs s = (s', r) -> slots_ok s'.
Proof.
  apply (archive_all_inv slots_ok). intros v s0 s1 r0. apply write_value_slots_ok.
Qed.

Lemma archive_all_extends E fuel vs s s' r :
  archive_all (write_value E fuel) vs s = (s', r) -> exists ts, stream s' = stream s ++ ts.
Proof.
  apply (archive_all_inv (fun x => exists ts, stream x = stream s ++ ts)).
  - intros v s0 s1 r0 [ts Hts] H. apply write_value_appends in H.
    exists (ts ++ written s0 s1). rewrite H, Hts. now rewrite app_assoc.
  - exists []. now rewrite app_nil_r.
Qed.

Lemma written_app s s' ts : stream s' = stream s ++ ts -> written s s' = ts.
Proof. intros H. unfold written. rewrite H. apply drop_app_length. Qed.

Lemma written_same s : written s s = [].
Proof. unfold written. apply drop_all. Qed.

(** Every state a write session can be left in has well formed tables. *)
Lemma write_session_slots_ok E fuel vs : slots_ok (fst (write_session E fuel vs)).
Proof.
  unfold write_session.
  destruct (archive_all (write_value E fuel) vs (new_archive true [])) as [s r] eqn:H.
  eapply archive_all_slots_ok; [|exact H]. apply slots_ok_new.
Qed.

(** **** A read pass over what a write pass produced

    The reading side of an environment agrees with its writing side
    when [DoArchive] reads the fields it writes, when a cast that the
    register can do for one object of a class it can do for all, and
    when casting up undoes casting down. *)
Record env_mirrors (E : Env) : Prop := {
  layout_mirrors : forall T p,
    DoArchive_in E T (typeid_of E T p) = map type_of (DoArchive_out E T p);
  casts_total : forall name T p q,
    downcaster (GetArchiveRegister E name) T p = Ok q ->
    (forall a, exists b, downcaster (GetArchiveRegister E name) T a = Ok b) /\
    (forall a, exists b, upcaster (GetArchiveRegister E name) T a = Ok b) /\
    (forall h, exists h' a, creator (GetArchiveRegister E name) T h = (h', Ok a));
  casts_inverse : forall name T a b,
    downcaster (GetArchiveRegister E name) T a = Ok b ->
    upcaster (GetArchiveRegister E name) T b = Ok a
}.

(** The reader has rebuilt as many slots as the writer has assigned. *)
Definition counts_match (W R : Archive) : Prop :=
  ptr_count W = Z.of_nat (length (nr2ptr R)) /\
  shared_ptr_count W = Z.of_nat (length (nr2shared_ptr R)).

(** [rd] mirrors [wr]: whenever [wr] returns, it has appended some
    tokens [ts] to the sink, and [rd], run by a reader that is level
    with the writer on a source that starts with [ts], returns, has
    consumed exactly [ts], and is level with the writer again. *)
Definition mirrors {A} (wr : M unit) (rd : M A) : Prop :=
  forall W W', wr W = (W', Ok tt) -> slots_ok W ->
    exists ts, stream W' = stream W ++ ts /\ slots_ok W' /\
      forall R rest, counts_match W R ->
        exists R' a, rd (set_stream (ts ++ rest) R) = (R', Ok a) /\
                     stream R' = rest /\ counts_match W' R'.

Lemma set_stream_id s ts : stream s = ts -> set_stream ts s = s.
Proof. intros <-. now destruct s. Qed.

Lemma set_stream_twice s ts ts' : set_stream ts (set_stream ts' s) = set_stream ts s.
Proof. reflexivity. Qed.

Lemma get_int_cons i ts s :
  get_int (set_stream (TokInt i :: ts) s) = (set_stream ts s, Ok i).
Proof. reflexivity. Qed.

Lemma get_bool_cons b ts s :
  get_bool (set_stream (TokBool b :: ts) s) = (set_stream ts s, Ok b).
Proof. reflexivity. Qed.

Lemma get_string_cons n ts s :
  get_string (set_stream (TokString n :: ts) s) = (set_stream ts s, Ok n).
Proof. reflexivity. Qed.

Lemma get_prim_cons t ts s :
  get_prim (kind_of t) (set_stream (t :: ts) s) = (set_stream ts s, Ok t).
Proof. unfold get_prim, next_token, bind. cbn. now destruct t. Qed.

Lemma put_run t s : put t s = (set_stream (stream s ++ [t]) s, Ok tt).
Proof. reflexivity. Qed.

Lemma bind_put {B} t (k : unit -> M B) s :
  bind (put t) k s = k tt (set_stream (stream s ++ [t]) s).
Proof. reflexivity. Qed.

Lemma bind_modify {B} f (k : unit -> M B) s : bind (modify f) k s = k tt (f s).
Proof. reflexivity. Qed.

Lemma bind_get_state {B} (k : Archive -> M B) s : bind get_state k s = k s s.
Proof. reflexivity. Qed.

Lemma bind_ret {A B} (a : A) (k : A -> M B) s : bind (ret a) k s = k a s.
Proof. reflexivity. Qed.

Lemma bind_lift_ok {A B} (a : A) (k : A -> M B) s : bind (lift (Ok a)) k s = k a s.
Proof. reflexivity. Qed.

Lemma bind_assoc {A B C} (m : M A) (k1 : A -> M B) (k2 : B -> M C) s :
  bind (bind m k1) k2 s = bind m (fun x => bind (k1 x) k2) s.
Proof. unfold bind. now destruct (m s) as [s1 [a|f]]. Qed.

Lemma get_string_after_heap n ts h s :
  stream s = TokString n :: ts ->
  get_string (set_heap h s) = (set_heap h (set_stream ts s), Ok n).
Proof. destruct s. cbn. now intros ->. Qed.

Lemma slots_ok_set_stream ts s : slots_ok s -> slots_ok (set_stream ts s).
Proof. auto. Qed.

Lemma counts_match_set_stream_l ts W R : counts_match W R -> counts_match (set_stream ts W) R.
Proof. auto. Qed.

Lemma counts_match_set_stream_r ts W R : counts_match W R -> counts_match W (set_stream ts R).
Proof. auto. Qed.

Lemma counts_match_set_heap h W R : counts_match W R -> counts_match W (set_heap h R).
Proof. auto. Qed.

Lemma counts_match_ptr reg p W R :
  counts_match W R -> counts_match (register_ptr reg W) (push_ptr p R).
Proof.
  intros [H1 H2]. unfold counts_match. cbn. rewrite length_app. cbn. split; lia.
Qed.

Lemma counts_match_shared reg sp W R :
  counts_match W R -> counts_match (register_shared reg W) (push_shared sp R).
Proof.
  intros [H1 H2]. unfold counts_match. cbn. rewrite length_app. cbn. split; lia.
Qed.

Lemma slots_ok_register_ptr reg s : slots_ok s -> slots_ok (register_ptr reg s).
Proof.
  intros (Hp & Hs & Hpt & Hst). unfold slots_ok, register_ptr. cbn.
  split; [lia|split; [lia|split]]; intros a n Hl.
  - destruct (decide (reg = a)) as [->|Hne].
    + rewrite lookup_insert_eq in Hl. injection Hl as <-. lia.
    + rewrite lookup_insert_ne in Hl by exact Hne. apply Hpt in Hl. lia.
  - apply Hst in Hl. lia.
Qed.

Lemma slots_ok_register_shared reg s : slots_ok s -> slots_ok (register_shared reg s).
Proof.
  intros (Hp & Hs & Hpt & Hst). unfold slots_ok, register_shared. cbn.
  split; [lia|split; [lia|split]]; intros a n Hl.
  - apply Hpt in Hl. lia.
  - destruct (decide (reg = a)) as [->|Hne].
    + rewrite lookup_insert_eq in Hl. injection Hl as <-. lia.
    + rewrite lookup_insert_ne in Hl by exact Hne. apply Hst in Hl. lia.
Qed.

Lemma mirrors_all {V K A} (w : V -> M unit) (r : K -> M A) (ty : V -> K) (vs : list V) :
  (forall v, mirrors (w v) (r (ty v))) ->
  mirrors (archive_all w vs) (read_all r (map ty vs)).
Proof.
  intros Hv. induction vs as [|v vs IH]; intros W W' Hw Hok.
  - injection Hw as <-. exists []. rewrite app_nil_r. split; [reflexivity|].
    split; [exact Hok|]. intros R rest Hc. eexists _, _. split; [reflexivity|].
    split; [reflexivity|]. exact Hc.
  - cbn [archive_all] in Hw. bind_cases Hw; [|discriminate]. destruct a.
    destruct (Hv v _ _ Hm Hok) as (ts1 & Hs1 & Hok1 & Hr1).
    destruct (IH _ _ Hk Hok1) as (ts2 & Hs2 & Hok2 & Hr2).
    exists (ts1 ++ ts2). split; [rewrite Hs2, Hs1; now rewrite app_assoc|].
    split; [exact Hok2|]. intros R rest Hc.
    destruct (Hr1 R (ts2 ++ rest) Hc) as (R1 & x & Hx & Hst1 & Hc1).
    destruct (Hr2 R1 rest Hc1) as (R2 & xs & Hxs & Hst2 & Hc2).
    rewrite (set_stream_id R1 _ Hst1) in Hxs.
    exists R2, (x :: xs). cbn [map read_all]. rewrite <- app_assoc.
    rewrite (bind_ok _ _ _ _ _ Hx), (bind_ok _ _ _ _ _ Hxs). auto.
Qed.

Lemma mirrors_obj E (wrec : value -> M unit) (rrec : field_type -> M value) T p q :
  env_mirrors E ->
  (forall v, mirrors (wrec v) (rrec (type_of v))) ->
  mirrors (write_obj E wrec T p) (read_obj E rrec T (typeid_of E T p) q).
Proof.
  intros HE Hv W W' Hw Hok. unfold write_obj in Hw.
  destruct (mirrors_all wrec rrec type_of _ Hv _ _ Hw Hok) as (ts & Hs & Hok' & Hr).
  exists ts. split; [exact Hs|]. split; [exact Hok'|]. intros R rest Hc.
  destruct (Hr R rest Hc) as (R1 & vs & Hvs & Hst & Hc1).
  unfold read_obj. rewrite (layout_mirrors E HE), (bind_ok _ _ _ _ _ Hvs).
  eexists _, _. split; [reflexivity|]. split; [exact Hst|]. exact Hc1.
Qed.

Lemma index_in_range {A} (v : list A) nr s :
  0 <= nr < Z.of_nat (length v) ->
  exists x, v !! Z.to_nat nr = Some x /\ index v nr s = (s, Ok x).
Proof.
  intros Hnr. destruct (lookup_lt_is_Some_2 v (Z.to_nat nr)) as [x Hx]; [lia|].
  exists x. split; [exact Hx|]. unfold index. rewrite decide_True by lia. now rewrite Hx.
Qed.

(** A downcast that moved the pointer went through the register. *)
Lemma reg_ptr_of_moved E T p reg :
  reg_ptr_of E T p = Ok reg -> reg <> p ->
  downcaster (GetArchiveRegister E (typeid_of E T p)) T p = Ok reg.
Proof.
  unfold reg_ptr_of. case_decide; [|congruence].
  destruct (negb (IsRegistered E (typeid_of E T p))); [discriminate|auto].
Qed.

Lemma reg_ptr_of_other_type E T p reg :
  reg_ptr_of E T p = Ok reg -> typeid_of E T p <> T ->
  downcaster (GetArchiveRegister E (typeid_of E T p)) T p = Ok reg.
Proof.
  unfold reg_ptr_of. case_decide; [|congruence].
  destruct (negb (IsRegistered E (typeid_of E T p))); [discriminate|auto].
Qed.

Lemma mirrors_ptr E (wobj : string -> addr -> M unit)
    (robj : string -> string -> addr -> M unit) T p :
  env_mirrors E ->
  (forall T' p' q, mirrors (wobj T' p') (robj T' (typeid_of E T' p') q)) ->
  mirrors (write_ptr E wobj T p) (read_ptr E robj T).
Proof.
  intros HE Hobj W W' Hw Hok. unfold write_ptr in Hw.
  case_decide as Hp.
  { (* null *)
    rewrite put_run in Hw. injection Hw as <-.
    exists [TokInt (-2)]. split; [reflexivity|]. split; [exact Hok|].
    intros R rest Hc. exists (set_stream rest R), nullptr.
    split; [reflexivity|]. split; [reflexivity|exact Hc]. }
  unfold canonical in Hw.
  destruct (reg_ptr_of E T p) as [reg|f] eqn:Hreg; [|discriminate].
  rewrite bind_lift_ok, bind_get_state in Hw.
  destruct (ptr2nr W !! reg) as [nr|] eqn:Hl.
  { (* a seen address *)
    rewrite !bind_put, put_run in Hw. injection Hw as <-.
    eexists [TokInt nr; TokBool _; TokString _].
    split; [cbn; now rewrite <- !app_assoc|]. split; [exact Hok|].
    intros R rest Hc.
    assert (Hnr : 0 <= nr < Z.of_nat (length (nr2ptr R))).
    { destruct Hok as (_ & _ & Hpt & _). apply Hpt in Hl. destruct Hc as [<- _]. exact Hl. }
    unfold read_ptr. cbn [app]. rewrite (bind_ok _ _ _ _ _ (get_int_cons _ _ _)).
    rewrite !decide_False by lia.
    rewrite (bind_ok _ _ _ _ _ (get_bool_cons _ _ _)).
    rewrite (bind_ok _ _ _ _ _ (get_string_cons _ _ _)).
    destruct (index_in_range (nr2ptr R) nr (set_stream rest R) Hnr) as (q & _ & Hq).
    destruct (bool_decide (reg = p)) eqn:Hd; cbn [negb]; rewrite bind_get_state;
      change (nr2ptr (set_stream rest R)) with (nr2ptr R).
    - exists (set_stream rest R), q. split; [exact Hq|]. split; [reflexivity|exact Hc].
    - apply bool_decide_eq_false in Hd.
      pose proof (reg_ptr_of_moved _ _ _ _ Hreg Hd) as Hdown.
      destruct (casts_total E HE _ _ _ _ Hdown) as (_ & Hup & _).
      destruct (Hup q) as [b Hb].
      rewrite (bind_ok _ _ _ _ _ Hq). unfold lift. rewrite Hb.
      exists (set_stream rest R), b. split; [reflexivity|]. split; [reflexivity|exact Hc]. }
  (* a new address *)
  rewrite bind_modify in Hw.
  pose proof (slots_ok_register_ptr reg W Hok) as Hok1.
  case_decide as Hty.
  - destruct (is_constructible E T) eqn:Hcons; [|discriminate].
    rewrite bind_put in Hw.
    pose proof (slots_ok_set_stream (stream (register_ptr reg W) ++ [TokInt (-1)]) _ Hok1)
      as Hok2.
    destruct (Hobj T p 0 _ _ Hw Hok2) as (ts & Hs & Hok' & _).
    exists (TokInt (-1) :: ts). split; [rewrite Hs; cbn; now rewrite <- app_assoc|].
    split; [exact Hok'|]. intros R rest Hc.
    unfold read_ptr. cbn [app]. rewrite (bind_ok _ _ _ _ _ (get_int_cons _ _ _)).
    rewrite decide_False by lia. rewrite decide_True by reflexivity.
    unfold constructIfPossible. rewrite Hcons. unfold new_object, bind at 1.
    rewrite bind_modify.
    set (q := next_object (heap (set_stream (ts ++ rest) R))).
    destruct (Hobj T p q _ _ Hw Hok2) as (ts' & Hs' & _ & Hr).
    assert (ts' = ts) as -> by (rewrite Hs in Hs'; now apply app_inv_head in Hs').
    match goal with |- context [push_ptr q ?R0] => set (R1 := push_ptr q R0) end.
    assert (Hc1 : counts_match (set_stream (stream (register_ptr reg W) ++ [TokInt (-1)])
                                  (register_ptr reg W)) R1).
    { apply counts_match_set_stream_l. subst R1. apply counts_match_ptr.
      apply counts_match_set_heap, counts_match_set_stream_r, Hc. }
    destruct (Hr R1 rest Hc1) as (R2 & [] & Hrd & Hst & Hc2).
    rewrite Hty in Hrd.
    assert (HR1 : set_stream (ts ++ rest) R1 = R1) by (apply set_stream_id; reflexivity).
    rewrite HR1 in Hrd. rewrite (bind_ok _ _ _ _ _ Hrd).
    exists R2, q. split; [reflexivity|]. split; [exact Hst|exact Hc2].
  - destruct (negb (IsRegistered E (typeid_of E T p))) eqn:Hir; [discriminate|].
    rewrite !bind_put in Hw. cbn [stream set_stream] in Hw.
    set (name := typeid_of E T p) in *.
    set (W1 := set_stream ((stream (register_ptr reg W) ++ [TokInt (-3)]) ++ [TokString name])
                 (set_stream (stream (register_ptr reg W) ++ [TokInt (-3)])
                    (register_ptr reg W))) in *.
    assert (Hok2 : slots_ok W1) by (subst W1; auto using slots_ok_set_stream).
    destruct (Hobj T p 0 _ _ Hw Hok2) as (ts & Hs & Hok' & _).
    exists (TokInt (-3) :: TokString name :: ts).
    split; [rewrite Hs; subst W1; cbn; now rewrite <- !app_assoc|].
    split; [exact Hok'|]. intros R rest Hc.
    assert (Hdown : downcaster (GetArchiveRegister E name) T p = Ok reg).
    { subst name. apply reg_ptr_of_other_type; [exact Hreg|exact Hty]. }
    destruct (casts_total E HE _ _ _ _ Hdown) as (Hdn & _ & Hcr).
    unfold read_ptr. cbn [app]. rewrite (bind_ok _ _ _ _ _ (get_int_cons _ _ _)).
    rewrite !decide_False by lia. rewrite decide_True by reflexivity.
    rewrite (bind_ok _ _ _ _ _ (get_string_cons _ _ _)).
    destruct (Hcr (heap (set_stream (ts ++ rest) R))) as (h' & q & Hq).
    unfold call_creator, bind at 1. rewrite Hq.
    destruct (Hdn q) as [b Hb]. rewrite Hb, bind_lift_ok, bind_modify.
    destruct (Hobj T p q _ _ Hw Hok2) as (ts' & Hs' & _ & Hr).
    assert (ts' = ts) as -> by (rewrite Hs in Hs'; now apply app_inv_head in Hs').
    match goal with |- context [push_ptr b ?R0] => set (R1 := push_ptr b R0) end.
    assert (Hc1 : counts_match W1 R1).
    { subst W1 R1. do 2 apply counts_match_set_stream_l. apply counts_match_ptr.
      apply counts_match_set_heap, counts_match_set_stream_r, Hc. }
    destruct (Hr R1 rest Hc1) as (R2 & [] & Hrd & Hst & Hc2).
    assert (HR1 : set_stream (ts ++ rest) R1 = R1) by (apply set_stream_id; reflexivity).
    rewrite HR1 in Hrd. fold name in Hrd. rewrite (bind_ok _ _ _ _ _ Hrd).
    exists R2, q. split; [reflexivity|]. split; [exact Hst|exact Hc2].
Qed.

(** How the handle [a] that a read returns for the written handle [sp]
    hangs on the table entry [e] of its canonical address [reg]: they
    share the control block, and [a] holds the address of [e], cast up
    again if the writer had to cast down. *)
Definition shared_link (E : Env) (T : string) (sp : shared_ptr) (reg : addr)
    (W' R' : Archive) (a : shared_ptr) : Prop :=
  exists nr e,
    shared_ptr2nr W' !! reg = Some nr /\
    nr2shared_ptr R' !! Z.to_nat nr = Some e /\
    owner e = owner a /\
    if bool_decide (reg = get sp) then get e = get a
    else upcaster (GetArchiveRegister E (typeid_of E T (get sp))) T (get e) = Ok (get a).

Lemma mirrors_shared_link E (wptr : string -> addr -> M unit) (rptr : M addr) T sp :
  env_mirrors E ->
  mirrors (wptr T (get sp)) rptr ->
  forall W W', write_shared E wptr T sp W = (W', Ok tt) -> slots_ok W ->
    exists ts, stream W' = stream W ++ ts /\ slots_ok W' /\
      forall R rest, counts_match W R ->
        exists R' a, read_shared E rptr T (set_stream (ts ++ rest) R) = (R', Ok a) /\
                     stream R' = rest /\ counts_match W' R' /\
                     forall reg, get sp <> nullptr -> reg_ptr_of E T (get sp) = Ok reg ->
                                 shared_link E T sp reg W' R' a.
Proof.
  intros HE Hptr W W' Hw Hok. unfold write_shared in Hw.
  case_decide as Hp.
  { rewrite put_run in Hw. injection Hw as <-.
    exists [TokInt (-2)]. split; [reflexivity|]. split; [exact Hok|].
    intros R rest Hc. exists (set_stream rest R), null_shared.
    split; [reflexivity|]. split; [reflexivity|]. split; [exact Hc|]. intros; contradiction. }
  unfold canonical in Hw.
  destruct (reg_ptr_of E T (get sp)) as [reg|f] eqn:Hreg; [|discriminate].
  rewrite bind_lift_ok, bind_get_state in Hw.
  set (name := typeid_of E T (get sp)) in *.
  assert (Hcast : bool_decide (reg = get sp) = false ->
                  downcaster (GetArchiveRegister E name) T (get sp) = Ok reg).
  { intros Hd. apply bool_decide_eq_false in Hd. now apply reg_ptr_of_moved. }
  destruct (shared_ptr2nr W !! reg) as [nr|] eqn:Hl.
  { (* a seen handle *)
    rewrite !bind_put in Hw.
    assert (Hnr : forall R, counts_match W R -> 0 <= nr < Z.of_nat (length (nr2shared_ptr R))).
    { intros R Hc. destruct Hok as (_ & _ & _ & Hst). apply Hst in Hl.
      destruct Hc as [_ <-]. exact Hl. }
    destruct (bool_decide (reg = get sp)) eqn:Hd; cbn [negb] in Hw.
    - injection Hw as <-. exists [TokInt nr; TokBool false].
      split; [cbn; now rewrite <- !app_assoc|]. split; [exact Hok|].
      intros R rest Hc. specialize (Hnr R Hc).
      unfold read_shared. cbn [app]. rewrite (bind_ok _ _ _ _ _ (get_int_cons _ _ _)).
      rewrite !decide_False by lia. rewrite bind_get_state.
      change (nr2shared_ptr (set_stream (TokBool false :: rest) R)) with (nr2shared_ptr R).
      destruct (index_in_range (nr2shared_ptr R) nr
                  (set_stream (TokBool false :: rest) R) Hnr) as (other & Hother & Ho).
      rewrite (bind_ok _ _ _ _ _ Ho), (bind_ok _ _ _ _ _ (get_bool_cons _ _ _)).
      eexists _, _. split; [reflexivity|]. split; [reflexivity|]. split; [exact Hc|].
      intros reg' _ [= <-]. exists nr, other. rewrite Hd. auto.
    - rewrite put_run in Hw. injection Hw as <-.
      exists [TokInt nr; TokBool true; TokString name].
      split; [cbn; now rewrite <- !app_assoc|]. split; [exact Hok|].
      intros R rest Hc. specialize (Hnr R Hc).
      destruct (casts_total E HE _ _ _ _ (Hcast eq_refl)) as (_ & Hup & _).
      unfold read_shared. cbn [app]. rewrite (bind_ok _ _ _ _ _ (get_int_cons _ _ _)).
      rewrite !decide_False by lia. rewrite bind_get_state.
      change (nr2shared_ptr (set_stream (TokBool true :: TokString name :: rest) R))
        with (nr2shared_ptr R).
      destruct (index_in_range (nr2shared_ptr R) nr
                  (set_stream (TokBool true :: TokString name :: rest) R) Hnr)
        as (other & Hother & Ho).
      rewrite (bind_ok _ _ _ _ _ Ho), (bind_ok _ _ _ _ _ (get_bool_cons _ _ _)).
      rewrite (bind_ok _ _ _ _ _ (get_string_cons _ _ _)).
      destruct (Hup (get other)) as [b Hb]. rewrite Hb, bind_lift_ok.
      eexists _, _. split; [reflexivity|]. split; [reflexivity|]. split; [exact Hc|].
      intros reg' _ [= <-]. exists nr, other. rewrite Hd. auto. }
  (* a new handle *)
  rewrite !bind_put in Hw. cbn [stream set_stream] in Hw.
  bind_cases Hw; [|discriminate]. destruct a.
  match type of Hm with wptr _ _ ?W0 = _ => set (W1 := W0) in * end.
  assert (Hok1 : slots_ok W1) by (subst W1; auto using slots_ok_set_stream).
  destruct (Hptr _ _ Hm Hok1) as (ts & Hs & Hok2 & Hr).
  assert (Hread : forall R rest, counts_match W R ->
            exists R1 q, counts_match s R1 /\ stream R1 = rest /\
                read_shared E rptr T
                  (set_stream (TokInt (-1) :: TokBool (negb (bool_decide (reg = get sp)))
                               :: ts ++ rest) R)
                = bind (make_shared_from q) (fun ptr =>
                    bind (if negb (bool_decide (reg = get sp))
                          then bind get_string (fun name =>
                                 let info := GetArchiveRegister E name in
                                 bind (lift (downcaster info T (get ptr)))
                                   (fun q => modify (push_shared (alias (static_pointer_cast ptr) q))))
                          else modify (push_shared ptr))
                      (fun _ => ret ptr)) R1).
  { intros R rest Hc.
    destruct (Hr (set_stream [] R) rest) as (R1 & q & Hq & Hst & Hc1).
    { subst W1. do 2 apply counts_match_set_stream_l.
      apply counts_match_set_stream_r, Hc. }
    exists R1, q. split; [exact Hc1|]. split; [exact Hst|].
    unfold read_shared. rewrite (bind_ok _ _ _ _ _ (get_int_cons _ _ _)).
    rewrite decide_False by lia. rewrite decide_True by reflexivity.
    rewrite (bind_ok _ _ _ _ _ (get_bool_cons _ _ _)).
    rewrite set_stream_twice in Hq. rewrite (bind_ok _ _ _ _ _ Hq). reflexivity. }
  assert (Hlast : forall (R1 : Archive) (e : shared_ptr) (l : list shared_ptr),
             counts_match s R1 -> l = nr2shared_ptr R1 ++ [e] ->
             l !! Z.to_nat (shared_ptr_count s) = Some e).
  { intros R1 e l [_ Hc] ->. rewrite Hc, Nat2Z.id. apply list_lookup_middle. reflexivity. }
  destruct (bool_decide (reg = get sp)) eqn:Hd; cbn [negb] in *.
  - rewrite bind_ret in Hk. unfold modify in Hk. injection Hk as <-.
    exists (TokInt (-1) :: TokBool false :: ts).
    split; [cbn; rewrite Hs; subst W1; cbn; now rewrite <- !app_assoc|].
    split; [now apply slots_ok_register_shared|].
    intros R rest Hc. destruct (Hread R rest Hc) as (R1 & q & Hc1 & Hst & Hrd).
    cbn [app]. rewrite Hrd.
    eexists _, _. split; [reflexivity|]. split; [exact Hst|].
    split; [apply counts_match_shared, counts_match_set_heap, Hc1|].
    intros reg' _ [= <-]. eexists _, _. rewrite Hd.
    split; [apply lookup_insert_eq|]. split; [eapply Hlast; [exact Hc1|reflexivity]|].
    split; reflexivity.
  - rewrite bind_put in Hk. unfold modify in Hk. injection Hk as <-.
    exists (TokInt (-1) :: TokBool true :: ts ++ [TokString name]).
    split; [cbn; rewrite Hs; subst W1; cbn; now rewrite <- !app_assoc|].
    split; [now apply slots_ok_register_shared, slots_ok_set_stream|].
    intros R rest Hc.
    destruct (Hread R (TokString name :: rest) Hc) as (R1 & q & Hc1 & Hst & Hrd).
    cbn [app]. rewrite <- app_assoc. cbn [app]. rewrite Hrd.
    destruct (casts_total E HE _ _ _ _ (Hcast eq_refl)) as (Hdn & _ & _).
    destruct (Hdn q) as [b Hb].
    unfold make_shared_from, bind at 1. cbn [get].
    rewrite bind_assoc, (bind_ok _ _ _ _ _ (get_string_after_heap _ _ _ _ Hst)).
    cbn zeta. rewrite Hb, bind_assoc, bind_lift_ok, bind_modify.
    eexists _, _. split; [reflexivity|]. split; [reflexivity|].
    split.
    { apply counts_match_shared. apply counts_match_set_stream_l.
      apply counts_match_set_heap, counts_match_set_stream_r, Hc1. }
    intros reg' _ [= <-]. eexists _, _. rewrite Hd.
    split; [apply lookup_insert_eq|]. split; [eapply Hlast; [exact Hc1|reflexivity]|].
    split; [reflexivity|]. cbn [get alias]. now apply (casts_inverse E HE).
Qed.

Lemma mirrors_shared E (wptr : string -> addr -> M unit) (rptr : M addr) T sp :
  env_mirrors E ->
  mirrors (wptr T (get sp)) rptr ->
  mirrors (write_shared E wptr T sp) (read_shared E rptr T).
Proof.
  intros HE Hptr W W' Hw Hok.
  destruct (mirrors_shared_link E wptr rptr T sp HE Hptr W W' Hw Hok)
    as (ts & Hs & Hok' & Hr).
  exists ts. split; [exact Hs|]. split; [exact Hok'|]. intros R rest Hc.
  destruct (Hr R rest Hc) as (R' & a & Ha & Hst & Hc' & _). eauto.
Qed.

Lemma mirrors_map {A B} (wr : M unit) (rd : M A) (g : A -> B) :
  mirrors wr rd -> mirrors wr (bind rd (fun a => ret (g a))).
Proof.
  intros H W W' Hw Hok. destruct (H W W' Hw Hok) as (ts & Hs & Hok' & Hr).
  exists ts. split; [exact Hs|]. split; [exact Hok'|]. intros R rest Hc.
  destruct (Hr R rest Hc) as (R' & a & Ha & Hst & Hc').
  exists R', (g a). rewrite (bind_ok _ _ _ _ _ Ha). auto.
Qed.

(** Reading, with the same bound, what [write_value] has written
    succeeds and consumes exactly what was written. *)
Lemma mirrors_value E fuel v :
  env_mirrors E -> mirrors (write_value E fuel v) (read_value E fuel (type_of v)).
Proof.
  intros HE. revert v. induction fuel as [|f IH]; intros v.
  - intros W W' Hw. discriminate.
  - assert (Hobj : forall T p q,
               mirrors (write_obj E (write_value E f) T p)
                       (read_obj E (read_value E f) T (typeid_of E T p) q)).
    { intros T p q. now apply mirrors_obj. }
    destruct v as [t|T p|T sp]; cbn [write_value read_value type_of].
    + intros W W' Hw Hok. rewrite put_run in Hw. injection Hw as <-.
      exists [t]. split; [reflexivity|]. split; [exact Hok|]. intros R rest Hc.
      cbn [app]. rewrite (bind_ok _ _ _ _ _ (get_prim_cons _ _ _)).
      eexists _, _. split; [reflexivity|]. split; [reflexivity|exact Hc].
    + apply mirrors_map. now apply mirrors_ptr.
    + apply mirrors_map. apply mirrors_shared; [exact HE|]. now apply mirrors_ptr.
Qed.

Lemma mirrors_values E fuel vs :
  env_mirrors E ->
  mirrors (archive_all (write_value E fuel) vs)
          (read_all (read_value E fuel) (map type_of vs)).
Proof. intros HE. apply mirrors_all. intros v. now apply mirrors_value. Qed.

Lemma counts_match_new ts ts' : counts_match (new_archive true ts) (new_archive false ts').
Proof. split; reflexivity. Qed.

(** A whole read session over the output of a whole write session. *)
Lemma read_session_succeeds E fuel vs W :
  env_mirrors E ->
  write_session E fuel vs = (W, Ok tt) ->
  exists R vs', read_session E fuel (map type_of vs) (stream W) = (R, Ok vs') /\
                stream R = [] /\ counts_match W R.
Proof.
  intros HE Hw. unfold write_session in Hw.
  destruct (mirrors_values E fuel vs HE _ _ Hw (slots_ok_new _ _)) as (ts & Hs & _ & Hr).
  destruct (Hr (new_archive false []) [] (counts_match_new _ _)) as (R & vs' & Hrd & Hst & Hc).
  exists R, vs'. unfold read_session. cbn in Hs. rewrite Hs.
  rewrite app_nil_r in Hrd. auto.
Qed.

Lemma archive_all_app {A} (w : A -> M unit) (xs ys : list A) s :
  archive_all w (xs ++ ys) s = bind (archive_all w xs) (fun _ => archive_all w ys) s.
Proof.
  revert s. induction xs as [|x xs IH]; intros s; [reflexivity|].
  cbn [app archive_all]. rewrite bind_assoc.
  destruct (w x s) as [s1 [[]|f]] eqn:Hx.
  - rewrite !(bind_ok _ _ _ _ _ Hx). apply IH.
  - now rewrite !(bind_fault _ _ _ _ _ Hx).
Qed.

(** The slots a read pass has rebuilt stay where they are. *)
Lemma read_value_keeps_shared E fuel t s s' r :
  read_value E fuel t s = (s', r) -> nr2shared_ptr s `prefix_of` nr2shared_ptr s'.
Proof.
  intros H. revert H.
  apply (read_value_inv E (fun x => nr2shared_ptr s `prefix_of` nr2shared_ptr x)); auto.
  intros s0 sp H. cbn. now apply prefix_app_r.
Qed.

Lemma read_all_keeps_shared E fuel ts s s' r :
  read_all (read_value E fuel) ts s = (s', r) ->
  nr2shared_ptr s `prefix_of` nr2shared_ptr s'.
Proof.
  intros H. revert H.
  apply (read_all_inv (fun x => nr2shared_ptr s `prefix_of` nr2shared_ptr x)
           (read_value E fuel) ts); [|reflexivity].
  intros t s0 s1 r0 Hp H. etrans; [exact Hp|]. eapply read_value_keeps_shared, H.
Qed.

Lemma read_all_length {K A} (rd : K -> M A) ks s s' xs :
  read_all rd ks s = (s', Ok xs) -> length xs = length ks.
Proof.
  revert s xs. induction ks as [|k ks IH]; intros s xs H.
  - now injection H as _ <-.
  - cbn [read_all] in H. run_cases. cbn. f_equal. eapply IH. eassumption.
Qed.

(** What the writer does with a handle whose canonical address has a
    slot: slot number, flag, and the type name if the flag is set. *)
Definition seen_shared_record (E : Env) (T : string) (sp : shared_ptr) (reg : addr) (nr : Z)
  : list token :=
  [TokInt nr; TokBool (negb (bool_decide (reg = get sp)))] ++
  (if negb (bool_decide (reg = get sp))
   then [TokString (typeid_of E T (get sp))] else []).

Lemma write_shared_seen E fuel T sp reg nr s :
  get sp <> nullptr ->
  reg_ptr_of E T (get sp) = Ok reg ->
  shared_ptr2nr s !! reg = Some nr ->
  write_value E (S fuel) (VShared T sp) s
    = (set_stream (stream s ++ seen_shared_record E T sp reg nr) s, Ok tt).
Proof.
  intros Hp Hreg Hl. cbn [write_value]. unfold write_shared, seen_shared_record.
  rewrite decide_False by exact Hp. unfold canonical. rewrite Hreg.
  rewrite bind_lift_ok, bind_get_state, Hl, !bind_put.
  destruct (negb (bool_decide (reg = get sp))).
  - rewrite put_run. cbn. now rewrite <- !app_assoc.
  - cbn. now rewrite <- !app_assoc.
Qed.

(** One shared handle, written and read back, with its table entry. *)
Lemma shared_value_link E fuel T sp W W' :
  env_mirrors E ->
  write_value E fuel (VShared T sp) W = (W', Ok tt) -> slots_ok W ->
  exists ts, stream W' = stream W ++ ts /\ slots_ok W' /\
    forall R rest, counts_match W R ->
      exists R' h, read_value E fuel (FShared T) (set_stream (ts ++ rest) R)
                     = (R', Ok (VShared T h)) /\
                   stream R' = rest /\ counts_match W' R' /\
                   forall reg, get sp <> nullptr -> reg_ptr_of E T (get sp) = Ok reg ->
                               shared_link E T sp reg W' R' h.
Proof.
  intros HE Hw Hok. destruct fuel as [|f]; [discriminate|].
  cbn [write_value] in Hw.
  assert (Hptr : mirrors (write_ptr E (write_obj E (write_value E f)) T (get sp))
                         (read_ptr E (read_obj E (read_value E f)) T)).
  { apply mirrors_ptr; [exact HE|]. intros T' p' q. apply mirrors_obj; [exact HE|].
    intros v. now apply mirrors_value. }
  destruct (mirrors_shared_link E _ _ T sp HE Hptr W W' Hw Hok) as (ts & Hs & Hok' & Hr).
  exists ts. split; [exact Hs|]. split; [exact Hok'|]. intros R rest Hc.
  destruct (Hr R rest Hc) as (R' & h & Hh & Hst & Hc' & Hlink).
  exists R', h. cbn [read_value]. rewrite (bind_ok _ _ _ _ _ Hh). auto.
Qed.

Lemma read_all_app {K A} (rd : K -> M A) ks ks' s s1 s2 xs ys :
  read_all rd ks s = (s1, Ok xs) ->
  read_all rd ks' s1 = (s2, Ok ys) ->
  read_all rd (ks ++ ks') s = (s2, Ok (xs ++ ys)).
Proof.
  revert s xs. induction ks as [|k ks IH]; intros s xs H1 H2.
  - injection H1 as <- <-. exact H2.
  - cbn [read_all] in H1. run_cases. cbn [app read_all].
    match goal with H : rd k s = _ |- _ => rewrite (bind_ok _ _ _ _ _ H) end.
    erewrite bind_ok; [reflexivity|]. eapply IH; eassumption.
Qed.

Lemma read_all_cons {K A} (rd : K -> M A) k ks s s1 s2 x xs :
  rd k s = (s1, Ok x) ->
  read_all rd ks s1 = (s2, Ok xs) ->
  read_all rd (k :: ks) s = (s2, Ok (x :: xs)).
Proof.
  intros H1 H2. cbn [read_all]. now rewrite (bind_ok _ _ _ _ _ H1), (bind_ok _ _ _ _ _ H2).
Qed.

(** **** Handles of the reader's table own what they hold

    The reader puts into [nr2shared_ptr] the handle it has just made
    from a new object, or an alias of it: no entry is empty. *)
Definition entries_own (s : Archive) : Prop :=
  Forall (fun e => owner e <> None) (nr2shared_ptr s).

Lemma entries_own_stream s ts : entries_own s -> entries_own (set_stream ts s).
Proof. auto. Qed.

Lemma entries_own_heap s h : entries_own s -> entries_own (set_heap h s).
Proof. auto. Qed.

Lemma entries_own_push_ptr s p : entries_own s -> entries_own (push_ptr p s).
Proof. auto. Qed.

Lemma entries_own_push_shared s sp :
  owner sp <> None -> entries_own s -> entries_own (push_shared sp s).
Proof.
  intros Ho Hs. unfold entries_own. cbn [nr2shared_ptr push_shared].
  apply Forall_app. split; [exact Hs|]. now constructor.
Qed.

Lemma make_shared_from_owns p s s' sp :
  make_shared_from p s = (s', Ok sp) -> owner sp <> None.
Proof. unfold make_shared_from. now intros [= _ <-]. Qed.

Lemma read_shared_owns E (rptr : M addr) T :
  (forall s s' r, entries_own s -> rptr s = (s', r) -> entries_own s') ->
  forall s s' r, entries_own s -> read_shared E rptr T s = (s', r) -> entries_own s'.
Proof.
  intros Hptr s s' r Hs H. unfold read_shared in H.
  pose proof (get_int_inv entries_own entries_own_stream) as Hint.
  pose proof (get_bool_inv entries_own entries_own_stream) as Hbool.
  pose proof (get_string_inv entries_own entries_own_stream) as Hstring.
  pose proof (make_shared_from_inv entries_own entries_own_heap) as Hmake.
  run_cases;
    repeat match goal with
           | H : index _ _ _ = (_, _) |- _ => apply index_state in H; subst
           | H : make_shared_from _ _ = (_, Ok _) |- _ =>
               pose proof (make_shared_from_owns _ _ _ _ H); revert H
           end; intros;
    repeat first
      [ assumption
      | apply entries_own_push_shared; [assumption|]
      | match goal with
        | H : get_int _ = (?s', _) |- entries_own ?s' => eapply Hint; [|exact H]
        | H : get_bool _ = (?s', _) |- entries_own ?s' => eapply Hbool; [|exact H]
        | H : get_string _ = (?s', _) |- entries_own ?s' => eapply Hstring; [|exact H]
        | H : make_shared_from _ _ = (?s', _) |- entries_own ?s' => eapply Hmake; [|exact H]
        | H : rptr _ = (?s', _) |- entries_own ?s' => eapply Hptr; [|exact H]
        end ].
Qed.

Lemma read_value_owns E fuel t s s' r :
  entries_own s -> read_value E fuel t s = (s', r) -> entries_own s'.
Proof.
  revert t s s' r. induction fuel as [|f IH]; intros t s s' r Hs H.
  - injection H as <- _. exact Hs.
  - assert (Hptr : forall T s s' r,
               entries_own s ->
               read_ptr E (read_obj E (read_value E f)) T s = (s', r) -> entries_own s').
    { intros T. apply (read_ptr_inv E entries_own entries_own_stream entries_own_heap
                         entries_own_push_ptr).
      intros T' name p. apply (read_obj_inv E entries_own entries_own_heap). exact IH. }
    destruct t as [k|T|T]; cbn [read_value] in H.
    + bind_cases H; [|eapply (get_prim_inv entries_own entries_own_stream); eauto].
      injection Hk as <- _. eapply (get_prim_inv entries_own entries_own_stream); eauto.
    + bind_cases H; [|eapply Hptr; eauto].
      injection Hk as <- _. eapply Hptr; eauto.
    + bind_cases H; [|eapply read_shared_owns; eauto].
      injection Hk as <- _. eapply read_shared_owns; eauto.
Qed.

Lemma read_all_owns E fuel ts s s' r :
  entries_own s -> read_all (read_value E fuel) ts s = (s', r) -> entries_own s'.
Proof.
  apply (read_all_inv entries_own (read_value E fuel) ts).
  intros t s0 s1 r0. apply read_value_owns.
Qed.

(** A call that archived a handle and returned has left the canonical
    address of the handle with a slot. *)
Lemma write_shared_registers E fuel T sp reg s s' :
  get sp <> nullptr ->
  reg_ptr_of E T (get sp) = Ok reg ->
  write_value E fuel (VShared T sp) s = (s', Ok tt) ->
  is_Some (shared_ptr2nr s' !! reg).
Proof.
  intros Hp Hreg H. destruct fuel as [|f]; [discriminate|].
  cbn [write_value] in H. unfold write_shared in H.
  rewrite decide_False in H by exact Hp. unfold canonical in H. rewrite Hreg in H.
  rewrite bind_lift_ok, bind_get_state in H.
  destruct (shared_ptr2nr s !! reg) as [nr|] eqn:Hl.
  - rewrite !bind_put in H.
    destruct (negb (bool_decide (reg = get sp)));
      [rewrite put_run in H|]; injection H as <-; cbn; rewrite Hl; eauto.
  - run_cases; cbn [shared_ptr2nr register_shared]; rewrite lookup_insert_eq; eauto.
Qed.

(** The address a handle [h] read back for the written handle [sp]
    holds, against the table entry [e] of the canonical address [reg]:
    the address of [e] itself, or that address cast up to [T] again
    where the writer had to cast down. *)
Definition view_of (E : Env) (T : string) (sp : shared_ptr) (reg : addr)
    (e h : shared_ptr) : Prop :=
  if bool_decide (reg = get sp) then get h = get e
  else upcaster (GetArchiveRegister E (typeid_of E T (get sp))) T (get e) = Ok (get h).


Lemma scene_mirrors : env_mirrors scene.
Proof.
  split.
  - intros T p. cbn. destruct (String.eqb (scene_typeid T p) "Face"); [reflexivity|].
    destruct (String.eqb (scene_typeid T p) "Loop"); reflexivity.
  - intros name T p q. cbn. destruct (String.eqb name "Face"); [|discriminate].
    cbn. unfold face_down, face_up.
    destruct (String.eqb T "Face"); [intros _; repeat split; eauto|].
    destruct (String.eqb T "GraphNode"); [intros _; repeat split; eauto|].
    destruct (String.eqb T "Colored"); [intros _; repeat split; eauto|discriminate].
  - intros name T a b. cbn. destruct (String.eqb name "Face"); [|discriminate].
    cbn. unfold face_down, face_up.
    destruct (String.eqb T "Face"); [congruence|].
    destruct (String.eqb T "GraphNode"); [congruence|].
    destruct (String.eqb T "Colored"); [|discriminate].
    intros [= <-]. f_equal. lia.
Qed.

(** The scenario of the specification, with a plain object in between:
    a [Face] archived through a [GraphNode] handle and later through a
    [Colored] handle. *)
Definition face_as_node : shared_ptr := {| owner := Some 7%nat; get := 1000 |}.
Definition face_as_colored : shared_ptr := {| owner := Some 7%nat; get := 1016 |}.



(** C5. A null raw pointer is written as the single token -2, with the
    tables and counters untouched; reading a stream that starts with -2
    gives the null pointer and leaves the rest of the stream in place.
    No record of a non-null pointer starts with -2: it starts with -1,
    with -3 or with a slot number, which is not negative. *)
Theorem null_pointer_sentinel (E : Env) (wobj : string -> addr -> M unit)
    (robj : string -> string -> addr -> M unit) (fuel : nat) (T : string)
    (s : Archive) (rest : list token) (p0 : addr) :
  (is_output s = true ->
   archive_ptr E wobj robj T nullptr s
     = (set_stream (stream s ++ [TokInt (-2)]) s, Ok nullptr)) /\
  (is_output s = false ->
   archive_ptr E wobj robj T p0 (set_stream (TokInt (-2) :: rest) s)
     = (set_stream rest s, Ok nullptr)) /\
  (forall p s' r, p <> nullptr -> slots_ok s ->
     write_value E (S fuel) (VPtr T p) s = (s', r) ->
     head (written s s') <> Some (TokInt (-2))).
Proof.
  split; [|split].
  { intros Hout. unfold archive_ptr. rewrite bind_get_state, Hout. reflexivity. }
  { intros Hin. unfold archive_ptr. rewrite bind_get_state.
    change (is_output (set_stream (TokInt (-2) :: rest) s)) with (is_output s).
    rewrite Hin. reflexivity. }
  intros p s' r Hp Hok H. cbn [write_value] in H. unfold write_ptr in H.
  rewrite decide_False in H by exact Hp.
  bind_cases H.
  2:{ apply canonical_state in Hm. subst. now rewrite written_same. }
  apply canonical_state in Hm. subst s0.
  unfold get_state in Hk. bind_cases Hk; [|discriminate].
  injection Hm as <- <-.
  destruct (ptr2nr s !! a) as [nr|] eqn:Hl.
  - assert (stream s' = stream s ++
              [TokInt nr; TokBool (negb (bool_decide (a = p))); TokString (typeid_of E T p)])
      as Hs'.
    { unfold put, modify, bind in Hk0. injection Hk0 as <- _. cbn.
      now rewrite <- !app_assoc. }
    rewrite (written_app _ _ _ Hs'). cbn. intros [= ->].
    destruct Hok as (_ & _ & Hpt & _). apply Hpt in Hl. lia.
  - bind_cases Hk0; [|discriminate]. injection Hm as <- _.
    assert (Hpay : forall s1 s2 r1,
               write_obj E (write_value E fuel) T p s1 = (s2, r1) ->
               exists ts, stream s2 = stream s1 ++ ts).
    { intros s1 s2 r1. apply archive_all_extends. }
    case_decide.
    + destruct (is_constructible E T).
      * unfold put, modify in Hk. cbn [bind] in Hk.
        apply Hpay in Hk as [ts Hts]. cbn in Hts.
        rewrite <- app_assoc in Hts. rewrite (written_app _ _ _ Hts). discriminate.
      * injection Hk as <- _. unfold written. cbn. now rewrite drop_all.
    + destruct (negb (IsRegistered E (typeid_of E T p))).
      * injection Hk as <- _. unfold written. cbn. now rewrite drop_all.
      * unfold put, modify in Hk. cbn [bind] in Hk.
        apply Hpay in Hk as [ts Hts]. cbn in Hts.
        rewrite <- !app_assoc in Hts. rewrite (written_app _ _ _ Hts). discriminate.
Qed.

Lemma null_pointer_sentinel_witness :
  archive_ptr scene (fun _ _ => ret tt) (fun _ _ _ => ret tt) "GraphNode" nullptr
    (new_archive true [])
    = (set_stream [TokInt (-2)] (new_archive true []), Ok nullptr) /\
  archive_ptr scene (fun _ _ => ret tt) (fun _ _ _ => ret tt) "GraphNode" 1000
    (set_stream [TokInt (-2); TokInt 5] (new_archive false []))
    = (set_stream [TokInt 5] (new_archive false []), Ok nullptr) /\
  head (written (new_archive true [])
          (fst (write_value scene 2 (VPtr "GraphNode" 1000) (new_archive true []))))
    <> Some (TokInt (-2)).
Proof.
  split; [|split].
  - apply (null_pointer_sentinel scene (fun _ _ => ret tt) (fun _ _ _ => ret tt) 1
             "GraphNode" (new_archive true []) [] 0). reflexivity.
  - apply (null_pointer_sentinel scene (fun _ _ => ret tt) (fun _ _ _ => ret tt) 1
             "GraphNode" (new_archive false []) [TokInt 5] 1000). reflexivity.
  - destruct (null_pointer_sentinel scene (fun _ _ => ret tt) (fun _ _ _ => ret tt) 1
                "GraphNode" (new_archive true []) [] 0) as (_ & _ & H).
    apply (H 1000 _ (snd (write_value scene 2 (VPtr "GraphNode" 1000) (new_archive true [])))).
    + discriminate.
    + apply slots_ok_new.
    + reflexivity.
Defined.

(** C4. Archiving a non-null pointer, raw or shared, to an object whose
    run time type is not the static type and is not registered throws
    the exception that names the type, and the archive is exactly as it
    was: nothing written, no table entry, no counter moved. *)
Theorem unregistered_type_is_fatal (E : Env) (wobj wptr : string -> addr -> M unit)
    (robj : string -> string -> addr -> M unit) (rptr : M addr)
    (T : string) (p : addr) (sp : shared_ptr) (s : Archive) :
  is_output s = true ->
  p <> nullptr ->
  typeid_of E T p <> T ->
  IsRegistered E (typeid_of E T p) = false ->
  get sp = p ->
  archive_ptr E wobj robj T p s
    = (s, Fault (Exception ("Archive error: Polymorphic type " +:+ typeid_of E T p
                            +:+ " not registered for archive"))) /\
  archive_shared E wptr rptr T sp s
    = (s, Fault (Exception ("Archive error: Polymorphic type " +:+ typeid_of E T p
                            +:+ " not registered for archive"))).
Proof.
  intros Hout Hp Hty Hreg Hsp.
  assert (Hc : canonical E T p s = (s, Fault (not_registered (typeid_of E T p)))).
  { unfold canonical, reg_ptr_of, lift. rewrite decide_True by congruence. now rewrite Hreg. }
  split.
  - unfold archive_ptr. rewrite bind_get_state, Hout.
    unfold write_ptr. rewrite decide_False by exact Hp.
    erewrite bind_fault; [reflexivity|]. now rewrite (bind_fault _ _ _ _ _ Hc).
  - unfold archive_shared. rewrite bind_get_state, Hout.
    unfold write_shared. rewrite Hsp. rewrite decide_False by exact Hp.
    erewrite bind_fault; [reflexivity|]. now rewrite (bind_fault _ _ _ _ _ Hc).
Qed.

Lemma unregistered_type_is_fatal_witness :
  archive_ptr scene (fun _ _ => ret tt) (fun _ _ _ => ret tt) "GraphNode" 2000
    (new_archive true [])
    = (new_archive true [],
       Fault (Exception "Archive error: Polymorphic type Patch not registered for archive")) /\
  archive_shared scene (fun _ _ => ret tt) (ret 0) "GraphNode"
    {| owner := Some 0%nat; get := 2000 |} (new_archive true [])
    = (new_archive true [],
       Fault (Exception "Archive error: Polymorphic type Patch not registered for archive")).
Proof.
  apply (unregistered_type_is_fatal scene (fun _ _ => ret tt) (fun _ _ => ret tt)
           (fun _ _ _ => ret tt) (ret 0) "GraphNode" 2000
           {| owner := Some 0%nat; get := 2000 |} (new_archive true []));
    first [discriminate | reflexivity].
Defined.

(** C2 as stated fails: the second time the archive meets the plain
    object at address 3000 nothing was downcast, the flag is false, and
    the type name is written all the same. *)
Lemma seen_pointer_name_when_not_downcast :
  let s := fst (write_value scene 2 (VPtr "Node" 3000) (new_archive true [])) in
  ptr2nr s !! 3000 = Some 0 /\
  written s (fst (write_value scene 2 (VPtr "Node" 3000) s))
    = [TokInt 0; TokBool false; TokString "Node"] /\
  written s (fst (write_value scene 2 (VPtr "Node" 3000) s))
    <> seen_record_of_spec 0 false "Node".
Proof. vm_compute. repeat split; discriminate. Qed.

(** C2, amended. When the canonical address of a non-null raw pointer
    already has a slot, the record written is the slot number, the
    was-downcast flag and the run time type name; the name is written
    whatever the flag.  Nothing else changes. *)
Theorem seen_pointer_record (E : Env) (wobj : string -> addr -> M unit)
    (robj : string -> string -> addr -> M unit) (T : string) (p reg : addr) (nr : Z)
    (s : Archive) :
  is_output s = true ->
  p <> nullptr ->
  reg_ptr_of E T p = Ok reg ->
  ptr2nr s !! reg = Some nr ->
  archive_ptr E wobj robj T p s
    = (set_stream (stream s ++ [TokInt nr; TokBool (negb (bool_decide (reg = p)));
                                TokString (typeid_of E T p)]) s,
       Ok p).
Proof.
  intros Hout Hp Hc Hl. unfold archive_ptr. rewrite bind_get_state, Hout.
  unfold write_ptr. rewrite decide_False by exact Hp.
  unfold canonical. rewrite Hc, bind_assoc, bind_lift_ok, bind_assoc, bind_get_state, Hl.
  rewrite !bind_assoc, !bind_put. unfold put, modify, ret, bind. cbn.
  now rewrite <- !app_assoc.
Qed.

Lemma seen_pointer_record_witness :
  archive_ptr scene (fun _ _ => ret tt) (fun _ _ _ => ret tt) "Colored" 1016
    (register_ptr 1000 (new_archive true []))
  = (set_stream [TokInt 0; TokBool true; TokString "Face"]
       (register_ptr 1000 (new_archive true [])), Ok 1016).
Proof.
  apply (seen_pointer_record scene (fun _ _ => ret tt) (fun _ _ _ => ret tt)
           "Colored" 1016 1000 0 (register_ptr 1000 (new_archive true []))).
  - reflexivity.
  - discriminate.
  - reflexivity.
  - reflexivity.
Defined.

(** **** Vectors *)

Lemma loop_indices_lt n j : j ∈ loop_indices n -> Z.of_nat j < n.
Proof. unfold loop_indices. rewrite elem_of_seq. lia. Qed.

Lemma Do_over_in_range {A} (elem : A -> M A) (js : list nat) :
  forall data s s',
    Forall (fun j => (j < length data)%nat) js ->
    Do_over elem data js s = (s', Fault OutOfRange) ->
    exists x s1 s2, elem x s1 = (s2, Fault OutOfRange).
Proof.
  induction js as [|j js IH]; intros data s s' Hjs H; [discriminate|].
  inversion Hjs as [|? ? Hj Hrest]; subst. cbn [Do_over] in H.
  destruct (lookup_lt_is_Some_2 data j Hj) as [x Hx]. rewrite Hx in H.
  bind_cases H.
  - eapply IH; [|exact Hk]. now rewrite length_insert.
  - injection Hk as <-. eauto.
Qed.

Lemma loop_indices_in_range {A} (data : list A) n :
  n <= Z.of_nat (length data) ->
  Forall (fun j => (j < length data)%nat) (loop_indices n).
Proof.
  intros Hn. apply Forall_forall. intros j Hj.
  apply loop_indices_lt in Hj. lia.
Qed.

Lemma length_resize_vector {A} (dflt : A) size (v : list A) :
  length (resize_vector dflt size v) = Z.to_nat size.
Proof. unfold resize_vector. rewrite length_app, length_take, length_replicate. lia. Qed.

Lemma get_size_t_inv s s' n :
  get_size_t s = (s', Ok n) -> exists rest, stream s = TokSizeT n :: rest /\ s' = set_stream rest s.
Proof.
  unfold get_size_t, next_token, bind. destruct (stream s) as [|t ts]; [discriminate|].
  destruct t; try discriminate. intros [= <- <-]. eauto.
Qed.

Lemma get_size_t_cons n ts s :
  get_size_t (set_stream (TokSizeT n :: ts) s) = (set_stream ts s, Ok n).
Proof. reflexivity. Qed.

(** C10, as the code has it.  The loop of [Do] goes through the
    indices below [n] only, and archiving a vector that is not empty
    (on input: resized to a decoded size that is not 0) the archive
    touches no element outside it: an out of range access can then only
    come from the element type's own archiving.  For the empty vector
    the size 0 is written, or decoded, and then [&v[0]] asks for
    element 0, which the vector does not have: the call leaves the
    defined behaviour of [operator[]] before [Do] is entered, on output
    and on input, whatever archiving an element would do. *)
Theorem vector_elements_in_range {A} (welem : A -> M unit) (relem : A -> M A)
    (dflt : A) (max_size : Z) :
  (forall n j, j ∈ loop_indices n -> Z.of_nat j < n) /\
  (forall v s s', write_vector welem v s = (s', Fault OutOfRange) ->
                  v = [] \/ exists x s1 s2, welem x s1 = (s2, Fault OutOfRange)) /\
  (forall v s s', read_vector relem dflt max_size v s = (s', Fault OutOfRange) ->
                  (exists size rest, stream s = TokSizeT size :: rest /\ size <= 0) \/
                  exists x s1 s2, relem x s1 = (s2, Fault OutOfRange)) /\
  (forall s, write_vector welem [] s
             = (set_stream (stream s ++ [TokSizeT 0]) s, Fault OutOfRange)) /\
  (forall v rest s, 0 <= max_size ->
                    read_vector relem dflt max_size v (set_stream (TokSizeT 0 :: rest) s)
                    = (set_stream rest s, Fault OutOfRange)).
Proof.
  split; [apply loop_indices_lt|]. split; [|split; [|split]].
  - intros v s s' H. destruct v as [|x0 v]; [now left|]. right.
    unfold write_vector in H. rewrite bind_put in H. cbn [element_0] in H.
    rewrite bind_ret in H.
    bind_cases H; [discriminate|]. injection Hk as Hf. unfold Do in Hm.
    rewrite <- Hf in Hm.
    apply Do_over_in_range in Hm; [|apply loop_indices_in_range; lia].
    destruct Hm as (x & s1 & s2 & Hx). bind_cases Hx; [discriminate|].
    injection Hk as <-. eauto.
  - intros v s s' H. unfold read_vector in H. bind_cases H.
    + destruct (get_size_t_inv _ _ _ Hm) as (rest & Hst & ->).
      unfold resize in Hk. case_decide as Hmax.
      * rewrite bind_fault with (s1 := set_stream rest s) (f := StdError length_error) in Hk
          by reflexivity. discriminate.
      * rewrite bind_ret in Hk.
        destruct (resize_vector dflt a v) as [|x0 v'] eqn:Hv.
        { left. exists a, rest. split; [exact Hst|].
          pose proof (length_resize_vector dflt a v) as Hl. rewrite Hv in Hl.
          cbn in Hl. lia. }
        right. cbn [element_0] in Hk. rewrite bind_ret in Hk.
        unfold Do in Hk. apply Do_over_in_range in Hk; [exact Hk|].
        apply loop_indices_in_range. rewrite <- Hv, length_resize_vector. lia.
    + unfold get_size_t in Hm. run_cases.
      unfold next_token in *. destruct (stream s); discriminate.
  - intros s. reflexivity.
  - intros v rest s Hmax. unfold read_vector.
    rewrite (bind_ok _ _ _ _ _ (get_size_t_cons 0 rest s)).
    unfold resize. rewrite decide_False by lia. rewrite bind_ret.
    reflexivity.
Qed.

(** C10 at the empty vector.  Written, an empty [std::vector<int>]
    leaves its size in the sink and then asks for element 0; read from
    a source that holds the size 0, it is resized to no element and
    then asked for element 0.  Neither call gets to return. *)
Lemma empty_vector_asks_for_element_0 :
  write_vector (fun x => put (TokInt x)) [] (new_archive true [])
    = (set_stream [TokSizeT 0] (new_archive true []), Fault OutOfRange) /\
  read_vector (fun _ => get_int) 0 (2 ^ 61) [] (new_archive false [TokSizeT 0])
    = (new_archive false [], Fault OutOfRange).
Proof. split; reflexivity. Qed.

(** **** Maps *)

Lemma archive_all_plain {A} (w : A -> M unit) (enc : A -> list token) (xs : list A) s :
  (forall x s, w x s = (set_stream (stream s ++ enc x) s, Ok tt)) ->
  archive_all w xs s = (set_stream (stream s ++ flat_map enc xs) s, Ok tt).
Proof.
  intros Hw. revert s. induction xs as [|x xs IH]; intros s.
  - cbn. rewrite app_nil_r. now destruct s.
  - cbn [archive_all flat_map]. rewrite (bind_ok _ _ _ _ _ (Hw x s)), IH.
    cbn. now rewrite <- app_assoc.
Qed.

(** Inserting the pairs of a list one after the other. *)
Definition insert_all {K V} `{Countable K} (m : gmap K V) (l : list (K * V)) : gmap K V :=
  foldl (fun acc pair => <[pair.1 := pair.2]> acc) m l.

Lemma insert_all_reverse {K V} `{Countable K} (m : gmap K V) (l : list (K * V)) :
  insert_all m l = foldr (fun pair acc => <[pair.1 := pair.2]> acc) m (reverse l).
Proof.
  unfold insert_all. induction l as [|x l IH] using rev_ind; [reflexivity|].
  rewrite foldl_snoc, reverse_snoc. cbn [foldr]. now rewrite IH.
Qed.

Lemma insert_all_unique {K V} `{Countable K} (l : list (K * V)) :
  NoDup l.*1 -> insert_all ∅ l = list_to_map l.
Proof.
  intros Hnd. rewrite insert_all_reverse.
  rewrite <- (list_to_map_proper (reverse l) l).
  - reflexivity.
  - rewrite fmap_reverse. now rewrite reverse_Permutation.
  - apply reverse_Permutation.
Qed.

Section MapRoundTrip.

Context {K V : Type} `{Countable K}.
Variable key_le : relation K.
Context `{!RelDecision key_le}.
Variables (wkey : K -> M unit) (rkey : M K) (enc_key : K -> list token).
Variables (wval : V -> M unit) (rval : M V) (enc_val : V -> list token).
Hypothesis key_plain : plain_data wkey rkey enc_key.
Hypothesis val_plain : plain_data wval rval enc_val.

Definition enc_pair (pair : K * V) : list token := enc_key pair.1 ++ enc_val pair.2.

(** What writing the map [m] appends: its size, then key and value of
    each entry in iteration order. *)
Definition map_record (m : gmap K V) : list token :=
  TokSizeT (Z.of_nat (size m)) :: flat_map enc_pair (map_iteration key_le m).

Lemma write_map_record m s :
  write_map key_le wkey wval m s = (set_stream (stream s ++ map_record m) s, Ok tt).
Proof.
  unfold write_map, map_record. rewrite bind_put.
  rewrite (archive_all_plain _ enc_pair).
  - cbn. now rewrite <- app_assoc.
  - intros [k v] s0. cbn [fst snd]. destruct key_plain as [Hk _], val_plain as [Hv _].
    rewrite (bind_ok _ _ _ _ _ (Hk k s0)), Hv. unfold enc_pair. cbn.
    now rewrite <- app_assoc.
Qed.

Lemma read_map_loop_pairs (l : list (K * V)) m0 rest s :
  read_map_loop rkey rval (length l) m0 (set_stream (flat_map enc_pair l ++ rest) s)
  = (set_stream rest s, Ok (insert_all m0 l)).
Proof.
  revert m0. induction l as [|[k v] l IH]; intros m0; [reflexivity|].
  cbn [length read_map_loop flat_map]. unfold enc_pair at 1. cbn [fst snd].
  destruct key_plain as [_ Hk], val_plain as [_ Hv].
  rewrite <- !app_assoc. rewrite (bind_ok _ _ _ _ _ (Hk k _ s)).
  rewrite (bind_ok _ _ _ _ _ (Hv v _ s)). apply IH.
Qed.

Lemma read_map_pairs (l : list (K * V)) m0 rest s :
  read_map rkey rval m0
    (set_stream (TokSizeT (Z.of_nat (length l)) :: flat_map enc_pair l ++ rest) s)
  = (set_stream rest s, Ok (insert_all m0 l)).
Proof.
  unfold read_map.
  assert (Hsz : get_size_t
            (set_stream (TokSizeT (Z.of_nat (length l)) :: flat_map enc_pair l ++ rest) s)
          = (set_stream (flat_map enc_pair l ++ rest) s, Ok (Z.of_nat (length l))))
    by reflexivity.
  rewrite (bind_ok _ _ _ _ _ Hsz), Nat2Z.id. apply read_map_loop_pairs.
Qed.

Lemma map_iteration_perm (m : gmap K V) : map_iteration key_le m ≡ₚ map_to_list m.
Proof. apply merge_sort_Permutation. Qed.

Lemma insert_all_iteration (m : gmap K V) : insert_all ∅ (map_iteration key_le m) = m.
Proof.
  rewrite insert_all_unique.
  - rewrite (list_to_map_proper _ (map_to_list m)).
    + apply list_to_map_to_list.
    + rewrite (map_iteration_perm m). apply NoDup_fst_map_to_list.
    + apply map_iteration_perm.
  - rewrite (map_iteration_perm m). apply NoDup_fst_map_to_list.
Qed.

(** C7, amended.  With keys and values archived as plain data: writing a map
    appends its size and then key and value of each entry in iteration
    order; reading takes a size and that many pairs off the source and
    inserts each into the destination, a later pair overwriting an
    earlier one with the same key; so reading into an empty map what
    was written for [m] gives [m], and that whatever order the entries
    of [m] were inserted in. *)
Theorem map_round_trip :
  (forall m s,
     write_map key_le wkey wval m s = (set_stream (stream s ++ map_record m) s, Ok tt)) /\
  (forall l m0 rest s,
     read_map rkey rval m0
       (set_stream (TokSizeT (Z.of_nat (length l)) :: flat_map enc_pair l ++ rest) s)
     = (set_stream rest s, Ok (insert_all m0 l))) /\
  (forall m rest s,
     read_map rkey rval ∅ (set_stream (map_record m ++ rest) s) = (set_stream rest s, Ok m)) /\
  (forall l l' rest s,
     NoDup l.*1 -> l ≡ₚ l' ->
     read_map rkey rval ∅ (set_stream (map_record (insert_all ∅ l) ++ rest) s)
     = (set_stream rest s, Ok (insert_all ∅ l'))).
Proof.
  assert (Hrt : forall m rest s,
            read_map rkey rval ∅ (set_stream (map_record m ++ rest) s)
            = (set_stream rest s, Ok m)).
  { intros m rest s. unfold map_record.
    assert (Hsz : size m = length (map_iteration key_le m)).
    { rewrite (map_iteration_perm m). symmetry. apply length_map_to_list. }
    rewrite Hsz. cbn [app]. rewrite read_map_pairs. now rewrite insert_all_iteration. }
  split; [apply write_map_record|]. split; [apply read_map_pairs|].
  split; [exact Hrt|].
  intros l l' rest s Hnd Hperm. rewrite Hrt. f_equal. f_equal.
  rewrite !insert_all_unique; [|now rewrite <- Hperm|exact Hnd].
  now apply list_to_map_proper.
Qed.

End MapRoundTrip.

Lemma int_plain : plain_data (fun i => put (TokInt i)) get_int (fun i => [TokInt i]).
Proof. split; reflexivity. Qed.

Lemma string_plain : plain_data (fun n => put (TokString n)) get_string (fun n => [TokString n]).
Proof. split; reflexivity. Qed.

(** A [std::map<int, std::string>] filled in descending key order. *)
Lemma map_round_trip_witness :
  read_map get_int get_string ∅
    (set_stream
       (map_record Z.le (fun i => [TokInt i]) (fun n => [TokString n])
          (insert_all ∅ [(3, "c"); (2, "b"); (1, "a")]) ++ [])
       (new_archive false []))
  = (set_stream [] (new_archive false []), Ok (insert_all ∅ [(1, "a"); (2, "b"); (3, "c")])).
Proof.
  destruct (map_round_trip Z.le _ _ _ _ _ _ int_plain string_plain) as (_ & _ & _ & H4).
  apply (H4 [(3, "c"); (2, "b"); (1, "a")] [(1, "a"); (2, "b"); (3, "c")]).
  - apply (bool_decide_unpack _). vm_compute. exact I.
  - rewrite (Permutation_swap (3, "c") (2, "b")).
    rewrite (Permutation_swap (3, "c") (1, "a")). rewrite (Permutation_swap (2, "b") (1, "a")).
    reflexivity.
Defined.

(** C7 as stated fails for a map whose values are not plain data.  A
    [std::map<int, Node*>] with the one entry [1 -> 3000] is written
    as the size, the key and the record of a new object with its
    payload; read into an empty map, the key comes back with a pointer
    to the object the reader has made, at the address [new] gave it:
    the map read is not the map written. *)
Lemma map_of_pointers_comes_back_elsewhere :
  write_map Z.le (fun i => put (TokInt i))
    (write_ptr scene (write_obj scene (write_value scene 2)) "Node")
    {[ 1 := 3000 ]} (new_archive true [])
  = (register_ptr 3000
       (set_stream [TokSizeT 1; TokInt 1; TokInt (-1); TokInt 7] (new_archive true [])),
     Ok tt) /\
  (exists R,
     read_map get_int (read_ptr scene (read_obj scene (read_value scene 2)) "Node") ∅
       (new_archive false [TokSizeT 1; TokInt 1; TokInt (-1); TokInt 7])
     = (R, Ok {[ 1 := 4096 ]})) /\
  ({[ 1 := 4096 ]} : gmap Z addr) <> {[ 1 := 3000 ]}.
Proof.
  split; [|split].
  - vm_compute. reflexivity.
  - eexists. vm_compute. reflexivity.
  - intros H. apply (f_equal (fun m : gmap Z addr => m !! 1)) in H.
    rewrite !lookup_singleton_eq in H. discriminate.
Qed.

End Core.
(** ** Arrays through the binary input archive

    [BinaryInArchive] overrides [Do] for [double], [int] and [size_t]
    arrays with one [stream->read] of the whole array; the other
    element types, and every output archive, go through the loop of
    [Archive::Do]. *)

Module BinaryArrays.
Import BinaryIn.

(** The object representation of an array: element after element. *)
Definition array_bytes (t : ctype) (d : list Z) : list byte :=
  concat (map (le_bytes (sizeof t)) d).

(** The [n] elements of [sz] bytes each that a run of bytes holds. *)
Fixpoint array_values (sz n : nat) (bs : list byte) : list Z :=
  match n with
  | O => []
  | S n' => le_value (take sz bs) :: array_values sz n' (drop sz bs)
  end.

(** [Archive & Do (double * d, size_t n) override], and the same for
    [int] and [size_t]: [stream->read(reinterpret_cast<char*>(d),
    n*sizeof(T))].  The product is computed in [size_t] and handed over
    as a [std::streamsize].  [d] is the array pointed to; bytes stored
    past its end are undefined behaviour, reported as [None]. *)
Definition Do_bulk (t : ctype) (d : list Z) (n : Z) (i : istream byte)
  : option (list Z * istream byte) :=
  let count := long_value (size_t_wrap (n * Z.of_nat (sizeof t))) in
  let '(bs, i') := stream_read count i in
  if decide (length bs <= length (array_bytes t d))%nat then
    Some (array_values (sizeof t) (length d) (overwrite (array_bytes t d) bs), i')
  else None.

(** [Archive & Do (T * data, size_t n)] of the base class on a binary
    input archive: [Read(data[j])] for [j] from 0 up to [n]. *)
Fixpoint Do_each_over (t : ctype) (d : list Z) (js : list nat) (i : istream byte)
  : option (list Z * istream byte) :=
  match js with
  | [] => Some (d, i)
  | j :: js' =>
      match d !! j with
      | None => None
      | Some old =>
          let '(x, i1) := Read t old i in
          Do_each_over t (<[j := sc_bits x]> d) js' i1
      end
  end.

Definition Do_each (t : ctype) (d : list Z) (n : Z) (i : istream byte)
  : option (list Z * istream byte) :=
  Do_each_over t d (seq 0 (Z.to_nat n)) i.

(** [Do (&v[0], size)] on a [BinaryInArchive]: the overrides for the
    three element types that have one, the loop of the base class for
    the others. *)
Definition overrides_Do (t : ctype) : bool :=
  match t with
  | TDouble | TInt | TSizeT => true
  | _ => false
  end.

Definition Do (t : ctype) (d : list Z) (n : Z) (i : istream byte)
  : option (list Z * istream byte) :=
  if overrides_Do t then Do_bulk t d n i else Do_each t d n i.

(** Every element holds a bit pattern of its width. *)
Definition array_wf (t : ctype) (d : list Z) : Prop :=
  Forall (fun v => 0 <= v < 2 ^ (8 * Z.of_nat (sizeof t))) d.

(** The first [k] elements read one after the other. *)
Fixpoint read_prefix (t : ctype) (d : list Z) (k : nat) (i : istream byte)
  : list Z * istream byte :=
  match k, d with
  | S k', old :: d' =>
      let '(x, i1) := Read t old i in
      let '(d'', i2) := read_prefix t d' k' i1 in
      (sc_bits x :: d'', i2)
  | _, _ => (d, i)
  end.

Lemma Do_each_over_prefix t pre d k i :
  (k <= length d)%nat ->
  Do_each_over t (pre ++ d) (seq (length pre) k) i
  = Some (pre ++ fst (read_prefix t d k i), snd (read_prefix t d k i)).
Proof.
  revert pre d i. induction k as [|k IH]; intros pre d i Hk.
  - destruct d; reflexivity.
  - destruct d as [|old d]; [cbn in Hk; lia|].
    cbn [seq Do_each_over read_prefix].
    rewrite lookup_app_r by lia. rewrite Nat.sub_diag. cbn [lookup list_lookup].
    destruct (Read t old i) as [x i1] eqn:Hx.
    replace (<[length pre := sc_bits x]> (pre ++ old :: d))
      with ((pre ++ [sc_bits x]) ++ d).
    2:{ rewrite insert_app_r_alt by lia. rewrite Nat.sub_diag. cbn.
        now rewrite <- app_assoc. }
    replace (S (length pre)) with (length (pre ++ [sc_bits x]))
      by (rewrite length_app; cbn; lia).
    rewrite IH by (cbn in Hk; lia).
    destruct (read_prefix t d k i1) as [d'' i2]. cbn [fst snd].
    now rewrite <- app_assoc.
Qed.

Lemma stream_read_split a b i :
  0 <= a -> 0 <= b ->
  stream_read (a + b) i
  = (fst (stream_read a i) ++ fst (stream_read b (snd (stream_read a i))),
     snd (stream_read b (snd (stream_read a i)))).
Proof.
  intros Ha Hb. destruct i as [p f]. unfold stream_read. cbn [failed pending].
  destruct f; [cbn [fst snd failed]; reflexivity|].
  destruct (decide (a <= Z.of_nat (length p))) as [Hap|Hap]; cbn [fst snd failed pending].
  - destruct (decide (b <= Z.of_nat (length (drop (Z.to_nat a) p)))) as [Hbp|Hbp];
      rewrite length_drop in Hbp.
    + rewrite decide_True by lia. cbn [fst snd].
      rewrite Z2Nat.inj_add by lia. rewrite take_take_drop, drop_drop. reflexivity.
    + rewrite decide_False by lia. cbn [fst snd]. now rewrite take_drop.
  - rewrite decide_False by lia. cbn [fst snd]. now rewrite app_nil_r.
Qed.

Lemma stream_read_length n i :
  0 <= n -> Z.of_nat (length (fst (stream_read n i))) <= n.
Proof.
  intros Hn. unfold stream_read. destruct (failed i); [cbn; lia|].
  case_decide; cbn [fst]; [rewrite length_take|]; lia.
Qed.

(** A read that comes back short has exhausted the stream. *)
Lemma stream_read_short n i :
  0 <= n -> Z.of_nat (length (fst (stream_read n i))) < n ->
  failed (snd (stream_read n i)) = true.
Proof.
  intros Hn. unfold stream_read. destruct (failed i) eqn:Hf; [cbn; auto|].
  case_decide; cbn [fst snd failed]; [rewrite length_take; lia|reflexivity].
Qed.

Lemma stream_read_failed n i :
  failed i = true -> stream_read n i = ([], i).
Proof. intros Hf. unfold stream_read. now rewrite Hf. Qed.

Lemma overwrite_nil old : overwrite old [] = old.
Proof. reflexivity. Qed.

Lemma stream_read_zero i : stream_read 0 i = ([], i).
Proof.
  destruct i as [p f]. unfold stream_read. cbn [failed pending].
  destruct f; [reflexivity|]. rewrite decide_True by lia. reflexivity.
Qed.

Lemma array_values_bytes t d :
  array_wf t d -> array_values (sizeof t) (length d) (array_bytes t d) = d.
Proof.
  induction 1 as [|v d Hv _ IH]; [reflexivity|].
  unfold array_bytes in *. cbn [map concat length array_values].
  rewrite take_app_length' by (now rewrite length_le_bytes).
  rewrite drop_app_length' by (now rewrite length_le_bytes). rewrite IH.
  rewrite le_value_le_bytes, Z.mod_small by exact Hv. reflexivity.
Qed.

Lemma length_array_bytes t d :
  length (array_bytes t d) = (length d * sizeof t)%nat.
Proof.
  unfold array_bytes. induction d as [|v d IH]; [reflexivity|].
  cbn [map concat length]. rewrite length_app, length_le_bytes, IH. lia.
Qed.

Lemma read_prefix_failed t d k i :
  array_wf t d -> failed i = true -> read_prefix t d k i = (d, i).
Proof.
  intros Hd Hf. revert k. induction Hd as [|v d Hv _ IH]; intros k.
  - destruct k; reflexivity.
  - destruct k as [|k]; [reflexivity|]. cbn [read_prefix]. unfold Read.
    rewrite (stream_read_failed _ _ Hf), overwrite_nil.
    rewrite le_value_le_bytes, Z.mod_small by exact Hv. cbn [sc_bits].
    now rewrite IH.
Qed.

(** One [stream->read] of [k] elements does to the array and to the
    stream what [k] reads of one element do. *)
Lemma bulk_read_prefix t d k i :
  array_wf t d -> (k <= length d)%nat ->
  let r := stream_read (Z.of_nat (k * sizeof t)) i in
  (length (fst r) <= length (array_bytes t d))%nat /\
  (array_values (sizeof t) (length d) (overwrite (array_bytes t d) (fst r)), snd r)
  = read_prefix t d k i.
Proof.
  intros Hd. revert k i. induction Hd as [|v d Hv Hd IH]; intros k i Hk.
  - assert (k = 0%nat) as -> by (cbn in Hk; lia).
    cbn [Nat.mul Z.of_nat]. rewrite stream_read_zero. cbn. auto.
  - destruct k as [|k].
    + cbn [read_prefix Nat.mul Z.of_nat]. rewrite stream_read_zero. cbn [fst snd].
      split; [cbn; lia|]. rewrite overwrite_nil.
      now rewrite (array_values_bytes t (v :: d)) by (constructor; assumption).
    + cbn zeta. replace (Z.of_nat (S k * sizeof t))
        with (Z.of_nat (sizeof t) + Z.of_nat (k * sizeof t)) by lia.
      rewrite stream_read_split by lia. cbn [fst snd read_prefix].
      unfold Read.
      pose proof (stream_read_length (Z.of_nat (sizeof t)) i ltac:(lia)) as Hl1.
      pose proof (stream_read_short (Z.of_nat (sizeof t)) i ltac:(lia)) as Hsh.
      destruct (stream_read (Z.of_nat (sizeof t)) i) as [bs1 i1] eqn:H1.
      cbn [fst snd] in *.
      specialize (IH k i1 ltac:(cbn in Hk; lia)). cbn zeta in IH.
      destruct IH as [IHl IHe].
      destruct (decide (length bs1 = sizeof t)) as [Hfull|Hpart].
      * (* the element was read whole *)
        destruct (stream_read (Z.of_nat (k * sizeof t)) i1) as [bs2 i2] eqn:H2.
        cbn [fst snd] in *. rewrite <- IHe. cbn [sc_bits].
        split.
        { rewrite length_app, length_array_bytes in *. cbn [length]. lia. }
        f_equal. unfold overwrite, array_bytes. cbn [map concat length array_values].
        rewrite !length_app. rewrite <- app_assoc.
        rewrite take_app_length' by (now rewrite Hfull).
        rewrite drop_app_length' by (now rewrite Hfull).
        f_equal.
        -- rewrite drop_ge by (rewrite length_le_bytes; lia). now rewrite app_nil_r.
        -- f_equal. f_equal.
           rewrite drop_app_ge by (rewrite length_le_bytes; lia).
           rewrite length_le_bytes. f_equal. lia.
      * (* the stream ended inside the element *)
        assert (Hf : failed i1 = true) by (apply Hsh; lia).
        rewrite (stream_read_failed _ _ Hf) in *. cbn [fst snd] in *.
        rewrite (read_prefix_failed t d k i1 Hd Hf). rewrite app_nil_r.
        split.
        { rewrite length_array_bytes. cbn [length]. lia. }
        cbn [sc_bits]. f_equal.
        unfold overwrite, array_bytes. cbn [map concat length array_values].
        assert (Hlt : (length bs1 < sizeof t)%nat) by lia.
        rewrite drop_app_le by (rewrite length_le_bytes; lia).
        rewrite app_assoc.
        assert (Hlen : length (bs1 ++ drop (length bs1) (le_bytes (sizeof t) v)) = sizeof t).
        { rewrite length_app, length_drop, length_le_bytes. lia. }
        rewrite take_app_length' by (now rewrite Hlen).
        rewrite drop_app_length' by (now rewrite Hlen).
        f_equal. now apply array_values_bytes.
Qed.

Lemma Do_bulk_each (t : ctype) (d : list Z) (n : Z) (i : istream byte) :
  array_wf t d ->
  0 <= n <= Z.of_nat (length d) ->
  n * Z.of_nat (sizeof t) < 2 ^ 63 ->
  Do_bulk t d n i = Do_each t d n i /\ is_Some (Do_each t d n i).
Proof.
  intros Hd Hn Hsz. unfold Do_bulk, Do_each.
  pose proof (Do_each_over_prefix t [] d (Z.to_nat n) i ltac:(lia)) as Heach.
  cbn [app length] in Heach. rewrite Heach.
  split; [|eauto].
  assert (Hcount : long_value (size_t_wrap (n * Z.of_nat (sizeof t)))
                   = Z.of_nat (Z.to_nat n * sizeof t)).
  { unfold long_value, size_t_wrap. rewrite Z.mod_mod by lia.
    rewrite Z.mod_small by nia. rewrite decide_True by lia. nia. }
  rewrite Hcount.
  destruct (bulk_read_prefix t d (Z.to_nat n) i Hd ltac:(lia)) as [Hl He].
  destruct (stream_read (Z.of_nat (Z.to_nat n * sizeof t)) i) as [bs i'].
  cbn [fst snd] in *. rewrite decide_True by exact Hl. rewrite He.
  now destruct (read_prefix t d (Z.to_nat n) i).
Qed.

(** X1. The override is the loop: for an array of at least [n]
    elements, [Do] on a binary input archive leaves the array and the
    stream as the loop of [Archive::Do] would, element by element,
    whatever the element type, also when the source ends early or has
    failed before. *)
Theorem bulk_Do_is_elementwise (t : ctype) (d : list Z) (n : Z) (i : istream byte) :
  array_wf t d ->
  0 <= n <= Z.of_nat (length d) ->
  n * Z.of_nat (sizeof t) < 2 ^ 63 ->
  Do t d n i = Do_each t d n i /\ is_Some (Do_each t d n i).
Proof.
  intros Hd Hn Hsz. destruct (Do_bulk_each t d n i Hd Hn Hsz) as [Heq Hsome].
  split; [|exact Hsome]. unfold Do. now destruct (overrides_Do t).
Qed.

Lemma bulk_Do_is_elementwise_witness :
  Do TInt [1; 2; 3] 3 (mkIn [x05; x00; x00; x00; x07; x00] false)
    = Do_each TInt [1; 2; 3] 3 (mkIn [x05; x00; x00; x00; x07; x00] false) /\
  is_Some (Do_each TInt [1; 2; 3] 3 (mkIn [x05; x00; x00; x00; x07; x00] false)).
Proof.
  apply (bulk_Do_is_elementwise TInt [1; 2; 3] 3 (mkIn [x05; x00; x00; x00; x07; x00] false)).
  - repeat constructor; vm_compute; congruence.
  - vm_compute. split; congruence.
  - vm_compute. reflexivity.
Defined.

(** X21. An array of scalars written through the binary output
    archive, which has no [Do] of its own and writes element by
    element, is read back whole by [Do] on the input archive, for the
    element types read by one [stream->read] as for the others,
    whatever the destination array held; the reader stops behind the
    array. *)
Theorem binary_array_round_trip (t : ctype) (xs d : list Z) (rest : list byte) :
  array_wf t xs -> array_wf t d ->
  length d = length xs ->
  Z.of_nat (length xs) * Z.of_nat (sizeof t) < 2 ^ 63 ->
  exists bytes,
    BinaryOut.session (map (fun v => BinaryOut.Put (Scalar t v)) xs) = Some bytes /\
    Do t d (Z.of_nat (length xs)) (mkIn (bytes ++ rest) false)
    = Some (xs, mkIn rest false).
Proof.
  intros Hxs Hd Hlen Hsz.
  eexists. split; [apply BinaryOut.buffered_session_is_unbuffered_aux|].
  assert (Hbytes : BinaryOut.unbuffered (map (fun v => BinaryOut.Put (Scalar t v)) xs)
                   = array_bytes t xs).
  { unfold BinaryOut.unbuffered, array_bytes. rewrite map_map. reflexivity. }
  rewrite Hbytes.
  assert (Hbulk : Do_bulk t d (Z.of_nat (length xs)) (mkIn (array_bytes t xs ++ rest) false)
                  = Some (xs, mkIn rest false)).
  { unfold Do_bulk.
    assert (Hcount : long_value (size_t_wrap (Z.of_nat (length xs) * Z.of_nat (sizeof t)))
                     = Z.of_nat (length (array_bytes t xs))).
    { unfold long_value, size_t_wrap. rewrite Z.mod_mod by lia.
      rewrite Z.mod_small by nia. rewrite decide_True by lia.
      rewrite length_array_bytes. lia. }
    rewrite Hcount, stream_read_exact.
    rewrite decide_True by (rewrite !length_array_bytes; lia).
    unfold overwrite. rewrite drop_ge by (rewrite !length_array_bytes; lia).
    rewrite app_nil_r, Hlen. now rewrite array_values_bytes. }
  unfold Do. destruct (overrides_Do t); [exact Hbulk|].
  destruct (Do_bulk_each t d (Z.of_nat (length xs)) (mkIn (array_bytes t xs ++ rest) false)
              Hd ltac:(lia) Hsz) as [<- _].
  exact Hbulk.
Qed.

Lemma binary_array_round_trip_witness :
  exists bytes,
    BinaryOut.session (map (fun v => BinaryOut.Put (Scalar TDouble v)) [7; 2 ^ 63]) = Some bytes /\
    Do TDouble [0; 1] (Z.of_nat (length [7; 2 ^ 63])) (mkIn (bytes ++ [x01]) false)
    = Some ([7; 2 ^ 63], mkIn [x01] false).
Proof.
  apply (binary_array_round_trip TDouble [7; 2 ^ 63] [0; 1] [x01]).
  - repeat constructor; vm_compute; congruence.
  - repeat constructor; vm_compute; congruence.
  - reflexivity.
  - vm_compute. reflexivity.
Defined.

(** *** A source that ends too early *)

(** What a variable of type [t] that held [old] is left with when
    nothing is read into it. *)
Definition untouched (old : Z) (t : ctype) : scalar :=
  Scalar t (old mod 2 ^ (8 * Z.of_nat (sizeof t))).

Lemma Read_failed t old i :
  failed i = true -> Read t old i = (untouched old t, i).
Proof.
  intros Hf. unfold Read. rewrite (stream_read_failed _ _ Hf), overwrite_nil.
  now rewrite le_value_le_bytes.
Qed.

Lemma Read_all_failed ts old i :
  failed i = true -> Read_all ts old i = (map (untouched old) ts, i).
Proof.
  intros Hf. induction ts as [|t ts IH]; [reflexivity|].
  cbn [Read_all map]. now rewrite (Read_failed t old i Hf), IH.
Qed.

Lemma Read_at_end t old : Read t old (mkIn [] false) = (untouched old t, mkIn [] true).
Proof.
  unfold Read, stream_read. cbn [failed pending length].
  rewrite decide_False by (destruct t; cbn; lia).
  rewrite overwrite_nil. now rewrite le_value_le_bytes.
Qed.

Lemma Read_all_app ts1 ts2 old i :
  Read_all (ts1 ++ ts2) old i
  = (fst (Read_all ts1 old i) ++ fst (Read_all ts2 old (snd (Read_all ts1 old i))),
     snd (Read_all ts2 old (snd (Read_all ts1 old i)))).
Proof.
  revert i. induction ts1 as [|t ts1 IH]; intros i.
  - cbn. now destruct (Read_all ts2 old i).
  - cbn [app Read_all]. destruct (Read t old i) as [x i1]. rewrite IH.
    destruct (Read_all ts1 old i1) as [xs i2]. cbn [fst snd].
    now destruct (Read_all ts2 old i2).
Qed.

(** What a read of a [t] leaves in a variable that held [old] when the
    source ends after [tail], fewer bytes than a [t] has: the bytes
    that were left overwrite the first bytes of the variable. *)
Definition partly_read (old : Z) (t : ctype) (tail : list byte) : scalar :=
  Scalar t (le_value (overwrite (le_bytes (sizeof t) old) tail)).

(** X2. A binary source that ends before the scalars read from it do,
    between two scalars or inside one, is not reported.  The scalars
    that are wholly there come back; the variable in which the source
    ends has its first bytes overwritten by the bytes that were left
    and keeps the others (all of them when nothing was left); every
    variable read after it keeps the bits it held.  No exception leaves
    the archive, and the only trace is the failed state of the
    stream. *)
Theorem binary_truncated_source_is_silent (xs : list scalar) (t : ctype) (ts : list ctype)
    (old : Z) (tail : list byte) :
  Forall scalar_wf xs -> (length tail < sizeof t)%nat ->
  Read_all (map sc_type xs ++ t :: ts) old (mkIn (concat (map repr xs) ++ tail) false)
  = (xs ++ partly_read old t tail :: map (untouched old) ts, mkIn [] true) /\
  partly_read old t [] = untouched old t.
Proof.
  intros Hwf Htail. split.
  - rewrite Read_all_app.
    rewrite (Read_all_repr xs old tail)
      by (eapply Forall_impl; [exact Hwf|]; now intros x [Hr _]).
    cbn [fst snd Read_all map].
    assert (Hend : Read t old (mkIn tail false) = (partly_read old t tail, mkIn [] true)).
    { unfold Read, stream_read. cbn [failed pending]. now rewrite decide_False by lia. }
    rewrite Hend.
    now rewrite (Read_all_failed ts old (mkIn [] true) eq_refl).
  - unfold partly_read, untouched. rewrite overwrite_nil. now rewrite le_value_le_bytes.
Qed.

Lemma binary_truncated_source_is_silent_witness :
  Read_all (map sc_type [Scalar TInt 5] ++ TDouble :: [TBool]) 1
    (mkIn (concat (map repr [Scalar TInt 5]) ++ [x07; x08; x09]) false)
  = ([Scalar TInt 5] ++ partly_read 1 TDouble [x07; x08; x09] :: map (untouched 1) [TBool],
     mkIn [] true) /\
  partly_read 1 TDouble [] = untouched 1 TDouble.
Proof.
  apply (binary_truncated_source_is_silent [Scalar TInt 5] TDouble [TBool] 1 [x07; x08; x09]).
  - repeat constructor; vm_compute; congruence.
  - cbn. lia.
Defined.

(** X3. A string read from a binary source that is exhausted or has
    failed takes its length from the variable [len], which nothing was
    read into: the destination is resized to whatever [len] held, or
    [resize] throws when that is negative; the stream is not looked
    at. *)
Theorem binary_string_after_the_end (junk : Z) (str : list byte) (i : istream byte) :
  failed i = true \/ pending i = [] ->
  exists i',
    read_string junk str i
      = (string_resize x00 (size_t_wrap (int_value junk)) str, i') /\
    failed i' = true /\ pending i' = pending i.
Proof.
  intros Hi. unfold read_string.
  assert (exists i1, Read TInt junk i = (untouched junk TInt, i1) /\
                     failed i1 = true /\ pending i1 = pending i) as (i1 & -> & Hf1 & Hp1).
  { destruct (failed i) eqn:Hf.
    - exists i. now rewrite (Read_failed TInt junk i Hf).
    - destruct Hi as [Hi|Hi]; [discriminate|]. destruct i as [p f]. cbn in *. subst.
      exists (mkIn [] true). now rewrite Read_at_end. }
  exists i1. cbn [untouched sc_bits sizeof].
  assert (Hv : int_value (junk mod 2 ^ (8 * Z.of_nat 4)) = int_value junk).
  { unfold int_value. change (2 ^ (8 * Z.of_nat 4)) with (2 ^ 32).
    now rewrite Z.mod_mod by lia. }
  rewrite Hv.
  destruct (string_resize x00 (size_t_wrap (int_value junk)) str) as [e|str1]; [auto|].
  case_decide; [|auto].
  rewrite (stream_read_failed _ _ Hf1), overwrite_nil. auto.
Qed.

Lemma binary_string_after_the_end_witness :
  exists i',
    read_string 3 [x61] (mkIn [] false)
      = (string_resize x00 (size_t_wrap (int_value 3)) [x61], i') /\
    failed i' = true /\ pending i' = pending (mkIn [] false).
Proof.
  apply (binary_string_after_the_end 3 [x61] (mkIn [] false)). right. reflexivity.
Defined.

End BinaryArrays.

(** ** C strings

    The four archives also take a [char*]: null, or a pointer to a NUL
    terminated array.  The length goes out as a [long], -1 for the null
    pointer, followed by the characters without the NUL. *)

Module CStrings.
Import BinaryOut BinaryIn.

(** [strlen]: the number of characters in front of the first NUL.  An
    array that holds none is read past its end, which is undefined
    behaviour ([None]). *)
Fixpoint strlen {C} (is_nul : C -> bool) (arr : list C) : option nat :=
  match arr with
  | [] => None
  | c :: cs => if is_nul c then Some 0%nat else S <$> strlen is_nul cs
  end.

Definition byte_is_nul (b : byte) : bool := Byte.eqb b x00.
Definition char_is_nul (c : ascii) : bool := Ascii.eqb c TextCodec.NUL.

(** [long len = str ? strlen (str) : -1;] *)
Definition cstring_length {C} (is_nul : C -> bool) (str : option (list C)) : option Z :=
  match str with
  | None => Some (-1)
  | Some arr => n ← strlen is_nul arr; Some (long_value (Z.of_nat n))
  end.

(** [BinaryOutArchive::operator & (char *& str)] *)
Definition binary_write (str : option (list byte)) (a : BinaryOutArchive)
  : option BinaryOutArchive :=
  len ← cstring_length byte_is_nul str;
  a1 ← write_scalar (Scalar TLong (long_bits len)) a;
  let a2 := FlushBuffer a1 in
  Some (if decide (len > 0) then
          {| buffer := buffer a2; ptr := ptr a2;
             stream := stream a2 ++ take (Z.to_nat len) (default [] str) |}
        else a2).

(** [new char[n]] for a [long n].  A negative [n] is, as a [size_t],
    more than any array can hold, and the expression throws.  Any other
    allocation is taken to succeed; the new array holds whatever
    [fresh] stands for. *)
Inductive new_exception := bad_array_new_length.

Definition new_array {C} (fresh : nat -> C) (n : Z) : new_exception + list C :=
  if decide (n < 0) then inl bad_array_new_length
  else inr (map fresh (seq 0 (Z.to_nat n))).

(** [len + 1] in [long]. *)
Definition succ_long (len : Z) : Z := long_value (long_bits (len + 1)).

(** [BinaryInArchive::operator & (char *& str)]; [len] is declared
    without a value, [junk] is what it happens to hold. *)
Definition binary_read (junk : Z) (fresh : nat -> byte) (i : istream byte)
  : (new_exception + option (list byte)) * istream byte :=
  let '(x, i1) := Read TLong junk i in
  let len := long_value (sc_bits x) in
  if decide (len = -1) then (inr None, i1)
  else
    match new_array fresh (succ_long len) with
    | inl e => (inl e, i1)
    | inr arr =>
        let '(bs, i2) := stream_read len i1 in
        (inr (Some (<[Z.to_nat len := x00]> (overwrite arr bs))), i2)
    end.

(** [TextOutArchive::operator & (char *& str)] *)
Definition text_write (str : option (list ascii)) (out : list ascii) : option (list ascii) :=
  len ← cstring_length char_is_nul str;
  let out1 := TextCodec.write_scalar (Scalar TLong (long_bits len)) out in
  Some (if decide (len > 0) then
          out1 ++ take (Z.to_nat len) (default [] str) ++ [TextCodec.newline]
        else out1).

(** [TextInArchive::operator & (char *& str)]; [len] and [ch] are
    declared without a value. *)
Definition text_read (junk : Z) (junk_c : ascii) (fresh : nat -> ascii) (i : istream ascii)
  : (new_exception + option (list ascii)) * istream ascii :=
  let '(x, i1) := TextCodec.read_scalar TLong junk junk junk_c i in
  let len := long_value (sc_bits x) in
  if decide (len = -1) then (inr None, i1)
  else
    match new_array fresh (succ_long len) with
    | inl e => (inl e, i1)
    | inr arr =>
        if decide (len <> 0) then
          let '(_, i2) := TextCodec.get_char junk_c i1 in
          let '(arr', i3) := TextCodec.get_into (len + 1) TextCodec.NUL arr i2 in
          (inr (Some (<[Z.to_nat len := TextCodec.NUL]> arr')), i3)
        else (inr (Some (<[Z.to_nat len := TextCodec.NUL]> arr)), i1)
    end.

(** The string a [char*] stands for: the characters up to the first
    NUL, and the NUL. *)
Definition c_str {C} (is_nul : C -> bool) (nul : C) (str : option (list C))
  : option (list C) :=
  arr ← str; n ← strlen is_nul arr; Some (take n arr ++ [nul]).

Lemma strlen_spec {C} (is_nul : C -> bool) arr n :
  strlen is_nul arr = Some n ->
  (n < length arr)%nat /\ Forall (fun c => is_nul c = false) (take n arr).
Proof.
  revert n. induction arr as [|c cs IH]; intros n H; [discriminate|].
  cbn [strlen] in H. destruct (is_nul c) eqn:Hc.
  - injection H as <-. cbn. split; [lia|constructor].
  - destruct (strlen is_nul cs) as [m|]; [|discriminate]. injection H as <-.
    destruct (IH m eq_refl) as [Hl Hf]. cbn. split; [lia|]. now constructor.
Qed.

Lemma long_value_small n : 0 <= n < 2 ^ 63 -> long_value n = n.
Proof.
  intros Hn. unfold long_value. rewrite Z.mod_small by lia. now rewrite decide_True by lia.
Qed.

Lemma long_value_bits v : - 2 ^ 63 <= v < 2 ^ 63 -> long_value (long_bits v) = v.
Proof.
  intros Hv. unfold long_value, long_bits. rewrite Z.mod_mod by lia.
  destruct (decide (0 <= v)).
  - rewrite Z.mod_small by lia. now rewrite decide_True by lia.
  - assert (Hm : v mod 2 ^ 64 = v + 2 ^ 64).
    { rewrite <- (Z.mod_add _ 1) by lia. apply Z.mod_small. lia. }
    rewrite Hm. rewrite decide_False by lia. lia.
Qed.

Lemma long_bits_range v : 0 <= long_bits v < 2 ^ (8 * Z.of_nat (sizeof TLong)).
Proof. unfold long_bits. apply Z.mod_pos_bound. reflexivity. Qed.

Lemma new_array_length {C} (fresh : nat -> C) n :
  0 <= n -> exists arr, new_array fresh n = inr arr /\ length arr = Z.to_nat n.
Proof.
  intros Hn. unfold new_array. rewrite decide_False by lia.
  eexists. split; [reflexivity|]. now rewrite length_map, length_seq.
Qed.

(** What the binary writer delivers for a [char*]. *)
Definition binary_record (str : option (list byte)) : list byte :=
  match str with
  | None => repr (Scalar TLong (long_bits (-1)))
  | Some arr =>
      let n := default 0%nat (strlen byte_is_nul arr) in
      repr (Scalar TLong (long_bits (Z.of_nat n))) ++ take n arr
  end.

Lemma binary_write_delivered str a :
  buffer_ok a ->
  match str with Some arr => is_Some (strlen byte_is_nul arr) | None => True end ->
  match str with
  | Some arr => Z.of_nat (default 0%nat (strlen byte_is_nul arr)) < 2 ^ 63
  | None => True
  end ->
  exists a', binary_write str a = Some a' /\ buffer_ok a' /\
             delivered a' = delivered a ++ binary_record str.
Proof.
  intros Hok Hnul Hlen. unfold binary_write.
  assert (exists len, cstring_length byte_is_nul str = Some len /\
            binary_record str
            = repr (Scalar TLong (long_bits len))
              ++ (if decide (len > 0) then take (Z.to_nat len) (default [] str) else []))
    as (len & Hcl & Hrec).
  { destruct str as [arr|]; cbn [cstring_length].
    - destruct Hnul as [n Hn]. rewrite Hn in *. cbn [default from_option id mbind option_bind] in *.
      rewrite long_value_small by lia. eexists. split; [reflexivity|].
      unfold binary_record. rewrite Hn. cbn [default from_option id]. f_equal.
      case_decide; [now rewrite Nat2Z.id|].
      assert (n = 0%nat) as -> by lia. reflexivity.
    - eexists. split; [reflexivity|]. unfold binary_record.
      rewrite decide_False by lia. now rewrite app_nil_r. }
  rewrite Hcl, Hrec. clear Hcl Hrec Hnul Hlen. cbn [mbind option_bind].
  destruct (Write_step (repr (Scalar TLong (long_bits len))) a Hok (repr_fits _))
    as (a1 & Hw & Hok1 & Hd1).
  unfold write_scalar. rewrite Hw. cbn [mbind option_bind].
  pose proof (FlushBuffer_ok a1 Hok1) as Hok2.
  pose proof (FlushBuffer_delivered a1 Hok1) as Hd2.
  assert (Hp : ptr (FlushBuffer a1) = 0).
  { unfold FlushBuffer. case_decide; [reflexivity|]. destruct Hok1 as [_ Hp]. lia. }
  eexists. split; [reflexivity|]. case_decide.
  - split; [exact Hok2|].
    unfold delivered in *. cbn [stream ptr buffer]. rewrite Hp in *. cbn [Z.to_nat take] in *.
    rewrite app_nil_r in *. rewrite Hd2, Hd1. now rewrite <- app_assoc.
  - split; [exact Hok2|]. rewrite Hd2, Hd1. now rewrite app_nil_r.
Qed.

Lemma binary_record_back junk fresh str rest :
  match str with Some arr => is_Some (strlen byte_is_nul arr) | None => True end ->
  match str with
  | Some arr => Z.of_nat (default 0%nat (strlen byte_is_nul arr)) < 2 ^ 63 - 1
  | None => True
  end ->
  binary_read junk fresh (mkIn (binary_record str ++ rest) false)
  = (inr (c_str byte_is_nul x00 str), mkIn rest false).
Proof.
  intros Hnul Hlen. unfold binary_read, binary_record.
  destruct str as [arr|].
  - destruct Hnul as [n Hn]. rewrite Hn in *. cbn [default from_option id] in *.
    destruct (strlen_spec _ _ _ Hn) as [Hl _].
    rewrite <- app_assoc.
    pose proof (Read_repr (Scalar TLong (long_bits (Z.of_nat n))) junk (take n arr ++ rest)
                  (long_bits_range _)) as Hrd.
    cbn [sc_type] in Hrd. rewrite Hrd. cbn [sc_bits].
    rewrite long_value_bits by lia. rewrite decide_False by lia.
    unfold succ_long. rewrite long_value_bits by lia.
    destruct (new_array_length fresh (Z.of_nat n + 1) ltac:(lia)) as (new & -> & Hnew).
    assert (Hn' : Z.of_nat n = Z.of_nat (length (take n arr)))
      by (rewrite length_take; lia).
    rewrite Hn' at 1. rewrite stream_read_exact.
    unfold c_str. cbn [mbind option_bind]. rewrite Hn. cbn [mbind option_bind].
    do 3 f_equal. unfold overwrite. rewrite Nat2Z.id.
    rewrite insert_app_r_alt by (rewrite length_take; lia).
    f_equal. rewrite length_take, Nat.min_l by lia. rewrite Nat.sub_diag.
    destruct (drop n new) as [|b bs] eqn:Hdrop.
    + apply (f_equal length) in Hdrop. rewrite length_drop in Hdrop. cbn in Hdrop. lia.
    + apply (f_equal length) in Hdrop. rewrite length_drop in Hdrop. cbn in Hdrop.
      destruct bs; [reflexivity|cbn in Hdrop; lia].
  - pose proof (Read_repr (Scalar TLong (long_bits (-1))) junk rest (long_bits_range _)) as Hrd.
    cbn [sc_type] in Hrd. rewrite Hrd. cbn [sc_bits].
    rewrite long_value_bits by lia. rewrite decide_True by reflexivity. reflexivity.
Qed.

(** X4. A [char*] comes back through the binary codec pair: the null
    pointer as the null pointer, a string as a new array that holds its
    characters and the NUL; the reader is left in front of whatever
    follows. *)
Theorem binary_cstring_round_trip (junk : Z) (fresh : nat -> byte)
    (str : option (list byte)) (rest : list byte) :
  match str with Some arr => is_Some (strlen byte_is_nul arr) | None => True end ->
  match str with
  | Some arr => Z.of_nat (default 0%nat (strlen byte_is_nul arr)) < 2 ^ 63 - 1
  | None => True
  end ->
  exists a,
    binary_write str create = Some a /\
    binary_read junk fresh (mkIn (stream (FlushBuffer a) ++ rest) false)
    = (inr (c_str byte_is_nul x00 str), mkIn rest false).
Proof.
  intros Hnul Hlen.
  destruct (binary_write_delivered str create create_ok Hnul) as (a & Hw & Hok & Hd).
  { destruct str; [lia|exact I]. }
  exists a. split; [exact Hw|].
  rewrite (FlushBuffer_stream a Hok), Hd.
  unfold delivered at 1. cbn [create stream ptr Z.to_nat take app].
  now apply binary_record_back.
Qed.

Lemma binary_cstring_round_trip_witness :
  exists a,
    binary_write (Some [x68; x69; x00; x21]) create = Some a /\
    binary_read 0 (fun _ => x2a) (mkIn (stream (FlushBuffer a) ++ [x07]) false)
    = (inr (c_str byte_is_nul x00 (Some [x68; x69; x00; x21])), mkIn [x07] false).
Proof.
  apply (binary_cstring_round_trip 0 (fun _ => x2a) (Some [x68; x69; x00; x21]) [x07]).
  - vm_compute. eauto.
  - vm_compute. reflexivity.
Defined.

(** What the text writer appends for a [char*]. *)
Definition text_record (str : option (list ascii)) : list ascii :=
  match str with
  | None => TextCodec.print_integer (-1) ++ [TextCodec.newline]
  | Some arr =>
      let n := default 0%nat (strlen char_is_nul arr) in
      TextCodec.print_integer (Z.of_nat n) ++ [TextCodec.newline]
      ++ (if decide (n = 0%nat) then [] else take n arr ++ [TextCodec.newline])
  end.

Lemma text_write_record str out :
  match str with Some arr => is_Some (strlen char_is_nul arr) | None => True end ->
  match str with
  | Some arr => Z.of_nat (default 0%nat (strlen char_is_nul arr)) < 2 ^ 63 - 1
  | None => True
  end ->
  text_write str out = Some (out ++ text_record str).
Proof.
  intros Hnul Hlen. unfold text_write, text_record, TextCodec.write_scalar, TextCodec.print_scalar.
  destruct str as [arr|]; cbn [cstring_length sc_type sc_bits].
  - destruct Hnul as [n Hn]. rewrite Hn in *. cbn [default from_option id mbind option_bind] in *.
    rewrite long_value_small by lia. rewrite long_value_bits by lia.
    f_equal. case_decide; case_decide; try lia.
    + rewrite Nat2Z.id, <- !app_assoc. reflexivity.
    + now rewrite app_nil_r.
  - cbn [mbind option_bind]. rewrite long_value_bits by lia.
    rewrite decide_False by lia. reflexivity.
Qed.

Lemma is_nul_false c : char_is_nul c = false -> c <> TextCodec.NUL.
Proof. unfold char_is_nul. intros H ->. now rewrite Ascii.eqb_refl in H. Qed.

Lemma long_scalar_wf v : scalar_wf (Scalar TLong (long_bits v)).
Proof. split; [apply long_bits_range|discriminate]. Qed.

Lemma read_long_back old junk junk_c ws v rest :
  - 2 ^ 63 <= v < 2 ^ 63 ->
  Forall (fun c => TextCodec.is_space c = true) ws ->
  TextCodec.read_scalar TLong old junk junk_c
    (mkIn (ws ++ TextCodec.print_integer v ++ TextCodec.newline :: rest) false)
  = (Scalar TLong (long_bits v), mkIn (TextCodec.newline :: rest) false).
Proof.
  intros Hv Hws.
  pose proof (TextCodec.read_written_scalar (Scalar TLong (long_bits v)) old junk junk_c ws rest
                (long_scalar_wf v) ltac:(discriminate) Hws) as H.
  unfold TextCodec.print_scalar in H. cbn [sc_type sc_bits] in H.
  now rewrite long_value_bits in H by exact Hv.
Qed.

Lemma text_record_back junk junk_c fresh str ws rest :
  match str with Some arr => is_Some (strlen char_is_nul arr) | None => True end ->
  match str with
  | Some arr => Z.of_nat (default 0%nat (strlen char_is_nul arr)) < 2 ^ 63 - 1
  | None => True
  end ->
  Forall (fun c => TextCodec.is_space c = true) ws ->
  text_read junk junk_c fresh (mkIn (ws ++ text_record str ++ rest) false)
  = (inr (c_str char_is_nul TextCodec.NUL str), mkIn (TextCodec.newline :: rest) false).
Proof.
  intros Hnul Hlen Hws. unfold text_read, text_record.
  destruct str as [arr|].
  - destruct Hnul as [n Hn]. rewrite Hn in *. cbn [default from_option id] in *.
    destruct (strlen_spec _ _ _ Hn) as [Hl Hnn].
    rewrite <- !app_assoc. cbn [app].
    rewrite read_long_back by (lia || exact Hws). cbn [sc_bits].
    rewrite long_value_bits by lia. rewrite decide_False by lia.
    unfold succ_long. rewrite long_value_bits by lia.
    destruct (new_array_length fresh (Z.of_nat n + 1) ltac:(lia)) as (new & -> & Hnew).
    unfold c_str. cbn [mbind option_bind]. rewrite Hn. cbn [mbind option_bind].
    destruct (decide (n = 0%nat)) as [Hz|Hz].
    + rewrite decide_False by lia. subst n. cbn [take app Z.of_nat Z.to_nat].
      destruct new as [|c [|c' new]]; cbn in Hnew; try lia. reflexivity.
    + rewrite decide_True by lia.
      unfold TextCodec.get_char. cbn [failed pending].
      unfold TextCodec.get_into. cbn [failed pending].
      replace (Z.to_nat (Z.of_nat n + 1 - 1)) with (length (take n arr))
        by (rewrite length_take; lia).
      rewrite <- app_assoc. cbn [app].
      rewrite TextCodec.take_until_all.
      2:{ eapply Forall_impl; [exact Hnn|]. intros c. apply is_nul_false. }
      assert (Hxs : length (take n arr) = n) by (rewrite length_take; lia).
      rewrite Hxs, Hnew.
      replace (Z.to_nat (Z.of_nat n + 1)) with (S n) by lia.
      rewrite drop_ge by lia.
      replace (S n) with (length (take n arr ++ [TextCodec.NUL]))
        by (rewrite length_app, Hxs; cbn; lia).
      rewrite firstn_all. rewrite Nat2Z.id.
      rewrite insert_app_r_alt by lia. rewrite Hxs, Nat.sub_diag. cbn [insert list_insert].
      destruct (take n arr) as [|c cs] eqn:Ht; [cbn in Hxs; lia|].
      cbn [orb andb]. reflexivity.
  - cbn [app]. rewrite <- app_assoc. cbn [app].
    rewrite read_long_back by (lia || exact Hws). cbn [sc_bits].
    rewrite long_value_bits by lia. rewrite decide_True by reflexivity. reflexivity.
Qed.

(** X5. A [char*] comes back through the text codec pair, whatever
    white space the reader starts in front of: the null pointer as the
    null pointer, a string as a new array that holds its characters and
    the NUL.  The reader is left in front of the newline that ends the
    record. *)
Theorem text_cstring_round_trip (junk : Z) (junk_c : ascii) (fresh : nat -> ascii)
    (str : option (list ascii)) (ws rest : list ascii) :
  match str with Some arr => is_Some (strlen char_is_nul arr) | None => True end ->
  match str with
  | Some arr => Z.of_nat (default 0%nat (strlen char_is_nul arr)) < 2 ^ 63 - 1
  | None => True
  end ->
  Forall (fun c => TextCodec.is_space c = true) ws ->
  exists out,
    text_write str [] = Some out /\
    text_read junk junk_c fresh (mkIn (ws ++ out ++ rest) false)
    = (inr (c_str char_is_nul TextCodec.NUL str), mkIn (TextCodec.newline :: rest) false).
Proof.
  intros Hnul Hlen Hws. exists (text_record str).
  split; [now rewrite text_write_record|]. now apply text_record_back.
Qed.

Lemma text_cstring_round_trip_witness :
  exists out,
    text_write (Some (list_ascii_of_string "a b" ++ [TextCodec.NUL])) [] = Some out /\
    text_read 0 "x" (fun _ => "?"%char)
      (mkIn ([TextCodec.newline] ++ out ++ list_ascii_of_string "t") false)
    = (inr (c_str char_is_nul TextCodec.NUL
              (Some (list_ascii_of_string "a b" ++ [TextCodec.NUL]))),
       mkIn (TextCodec.newline :: list_ascii_of_string "t") false).
Proof.
  apply (text_cstring_round_trip 0 "x" (fun _ => "?"%char)
           (Some (list_ascii_of_string "a b" ++ [TextCodec.NUL]))
           [TextCodec.newline] (list_ascii_of_string "t")).
  - vm_compute. eauto.
  - vm_compute. reflexivity.
  - repeat constructor.
Defined.

End CStrings.

(** ** Whole sessions of primitives

    What a [DoArchive] without pointers amounts to: scalars, strings
    and C strings archived one after the other, and read back by the
    same calls in the same order. *)

Module Sessions.

Inductive item (C : Type) :=
| IScalar (x : scalar)
| IString (s : list C)
| ICString (p : option (list C)).
Arguments IScalar {C} x.
Arguments IString {C} s.
Arguments ICString {C} p.

(** The overload a reading call resolves to. *)
Inductive item_kind := KScalar (t : ctype) | KString | KCString.

Definition kind_of {C} (it : item C) : item_kind :=
  match it with
  | IScalar x => KScalar (sc_type x)
  | IString _ => KString
  | ICString _ => KCString
  end.

(** What the standard library throws out of a reading call. *)
Inductive thrown := Length (e : std_exception) | Alloc (e : CStrings.new_exception).

Definition result_of {E A B} (inj : E -> thrown) (f : A -> B) (r : E + A) : thrown + B :=
  match r with inl e => inl (inj e) | inr a => inr (f a) end.

(** *** Text *)

Definition text_write_item (it : item ascii) (out : list ascii) : option (list ascii) :=
  match it with
  | IScalar x => Some (TextCodec.write_scalar x out)
  | IString s => Some (TextCodec.write_string s out)
  | ICString p => CStrings.text_write p out
  end.

Fixpoint text_write_items (its : list (item ascii)) (out : list ascii) : option (list ascii) :=
  match its with
  | [] => Some out
  | it :: its' => out' ← text_write_item it out; text_write_items its' out'
  end.

Section Reading.

(* what the variables read into, the locals declared without a value
   and the fresh arrays hold *)
Variables (old junk : Z) (junk_c : ascii).

Definition text_read_item (fresh : nat -> ascii) (dest : list ascii) (k : item_kind)
    (i : istream ascii) : (thrown + item ascii) * istream ascii :=
  match k with
  | KScalar t =>
      let '(x, i') := TextCodec.read_scalar t old junk junk_c i in (inr (IScalar x), i')
  | KString =>
      let '(r, i') := TextCodec.read_string junk junk_c dest i in
      (result_of Length IString r, i')
  | KCString =>
      let '(r, i') := CStrings.text_read junk junk_c fresh i in
      (result_of Alloc ICString r, i')
  end.

(** The calls in order; an exception ends the session. *)
Fixpoint read_items {C} (rd : item_kind -> istream C -> (thrown + item C) * istream C)
    (ks : list item_kind) (i : istream C) : (thrown + list (item C)) * istream C :=
  match ks with
  | [] => (inr [], i)
  | k :: ks' =>
      match rd k i with
      | (inl e, i') => (inl e, i')
      | (inr it, i') =>
          match read_items rd ks' i' with
          | (inl e, i'') => (inl e, i'')
          | (inr its, i'') => (inr (it :: its), i'')
          end
      end
  end.

(** *** Binary *)

Definition binary_read_item (fresh : nat -> byte) (dest : list byte) (k : item_kind)
    (i : istream byte) : (thrown + item byte) * istream byte :=
  match k with
  | KScalar t => let '(x, i') := BinaryIn.Read t old i in (inr (IScalar x), i')
  | KString =>
      let '(r, i') := BinaryIn.read_string junk dest i in (result_of Length IString r, i')
  | KCString =>
      let '(r, i') := CStrings.binary_read junk fresh i in (result_of Alloc ICString r, i')
  end.

End Reading.

(** A writing caller archives an item or flushes. *)
Inductive call := Archive_item (it : item byte) | Flush_buffer.

Definition binary_write_item (it : item byte) (a : BinaryOut.BinaryOutArchive)
  : option BinaryOut.BinaryOutArchive :=
  match it with
  | IScalar x => BinaryOut.write_scalar x a
  | IString s => BinaryOut.write_string s a
  | ICString p => CStrings.binary_write p a
  end.

Fixpoint binary_run (cs : list call) (a : BinaryOut.BinaryOutArchive)
  : option BinaryOut.BinaryOutArchive :=
  match cs with
  | [] => Some a
  | Archive_item it :: cs' => a' ← binary_write_item it a; binary_run cs' a'
  | Flush_buffer :: cs' => binary_run cs' (BinaryOut.FlushBuffer a)
  end.

(** Construct, run the calls, destroy. *)
Definition binary_session (cs : list call) : option (list byte) :=
  a ← binary_run cs BinaryOut.create; Some (BinaryOut.stream (BinaryOut.FlushBuffer a)).

Definition archived (cs : list call) : list (item byte) :=
  flat_map (fun c => match c with Archive_item it => [it] | Flush_buffer => [] end) cs.

(** *** What can be expected back *)

(** Strings are shorter than 2^31 characters; a C string ends in a NUL
    within 2^63 - 2 characters. *)
Definition item_ok {C} (is_nul : C -> bool) (it : item C) : Prop :=
  match it with
  | IScalar x => scalar_wf x
  | IString s => Z.of_nat (length s) < 2 ^ 31
  | ICString None => True
  | ICString (Some arr) =>
      exists n, CStrings.strlen is_nul arr = Some n /\ Z.of_nat n < 2 ^ 63 - 1
  end.

(** The text codec besides keeps no double and no string with a NUL
    in it, and its string reader adds 1 to the length as an [int]:
    strings are shorter than 2^31 - 1 characters. *)
Definition text_ok (it : item ascii) : Prop :=
  item_ok CStrings.char_is_nul it /\
  match it with
  | IScalar x => sc_type x <> TDouble
  | IString s =>
      Z.of_nat (length s) < 2 ^ 31 - 1 /\ Forall (fun c => c <> TextCodec.NUL) s
  | ICString _ => True
  end.

(** A C string comes back in an array of its own. *)
Definition read_back {C} (is_nul : C -> bool) (nul : C) (it : item C) : item C :=
  match it with
  | ICString p => ICString (CStrings.c_str is_nul nul p)
  | _ => it
  end.

(** What an item is written as. *)
Definition text_record (it : item ascii) : list ascii :=
  match it with
  | IScalar x => TextCodec.print_scalar x ++ [TextCodec.newline]
  | IString s => TextCodec.write_string s []
  | ICString p => CStrings.text_record p
  end.

Definition binary_record (it : item byte) : list byte :=
  match it with
  | IScalar x => repr x
  | IString s => BinaryOut.string_record s
  | ICString p => CStrings.binary_record p
  end.

Lemma write_string_appends s out :
  TextCodec.write_string s out = out ++ TextCodec.write_string s [].
Proof.
  unfold TextCodec.write_string. cbn [app]. case_decide; now rewrite <- ?app_assoc.
Qed.

Lemma cstring_ok_parts {C} (is_nul : C -> bool) p :
  item_ok is_nul (ICString p) ->
  match p with Some arr => is_Some (CStrings.strlen is_nul arr) | None => True end /\
  match p with
  | Some arr => Z.of_nat (default 0%nat (CStrings.strlen is_nul arr)) < 2 ^ 63 - 1
  | None => True
  end.
Proof.
  destruct p as [arr|]; [|now split]. intros (n & Hn & Hl). rewrite Hn. split; [eauto|exact Hl].
Qed.

Lemma text_write_item_record it out :
  text_ok it -> text_write_item it out = Some (out ++ text_record it).
Proof.
  intros [Hok _]. destruct it as [x|s|p]; cbn [text_write_item text_record].
  - reflexivity.
  - now rewrite write_string_appends.
  - destruct (cstring_ok_parts _ p Hok). now apply CStrings.text_write_record.
Qed.

(** A string read with more of the source behind it. *)
Lemma text_string_back_more (str dest ws rest : list ascii) junk junk_c :
  Z.of_nat (length str) < 2 ^ 31 - 1 ->
  Forall (fun c => c <> TextCodec.NUL) str ->
  Forall (fun c => TextCodec.is_space c = true) ws ->
  TextCodec.read_string junk junk_c dest
    (mkIn (ws ++ TextCodec.write_string str [] ++ rest) false)
  = (inr str, mkIn (match str with [] => [] | _ => [TextCodec.newline] end ++ rest) false).
Proof.
  intros Hlen Hnul Hws. unfold TextCodec.read_string, TextCodec.write_string.
  rewrite TextCodec.int_value_small by lia. cbn [app].
  destruct (TextCodec.string_resize_length TextCodec.NUL (Z.of_nat (length str)) dest
              ltac:(lia)) as (str1 & Hres & Hl1).
  case_decide as Hz.
  - rewrite <- !app_assoc. cbn [app].
    rewrite TextCodec.extract_printed_integer by (lia || assumption || reflexivity).
    unfold TextCodec.get_char. cbn [failed pending]. rewrite Hres.
    rewrite decide_True by exact Hz.
    rewrite TextCodec.succ_int_small by lia.
    unfold TextCodec.get_into. cbn [failed pending].
    replace (Z.to_nat (Z.of_nat (length str) + 1 - 1)) with (length str) by lia.
    rewrite Nat2Z.id, firstn_all.
    rewrite (TextCodec.take_until_all TextCodec.NUL str (TextCodec.newline :: rest) Hnul).
    rewrite Hl1, Nat2Z.id, take_app_length.
    destruct str; [cbn in Hz; lia|reflexivity].
  - destruct str; [|cbn in Hz; lia]. cbn [length] in *.
    rewrite <- !app_assoc. cbn [app].
    rewrite TextCodec.extract_printed_integer by (lia || assumption || reflexivity).
    unfold TextCodec.get_char. cbn [failed pending]. rewrite Hres.
    destruct str1; [reflexivity|cbn in Hl1; lia].
Qed.

(** What a reading call leaves unread of the record: the newline that
    ends it, except after an empty string. *)
Definition unread (it : item ascii) : list ascii :=
  match it with
  | IString [] => []
  | _ => [TextCodec.newline]
  end.

Lemma unread_space it : Forall (fun c => TextCodec.is_space c = true) (unread it).
Proof. destruct it as [x|[|c s]|p]; repeat constructor. Qed.

Lemma text_item_back old junk junk_c fresh dest it ws rest :
  text_ok it -> Forall (fun c => TextCodec.is_space c = true) ws ->
  text_read_item old junk junk_c fresh dest (kind_of it)
    (mkIn (ws ++ text_record it ++ rest) false)
  = (inr (read_back CStrings.char_is_nul TextCodec.NUL it), mkIn (unread it ++ rest) false).
Proof.
  intros [Hok Htxt] Hws.
  destruct it as [x|s|p]; cbn [kind_of text_read_item text_record read_back].
  - rewrite <- app_assoc. cbn [app].
    now rewrite (TextCodec.read_written_scalar x old junk junk_c ws rest Hok Htxt Hws).
  - destruct Htxt as [Hlen Hnul].
    rewrite (text_string_back_more s dest ws rest junk junk_c Hlen Hnul Hws).
    now destruct s.
  - destruct (cstring_ok_parts _ p Hok) as [H1 H2].
    now rewrite (CStrings.text_record_back junk junk_c fresh p ws rest H1 H2 Hws).
Qed.

Lemma text_items_back old junk junk_c fresh dest its out ws rest :
  Forall text_ok its -> Forall (fun c => TextCodec.is_space c = true) ws ->
  exists txt ws',
    text_write_items its out = Some (out ++ txt) /\
    Forall (fun c => TextCodec.is_space c = true) ws' /\
    read_items (text_read_item old junk junk_c fresh dest) (map kind_of its)
      (mkIn (ws ++ txt ++ rest) false)
    = (inr (map (read_back CStrings.char_is_nul TextCodec.NUL) its), mkIn (ws' ++ rest) false).
Proof.
  intros Hits. revert out ws. induction Hits as [|it its Hit _ IH]; intros out ws Hws.
  - exists [], ws. cbn. rewrite app_nil_r. auto.
  - destruct (IH (out ++ text_record it) (unread it) (unread_space it))
      as (txt & ws' & Hw & Hws' & Hr).
    exists (text_record it ++ txt), ws'.
    cbn [text_write_items map read_items].
    rewrite (text_write_item_record it out Hit). cbn [mbind option_bind].
    rewrite Hw, <- !app_assoc. split; [reflexivity|]. split; [exact Hws'|].
    rewrite (text_item_back old junk junk_c fresh dest it ws (txt ++ rest) Hit Hws).
    now rewrite Hr.
Qed.

(** X6. A session of scalars other than doubles, strings without a
    NUL that are shorter than 2^31 - 1 characters, and C strings (null,
    or ended by a NUL within 2^63 - 2 characters), written by the text
    codec in any order, is read
    back item for item by the same calls: each read skips the newline
    the one before it left and stops inside its own record.  The
    reader ends in front of whatever followed the session, after at
    most white space. *)
Theorem text_session_round_trip (old junk : Z) (junk_c : ascii) (fresh : nat -> ascii)
    (dest : list ascii) (its : list (item ascii)) (rest : list ascii) :
  Forall text_ok its ->
  exists out ws',
    text_write_items its [] = Some out /\
    Forall (fun c => TextCodec.is_space c = true) ws' /\
    read_items (text_read_item old junk junk_c fresh dest) (map kind_of its)
      (mkIn (out ++ rest) false)
    = (inr (map (read_back CStrings.char_is_nul TextCodec.NUL) its), mkIn (ws' ++ rest) false).
Proof.
  intros Hits.
  destruct (text_items_back old junk junk_c fresh dest its [] [] rest Hits ltac:(constructor))
    as (txt & ws' & Hw & Hws' & Hr).
  exists txt, ws'. auto.
Qed.

Definition sample_text_items : list (item ascii) :=
  [IString (list_ascii_of_string "12"); IScalar (Scalar TInt 5); IString [];
   ICString (Some (list_ascii_of_string " x" ++ [TextCodec.NUL])); IScalar (Scalar TBool 1);
   ICString None; IString (list_ascii_of_string "t")].

Lemma text_session_round_trip_witness :
  exists out ws',
    text_write_items sample_text_items [] = Some out /\
    Forall (fun c => TextCodec.is_space c = true) ws' /\
    read_items (text_read_item 0 0 "x" (fun _ => "?"%char) []) (map kind_of sample_text_items)
      (mkIn (out ++ []) false)
    = (inr (map (read_back CStrings.char_is_nul TextCodec.NUL) sample_text_items),
       mkIn (ws' ++ []) false).
Proof.
  apply (text_session_round_trip 0 0 "x" (fun _ => "?"%char) [] sample_text_items []).
  unfold sample_text_items.
  repeat (apply List.Forall_cons; [split|]); [.. | apply List.Forall_nil].
  all: cbn [item_ok].
  all: try exact I.
  all: try discriminate.
  all: try (exists 2%nat; split; [reflexivity|reflexivity]).
  all: try (split; [split; [discriminate|reflexivity]|discriminate]).
  all: try reflexivity.
  all: repeat constructor; discriminate.
Defined.

Lemma binary_write_item_delivered it a :
  BinaryOut.buffer_ok a -> item_ok CStrings.byte_is_nul it ->
  exists a', binary_write_item it a = Some a' /\ BinaryOut.buffer_ok a' /\
             BinaryOut.delivered a' = BinaryOut.delivered a ++ binary_record it.
Proof.
  intros Hok Hit. destruct it as [x|s|p]; cbn [binary_write_item binary_record].
  - apply BinaryOut.Write_step; [exact Hok|apply BinaryOut.repr_fits].
  - now apply BinaryOut.write_string_delivered.
  - destruct (cstring_ok_parts _ p Hit) as [H1 H2].
    apply CStrings.binary_write_delivered; [exact Hok|exact H1|].
    destruct p; [lia|exact I].
Qed.

Lemma binary_run_delivered cs a :
  BinaryOut.buffer_ok a -> Forall (item_ok CStrings.byte_is_nul) (archived cs) ->
  exists a', binary_run cs a = Some a' /\ BinaryOut.buffer_ok a' /\
             BinaryOut.delivered a'
             = BinaryOut.delivered a ++ concat (map binary_record (archived cs)).
Proof.
  revert a. induction cs as [|[it|] cs IH]; intros a Hok Hits.
  - exists a. cbn. rewrite app_nil_r. auto.
  - cbn [archived flat_map app] in Hits. inversion Hits as [|? ? Hit Hrest]; subst.
    destruct (binary_write_item_delivered it a Hok Hit) as (a1 & Hw & Hok1 & Hd1).
    destruct (IH a1 Hok1 Hrest) as (a2 & Hr & Hok2 & Hd2).
    exists a2. cbn [binary_run]. rewrite Hw. cbn [mbind option_bind].
    split; [exact Hr|]. split; [exact Hok2|].
    rewrite Hd2, Hd1. cbn [archived flat_map app map concat]. now rewrite <- app_assoc.
  - destruct (IH (BinaryOut.FlushBuffer a) (BinaryOut.FlushBuffer_ok a Hok) Hits)
      as (a2 & Hr & Hok2 & Hd2).
    exists a2. cbn [binary_run]. split; [exact Hr|]. split; [exact Hok2|].
    rewrite Hd2, BinaryOut.FlushBuffer_delivered by exact Hok. reflexivity.
Qed.

Lemma binary_item_back old junk fresh dest it rest :
  item_ok CStrings.byte_is_nul it ->
  binary_read_item old junk fresh dest (kind_of it) (mkIn (binary_record it ++ rest) false)
  = (inr (read_back CStrings.byte_is_nul x00 it), mkIn rest false).
Proof.
  intros Hit. destruct it as [x|s|p]; cbn [kind_of binary_read_item binary_record read_back].
  - destruct Hit as [Hr _]. now rewrite (BinaryIn.Read_repr x old rest Hr).
  - now rewrite (TextCodec.binary_string_back s dest rest junk Hit).
  - destruct (cstring_ok_parts _ p Hit) as [H1 H2].
    now rewrite (CStrings.binary_record_back junk fresh p rest H1 H2).
Qed.

Lemma binary_items_back old junk fresh dest its rest :
  Forall (item_ok CStrings.byte_is_nul) its ->
  read_items (binary_read_item old junk fresh dest) (map kind_of its)
    (mkIn (concat (map binary_record its) ++ rest) false)
  = (inr (map (read_back CStrings.byte_is_nul x00) its), mkIn rest false).
Proof.
  induction 1 as [|it its Hit _ IH]; [reflexivity|].
  cbn [map concat read_items]. rewrite <- app_assoc.
  rewrite (binary_item_back old junk fresh dest it _ Hit). now rewrite IH.
Qed.

(** X7. A session of scalars, strings and C strings written through
    the buffered binary archive, with the buffer flushed wherever the
    caller likes, is read back item for item by the same calls, and the
    reader stops exactly where the session ended. *)
Theorem binary_session_round_trip (old junk : Z) (fresh : nat -> byte) (dest : list byte)
    (cs : list call) (rest : list byte) :
  Forall (item_ok CStrings.byte_is_nul) (archived cs) ->
  exists bytes,
    binary_session cs = Some bytes /\
    read_items (binary_read_item old junk fresh dest) (map kind_of (archived cs))
      (mkIn (bytes ++ rest) false)
    = (inr (map (read_back CStrings.byte_is_nul x00) (archived cs)), mkIn rest false).
Proof.
  intros Hits. unfold binary_session.
  destruct (binary_run_delivered cs BinaryOut.create BinaryOut.create_ok Hits)
    as (a & Hr & Hok & Hd).
  rewrite Hr. cbn [mbind option_bind]. eexists. split; [reflexivity|].
  rewrite (BinaryOut.FlushBuffer_stream a Hok), Hd.
  unfold BinaryOut.delivered at 1. cbn [BinaryOut.create BinaryOut.stream BinaryOut.ptr
                                        Z.to_nat take app].
  now apply binary_items_back.
Qed.

Definition sample_calls : list call :=
  [Archive_item (IScalar (Scalar TDouble 4607182418800017408));
   Archive_item (IString [x68; x00; x69]); Flush_buffer;
   Archive_item (ICString (Some [x6f; x6b; x00])); Archive_item (ICString None);
   Archive_item (IString []); Archive_item (IScalar (Scalar TBool 1))].

Lemma binary_session_round_trip_witness :
  exists bytes,
    binary_session sample_calls = Some bytes /\
    read_items (binary_read_item 0 0 (fun _ => x2a) []) (map kind_of (archived sample_calls))
      (mkIn (bytes ++ [x07]) false)
    = (inr (map (read_back CStrings.byte_is_nul x00) (archived sample_calls)),
       mkIn [x07] false).
Proof.
  apply (binary_session_round_trip 0 0 (fun _ => x2a) [] sample_calls [x07]).
  unfold sample_calls. cbn [archived flat_map app].
  repeat (apply List.Forall_cons; [|]); [.. | apply List.Forall_nil].
  all: cbn [item_ok].
  all: try exact I.
  all: try (exists 2%nat; split; [reflexivity|reflexivity]).
  all: try (split; [split; [discriminate|reflexivity]|discriminate]).
  all: try reflexivity.
  all: split; [split; [discriminate|reflexivity]|intros _; reflexivity].
Defined.

End Sessions.

(** ** What the text reader does not check *)

Module TextEdges.
Import TextCodec.

(** The value a text read leaves in a variable of type [t] that held
    [old] when the stream had failed before the call: the arithmetic
    types are read in place and keep their value; an unsigned char and
    a bool are assigned from a local [int _i] and [char c] that nothing
    was read into, here [junk] and [junk_c]. *)
Definition after_failure (t : ctype) (old junk : Z) (junk_c : ascii) : scalar :=
  match t with
  | TUChar => Scalar TUChar (junk mod 2 ^ 8)
  | TBool => Scalar TBool (if Ascii.eqb junk_c "t" then 1 else 0)
  | _ => Scalar t old
  end.

Lemma signed_back m h u :
  m = 2 * h -> 0 <= u < m -> (if decide (u < h) then u else u - m) mod m = u.
Proof. intros Hm Hu. now destruct (signed_wraps m h u Hm Hu). Qed.

Lemma read_scalar_failed t old junk junk_c i :
  failed i = true -> 0 <= old < 2 ^ (8 * Z.of_nat (sizeof t)) ->
  read_scalar t old junk junk_c i = (after_failure t old junk junk_c, i).
Proof.
  intros Hf Hold.
  destruct t; cbn [sizeof] in Hold; unfold read_scalar, after_failure,
    extract_double, extract_integer, extract_char; rewrite Hf; try reflexivity.
  - unfold int_value. rewrite (Z.mod_small old) by (cbn in Hold |- *; lia).
    rewrite (signed_back (2 ^ 32) (2 ^ 31)) by (cbn in Hold |- *; lia). reflexivity.
  - unfold long_value. rewrite (Z.mod_small old) by (cbn in Hold |- *; lia).
    rewrite (signed_back (2 ^ 64) (2 ^ 63)) by (cbn in Hold |- *; lia). reflexivity.
  - rewrite Z.mod_small by (cbn in Hold |- *; lia). reflexivity.
  - unfold short_value. rewrite (Z.mod_small old) by (cbn in Hold |- *; lia).
    rewrite (signed_back (2 ^ 16) (2 ^ 15)) by (cbn in Hold |- *; lia). reflexivity.
Qed.

(** X8. Once the text source has failed, no read reports it and the
    stream stays as it is.  A double, int, long, size_t or short
    variable keeps its value, but an unsigned char or a bool is
    overwritten with a value made from a local that was never
    written. *)
Theorem text_reads_after_failure (ts : list ctype) (old junk : Z) (junk_c : ascii)
    (i : istream ascii) :
  failed i = true ->
  Forall (fun t => 0 <= old < 2 ^ (8 * Z.of_nat (sizeof t))) ts ->
  read_all ts old junk junk_c i = (map (fun t => after_failure t old junk junk_c) ts, i).
Proof.
  intros Hf. induction 1 as [|t ts Ht _ IH]; [reflexivity|].
  cbn [read_all map]. now rewrite (read_scalar_failed t old junk junk_c i Hf Ht), IH.
Qed.

Lemma text_reads_after_failure_witness :
  read_all [TInt; TBool; TUChar; TDouble] 1 511 "t" (mkIn (list_ascii_of_string "x") true)
  = (map (fun t => after_failure t 1 511 "t") [TInt; TBool; TUChar; TDouble],
     mkIn (list_ascii_of_string "x") true).
Proof.
  apply (text_reads_after_failure [TInt; TBool; TUChar; TDouble] 1 511 "t"
           (mkIn (list_ascii_of_string "x") true)).
  - reflexivity.
  - repeat constructor; vm_compute; congruence.
Defined.

(** X9. The text reader takes an unsigned char from any number in the
    range of [int], keeping its low eight bits, and a bool from any
    character at all, as false unless it is a 't'; neither read fails
    the stream. *)
Theorem text_small_types_unchecked (old junk : Z) (junk_c : ascii) :
  (forall (v : Z) (ws rest : list ascii) (c : ascii),
     - 2 ^ 31 <= v < 2 ^ 31 ->
     Forall (fun c => is_space c = true) ws -> is_digit c = false ->
     read_scalar TUChar old junk junk_c (mkIn (ws ++ print_integer v ++ c :: rest) false)
     = (Scalar TUChar (v mod 2 ^ 8), mkIn (c :: rest) false)) /\
  (forall (ws rest : list ascii) (c : ascii),
     Forall (fun c => is_space c = true) ws -> is_space c = false ->
     read_scalar TBool old junk junk_c (mkIn (ws ++ c :: rest) false)
     = (Scalar TBool (if Ascii.eqb c "t" then 1 else 0), mkIn rest false)).
Proof.
  split.
  - intros v ws rest c Hv Hws Hc. unfold read_scalar.
    now rewrite extract_printed_integer by (lia || assumption).
  - intros ws rest c Hws Hc. unfold read_scalar, extract_char. cbn [failed pending].
    rewrite skip_space_app by assumption. reflexivity.
Qed.

Lemma text_small_types_unchecked_witness :
  read_scalar TUChar 0 0 "x"
    (mkIn ([] ++ print_integer (-1) ++ newline :: list_ascii_of_string "z") false)
  = (Scalar TUChar ((-1) mod 2 ^ 8), mkIn (newline :: list_ascii_of_string "z") false) /\
  read_scalar TBool 0 0 "x" (mkIn ([newline] ++ "T"%char :: list_ascii_of_string "z") false)
  = (Scalar TBool (if Ascii.eqb "T" "t" then 1 else 0), mkIn (list_ascii_of_string "z") false).
Proof.
  destruct (text_small_types_unchecked 0 0 "x") as [Huc Hb]. split.
  - apply (Huc (-1) [] (list_ascii_of_string "z") newline); [lia|constructor|reflexivity].
  - apply (Hb [newline] (list_ascii_of_string "z") "T"%char); [repeat constructor|reflexivity].
Defined.

End TextEdges.

(** ** More of the containers *)

Module Containers.
Import Core.
Local Open Scope archive_scope.

(** [Archive& operator & (std::complex<T>& c)]: the real part, then the
    imaginary part; on input each is read into a temporary first. *)
Definition write_complex {A} (welem : A -> M unit) (c : A * A) : M unit :=
  welem c.1;; welem c.2.

Definition read_complex {A} (relem : M A) : M (A * A) :=
  re ← relem; im ← relem; ret (re, im).

(** [Archive& operator& (std::vector<bool>& v)], output and input.  The
    input loop reads into a local [bool b] and then assigns [v[i]]. *)
Definition write_vector_bool (v : list bool) : M unit :=
  put (TokSizeT (Z.of_nat (length v)));;
  archive_all (fun b => put (TokBool b)) v.

Fixpoint read_bools (v : list bool) (js : list nat) : M (list bool) :=
  match js with
  | [] => ret v
  | j :: js' =>
      b ← get_bool;
      match v !! j with
      | None => throw OutOfRange
      | Some _ => read_bools (<[j := b]> v) js'
      end
  end.

Definition read_vector_bool (max_size : Z) (v : list bool) : M (list bool) :=
  size ← get_size_t;
  v' ← resize max_size false size v;
  read_bools v' (loop_indices size).

(** What a vector of plain data is written as. *)
Definition vector_record {A} (enc : A -> list token) (v : list A) : list token :=
  TokSizeT (Z.of_nat (length v)) :: flat_map enc v.

Lemma Do_over_read {A} (P : A -> Prop) (relem : A -> M A) (enc : A -> list token)
    pre old xs rest s :
  (forall o x rest s, P x -> relem o (set_stream (enc x ++ rest) s) = (set_stream rest s, Ok x)) ->
  Forall P xs ->
  length old = length xs ->
  Do_over relem (pre ++ old) (seq (length pre) (length xs))
    (set_stream (flat_map enc xs ++ rest) s)
  = (set_stream rest s, Ok (pre ++ xs)).
Proof.
  intros Hr Hxs. revert pre old. induction Hxs as [|x xs Hx _ IH]; intros pre old Hlen.
  - destruct old; [|discriminate]. reflexivity.
  - destruct old as [|o old]; [discriminate|].
    cbn [length seq Do_over flat_map].
    rewrite lookup_app_r by lia. rewrite Nat.sub_diag. cbn [lookup list_lookup].
    rewrite <- app_assoc, (bind_ok _ _ _ _ _ (Hr o x _ s Hx)).
    rewrite insert_app_r_alt by lia. rewrite Nat.sub_diag. cbn [insert list_insert].
    replace (pre ++ x :: old) with ((pre ++ [x]) ++ old) by now rewrite <- app_assoc.
    replace (S (length pre)) with (length (pre ++ [x])) by (rewrite length_app; cbn; lia).
    rewrite IH by (cbn in Hlen; lia). now rewrite <- app_assoc.
Qed.

Lemma Do_over_write_on {A} (P : A -> Prop) (welem : A -> M unit) (enc : A -> list token)
    pre xs s :
  (forall x s, P x -> welem x s = (set_stream (stream s ++ enc x) s, Ok tt)) ->
  Forall P xs ->
  Do_over (fun x => welem x;; ret x) (pre ++ xs) (seq (length pre) (length xs)) s
  = (set_stream (stream s ++ flat_map enc xs) s, Ok (pre ++ xs)).
Proof.
  intros Hw Hxs. revert pre s. induction Hxs as [|x xs Hx _ IH]; intros pre s.
  - cbn. rewrite !app_nil_r. now rewrite set_stream_id.
  - cbn [length seq Do_over flat_map].
    rewrite lookup_app_r by lia. rewrite Nat.sub_diag. cbn [lookup list_lookup].
    rewrite bind_assoc, (bind_ok _ _ _ _ _ (Hw x s Hx)), !bind_ret.
    rewrite insert_app_r_alt by lia. rewrite Nat.sub_diag. cbn [insert list_insert].
    replace (pre ++ x :: xs) with ((pre ++ [x]) ++ xs) by now rewrite <- app_assoc.
    replace (S (length pre)) with (length (pre ++ [x])) by (rewrite length_app; cbn; lia).
    rewrite IH. cbn. now rewrite <- app_assoc.
Qed.

Lemma resize_within {A} (max_size : Z) (dflt : A) (size : Z) (v : list A) s :
  size <= max_size -> resize max_size dflt size v s = (s, Ok (resize_vector dflt size v)).
Proof. intros Hsize. unfold resize. now rewrite decide_False by lia. Qed.

(** X10. A vector that is not empty, of elements that are archived as
    plain data (writing one appends its encoding; reading one takes the
    encoding off the source and replaces whatever the destination
    element held), is written as its size and its elements in order,
    and reading that record gives the vector back whatever the
    destination held before, leaving the source in front of what
    follows.  The elements may be such vectors themselves.  The size is
    one [resize] accepts.  The empty vector is left out: [&v[0]] asks
    it for an element it does not have. *)
Theorem vector_round_trip {A} (P : A -> Prop) (welem : A -> M unit) (relem : A -> M A)
    (enc : A -> list token) (dflt : A) (max_size : Z)
    (v v0 : list A) (rest : list token) (s r : Archive) :
  (forall x s, P x -> welem x s = (set_stream (stream s ++ enc x) s, Ok tt)) ->
  (forall o x rest s, P x -> relem o (set_stream (enc x ++ rest) s) = (set_stream rest s, Ok x)) ->
  Forall P v -> v <> [] -> Z.of_nat (length v) <= max_size ->
  write_vector welem v s = (set_stream (stream s ++ vector_record enc v) s, Ok tt) /\
  read_vector relem dflt max_size v0 (set_stream (vector_record enc v ++ rest) r)
  = (set_stream rest r, Ok v).
Proof.
  intros Hw Hr Hv Hne Hmax. split.
  - unfold write_vector, vector_record, Do, loop_indices.
    rewrite bind_put, Nat2Z.id.
    destruct v as [|x0 v']; [contradiction|]. cbn [element_0]. rewrite bind_ret.
    pose proof (Do_over_write_on P welem enc [] (x0 :: v')
                  (set_stream (stream s ++ [TokSizeT (Z.of_nat (length (x0 :: v')))]) s)
                  Hw Hv) as H.
    cbn [app] in H. change (length (@nil A)) with 0%nat in H.
    rewrite (bind_ok _ _ _ _ _ H). cbn. now rewrite <- app_assoc.
  - unfold read_vector, vector_record, Do, loop_indices. cbn [app].
    rewrite (bind_ok _ _ _ _ _ (get_size_t_cons _ _ r)).
    rewrite (bind_ok _ _ _ _ _ (resize_within max_size dflt _ v0 _ Hmax)).
    pose proof (length_resize_vector dflt (Z.of_nat (length v)) v0) as Hl.
    rewrite Nat2Z.id in Hl |- *.
    destruct (resize_vector dflt (Z.of_nat (length v)) v0) as [|y0 v1] eqn:Hres.
    { destruct v; [contradiction|discriminate]. }
    cbn [element_0]. rewrite bind_ret.
    pose proof (Do_over_read P relem enc [] (y0 :: v1) v rest r Hr Hv Hl) as H.
    cbn [app] in H. change (length (@nil A)) with 0%nat in H. exact H.
Qed.

(** A vector of two vectors of ints, read into a destination whose
    elements hold vectors of other lengths. *)
Lemma vector_round_trip_witness :
  write_vector (write_vector (fun i => put (TokInt i))) [[1]; [2; 3]] (new_archive true [])
  = (set_stream
       (stream (new_archive true []) ++
        vector_record (vector_record (fun i => [TokInt i])) [[1]; [2; 3]])
       (new_archive true []), Ok tt) /\
  read_vector (read_vector (fun _ => get_int) 0 8) [] 8 [[7; 7; 7]]
    (set_stream
       (vector_record (vector_record (fun i => [TokInt i])) [[1]; [2; 3]] ++ [TokBool true])
       (new_archive false []))
  = (set_stream [TokBool true] (new_archive false []), Ok [[1]; [2; 3]]).
Proof.
  apply (vector_round_trip (fun x : list Z => x <> [] /\ Z.of_nat (length x) <= 8)
           _ _ _ [] 8 [[1]; [2; 3]] [[7; 7; 7]] [TokBool true]
           (new_archive true []) (new_archive false [])).
  - intros x s [Hne Hlen].
    apply (vector_round_trip (fun _ => True) (fun i => put (TokInt i)) (fun _ => get_int)
             (fun i => [TokInt i]) 0 8 x [] [] s s); auto.
    apply Forall_true. auto.
  - intros o x rest s [Hne Hlen].
    apply (vector_round_trip (fun _ => True) (fun i => put (TokInt i)) (fun _ => get_int)
             (fun i => [TokInt i]) 0 8 x o rest s s); auto.
    apply Forall_true. auto.
  - repeat (apply List.Forall_cons; [split; [discriminate|cbn; lia]|]). apply List.Forall_nil.
  - discriminate.
  - cbn. lia.
Defined.

(** X11. A complex number of plain data is plain data: real part,
    then imaginary part, and back in the same order. *)
Theorem complex_is_plain_data {A} (welem : A -> M unit) (relem : M A)
    (enc : A -> list token) :
  plain_data welem relem enc ->
  plain_data (write_complex welem) (read_complex relem) (fun c => enc c.1 ++ enc c.2).
Proof.
  intros [Hw Hr]. split.
  - intros [re im] s. unfold write_complex. cbn [fst snd].
    rewrite (bind_ok _ _ _ _ _ (Hw re s)), Hw. cbn. now rewrite <- app_assoc.
  - intros [re im] rest s. unfold read_complex. cbn [fst snd].
    rewrite <- app_assoc, (bind_ok _ _ _ _ _ (Hr re _ s)).
    now rewrite (bind_ok _ _ _ _ _ (Hr im _ s)).
Qed.

Lemma complex_is_plain_data_witness :
  plain_data (write_complex (fun i => put (TokInt i))) (read_complex get_int)
    (fun c => [TokInt c.1] ++ [TokInt c.2]).
Proof. apply (complex_is_plain_data _ _ _ int_plain). Defined.

Lemma read_bools_is_Do (v : list bool) (js : list nat) s :
  Forall (fun j => (j < length v)%nat) js ->
  read_bools v js s = Do_over (fun _ => get_bool) v js s.
Proof.
  revert v s. induction js as [|j js IH]; intros v s Hjs; [reflexivity|].
  inversion Hjs as [|? ? Hj Hrest]; subst. cbn [read_bools Do_over].
  destruct (lookup_lt_is_Some_2 v j Hj) as [x ->].
  unfold bind. destruct (get_bool s) as [s1 [b|f]]; [|reflexivity].
  apply IH. now rewrite length_insert.
Qed.

(** X12. A [std::vector<bool>] is written by its overload as its size
    and its elements in order, and the overload reads that record back
    to the vector, whatever the destination held before, leaving the
    source in front of what follows.  The empty vector is included:
    this overload indexes the vector inside its loops only.  The size
    is one [resize] accepts. *)
Theorem vector_bool_round_trip (max_size : Z) (v v0 : list bool) (rest : list token)
    (s r : Archive) :
  Z.of_nat (length v) <= max_size ->
  write_vector_bool v s
  = (set_stream (stream s ++ vector_record (fun b => [TokBool b]) v) s, Ok tt) /\
  read_vector_bool max_size v0
    (set_stream (vector_record (fun b => [TokBool b]) v ++ rest) r)
  = (set_stream rest r, Ok v).
Proof.
  intros Hmax. split.
  - unfold write_vector_bool, vector_record. rewrite bind_put.
    rewrite (archive_all_plain _ (fun b => [TokBool b])) by reflexivity.
    cbn. now rewrite <- app_assoc.
  - unfold read_vector_bool, vector_record, loop_indices. cbn [app].
    rewrite (bind_ok _ _ _ _ _ (get_size_t_cons _ _ r)).
    rewrite (bind_ok _ _ _ _ _ (resize_within max_size false _ v0 _ Hmax)).
    pose proof (length_resize_vector false (Z.of_nat (length v)) v0) as Hl.
    rewrite Nat2Z.id in Hl |- *.
    rewrite read_bools_is_Do
      by (apply Forall_forall; intros j Hj; apply elem_of_seq in Hj; lia).
    pose proof (Do_over_read (fun _ => True) (fun _ => get_bool) (fun b => [TokBool b]) []
                  (resize_vector false (Z.of_nat (length v)) v0) v rest r) as H.
    cbn [app] in H. change (length (@nil bool)) with 0%nat in H.
    apply H; [reflexivity|apply Forall_true; auto|exact Hl].
Qed.

Lemma vector_bool_round_trip_witness :
  write_vector_bool [] (new_archive true [])
  = (set_stream (stream (new_archive true []) ++ vector_record (fun b => [TokBool b]) [])
       (new_archive true []), Ok tt) /\
  read_vector_bool 64 [true; true]
    (set_stream (vector_record (fun b => [TokBool b]) [] ++ [TokInt 1]) (new_archive false []))
  = (set_stream [TokInt 1] (new_archive false []), Ok []).
Proof.
  apply (vector_bool_round_trip 64 [] [true; true] [TokInt 1]
           (new_archive true []) (new_archive false [])).
  cbn. lia.
Defined.

(** *** Reading a map into a map that is not empty *)

Lemma foldr_insert_union {K V} `{Countable K} (m0 : gmap K V) (l : list (K * V)) :
  foldr (fun pair acc => <[pair.1 := pair.2]> acc) m0 l = list_to_map l ∪ m0.
Proof.
  induction l as [|[k v] l IH]; cbn [foldr list_to_map fst snd].
  - now rewrite (left_id_L ∅ (∪)).
  - rewrite IH. now rewrite insert_union_l.
Qed.

Lemma insert_all_union {K V} `{Countable K} (m0 : gmap K V) (l : list (K * V)) :
  NoDup l.*1 -> insert_all m0 l = list_to_map l ∪ m0.
Proof.
  intros Hnd. rewrite insert_all_reverse, foldr_insert_union. f_equal.
  apply list_to_map_proper.
  - rewrite fmap_reverse. now rewrite reverse_Permutation.
  - apply reverse_Permutation.
Qed.

Section MapMerge.

Context {K V : Type} `{Countable K}.
Variable key_le : relation K.
Context `{!RelDecision key_le}.
Variables (wkey : K -> M unit) (rkey : M K) (enc_key : K -> list token).
Variables (wval : V -> M unit) (rval : M V) (enc_val : V -> list token).
Hypothesis key_plain : plain_data wkey rkey enc_key.
Hypothesis val_plain : plain_data wval rval enc_val.

(** X13. With keys and values archived as plain data, the destination
    of a map read is not cleared: after reading the record of [m] into
    a map [m0], the map holds every entry of [m] and, under the keys
    [m] does not have, the entries [m0] had. *)
Theorem map_read_merges (m m0 : gmap K V) (rest : list token) (s : Archive) :
  read_map rkey rval m0 (set_stream (map_record key_le enc_key enc_val m ++ rest) s)
  = (set_stream rest s, Ok (m ∪ m0)).
Proof.
  unfold map_record.
  assert (Hperm : map_iteration key_le m ≡ₚ map_to_list m) by apply merge_sort_Permutation.
  assert (Hsz : size m = length (map_iteration key_le m)).
  { rewrite Hperm. symmetry. apply length_map_to_list. }
  rewrite Hsz. cbn [app].
  rewrite (read_map_pairs wkey rkey enc_key wval rval enc_val key_plain val_plain).
  do 2 f_equal. rewrite insert_all_union.
  - f_equal. rewrite (list_to_map_proper _ (map_to_list m)).
    + apply list_to_map_to_list.
    + rewrite Hperm. apply NoDup_fst_map_to_list.
    + exact Hperm.
  - rewrite Hperm. apply NoDup_fst_map_to_list.
Qed.

End MapMerge.

Lemma map_read_merges_witness :
  read_map get_int get_string (insert_all ∅ [(1, "old"); (5, "kept")])
    (set_stream
       (map_record Z.le (fun i => [TokInt i]) (fun n => [TokString n])
          (insert_all ∅ [(2, "b"); (1, "a")]) ++ [TokBool true])
       (new_archive false []))
  = (set_stream [TokBool true] (new_archive false []),
     Ok (insert_all ∅ [(2, "b"); (1, "a")] ∪ insert_all ∅ [(1, "old"); (5, "kept")])).
Proof.
  apply (map_read_merges Z.le _ _ _ _ _ _ int_plain string_plain).
Defined.

End Containers.

(** ** More of the identity tables *)

Module Tables.
Import Core.
Local Open Scope archive_scope.

(** *** The forward tables of a write pass *)

(** No two addresses share a slot. *)
Definition slots_distinct (m : gmap addr Z) : Prop :=
  forall a b n, m !! a = Some n -> m !! b = Some n -> a = b.

(** Slot numbers lie below their counter and are not shared; the raw
    pointer table holds exactly as many addresses as slots were handed
    out, the shared handle table at most as many. *)
Definition tables_ok (s : Archive) : Prop :=
  slots_ok s /\
  slots_distinct (ptr2nr s) /\ slots_distinct (shared_ptr2nr s) /\
  Z.of_nat (size (ptr2nr s)) = ptr_count s /\
  Z.of_nat (size (shared_ptr2nr s)) <= shared_ptr_count s.

Lemma slots_distinct_insert (m : gmap addr Z) reg c :
  slots_distinct m -> (forall a n, m !! a = Some n -> n < c) ->
  slots_distinct (<[reg := c]> m).
Proof.
  intros Hd Hlt a b n Ha Hb.
  destruct (decide (reg = a)) as [Hea|Hna], (decide (reg = b)) as [Heb|Hnb].
  - congruence.
  - subst a. rewrite lookup_insert_eq in Ha. rewrite lookup_insert_ne in Hb by exact Hnb.
    injection Ha as <-. apply Hlt in Hb. lia.
  - subst b. rewrite lookup_insert_eq in Hb. rewrite lookup_insert_ne in Ha by exact Hna.
    injection Hb as <-. apply Hlt in Ha. lia.
  - rewrite lookup_insert_ne in Ha by exact Hna. rewrite lookup_insert_ne in Hb by exact Hnb.
    eapply Hd; eassumption.
Qed.

Lemma size_insert_le (m : gmap addr Z) reg c : (size (<[reg := c]> m) <= S (size m))%nat.
Proof.
  destruct (m !! reg) as [n|] eqn:Hl.
  - rewrite map_size_insert_Some by eauto. lia.
  - rewrite map_size_insert_None by exact Hl. lia.
Qed.

Lemma tables_ok_register_ptr s reg :
  tables_ok s -> ptr2nr s !! reg = None -> tables_ok (register_ptr reg s).
Proof.
  intros (Hok & Hdp & Hds & Hsp & Hss) Hnone.
  split; [now apply slots_ok_register_ptr|].
  destruct Hok as (_ & _ & Hpt & _). cbn.
  split; [|split; [exact Hds|split; [|exact Hss]]].
  - apply slots_distinct_insert; [exact Hdp|]. intros a n Ha. apply Hpt in Ha. lia.
  - rewrite map_size_insert_None by exact Hnone. lia.
Qed.

Lemma tables_ok_register_shared s reg :
  tables_ok s -> tables_ok (register_shared reg s).
Proof.
  intros (Hok & Hdp & Hds & Hsp & Hss).
  split; [now apply slots_ok_register_shared|].
  destruct Hok as (_ & _ & _ & Hst). cbn.
  split; [exact Hdp|split; [|split; [exact Hsp|]]].
  - apply slots_distinct_insert; [exact Hds|]. intros a n Ha. apply Hst in Ha. lia.
  - pose proof (size_insert_le (shared_ptr2nr s) reg (shared_ptr_count s)). lia.
Qed.

Lemma tables_ok_new out ts : tables_ok (new_archive out ts).
Proof.
  split; [apply slots_ok_new|]. cbn.
  split; [|split; [|split; [reflexivity|rewrite map_size_empty; lia]]];
    intros a b n Ha; now rewrite lookup_empty in Ha.
Qed.

(** X14. Whatever is archived in a write session, and whether or not
    the session ends in an exception, the tables stay consistent: a
    slot number belongs to one address only and lies below its
    counter, and the raw pointer table holds exactly as many addresses
    as its counter says. *)
Theorem write_tables_stay_consistent (E : Env) (fuel : nat) (vs : list value) :
  tables_ok (fst (write_session E fuel vs)).
Proof.
  unfold write_session.
  destruct (archive_all (write_value E fuel) vs (new_archive true [])) as [s r] eqn:H.
  cbn [fst]. revert H. apply (archive_all_inv tables_ok); [|apply tables_ok_new].
  intros v s0 s1 r0. apply (write_value_inv E tables_ok).
  - intros s2 t Hs2. exact Hs2.
  - intros s2 reg. apply tables_ok_register_ptr.
  - intros s2 s3 reg _ _. apply tables_ok_register_shared.
Qed.

(** *** Null handles *)

(** X15. A shared handle that holds the null pointer is written as
    the single token -2, with the tables and counters untouched, also
    when it owns a control block; read back it is the empty handle.  No
    record of a handle that holds an object starts with -2. *)
Theorem null_shared_handle (E : Env) (wptr : string -> addr -> M unit) (rptr : M addr)
    (fuel : nat) (T : string) (s : Archive) (rest : list token) (sp0 : shared_ptr) :
  (forall sp, is_output s = true -> get sp = nullptr ->
     archive_shared E wptr rptr T sp s
       = (set_stream (stream s ++ [TokInt (-2)]) s, Ok sp)) /\
  (is_output s = false ->
   archive_shared E wptr rptr T sp0 (set_stream (TokInt (-2) :: rest) s)
     = (set_stream rest s, Ok null_shared)) /\
  (forall sp s' r, get sp <> nullptr -> slots_ok s ->
     write_value E (S fuel) (VShared T sp) s = (s', r) ->
     head (written s s') <> Some (TokInt (-2))).
Proof.
  split; [|split].
  { intros sp Hout Hsp. unfold archive_shared. rewrite bind_get_state, Hout.
    unfold write_shared. rewrite decide_True by exact Hsp. reflexivity. }
  { intros Hin. unfold archive_shared. rewrite bind_get_state.
    change (is_output (set_stream (TokInt (-2) :: rest) s)) with (is_output s).
    rewrite Hin. reflexivity. }
  intros sp s' r Hp Hok H. cbn [write_value] in H. unfold write_shared in H.
  rewrite decide_False in H by exact Hp.
  bind_cases H.
  2:{ apply canonical_state in Hm. subst. now rewrite written_same. }
  apply canonical_state in Hm. subst s0.
  unfold get_state in Hk. bind_cases Hk; [|discriminate].
  injection Hm as <- <-.
  assert (Hfirst : forall nr s1,
             0 <= nr \/ nr = -1 ->
             (exists ts, stream s1 = stream (set_stream (stream s ++ [TokInt nr]) s) ++ ts) ->
             head (written s s1) <> Some (TokInt (-2))).
  { intros nr s1 Hnr [ts Hts]. cbn in Hts. rewrite <- app_assoc in Hts.
    rewrite (written_app _ _ _ Hts). cbn. intros [= Heq]. lia. }
  destruct (shared_ptr2nr s !! a) as [nr|] eqn:Hl.
  - assert (Hnr : 0 <= nr) by (destruct Hok as (_ & _ & _ & Hst); apply Hst in Hl; lia).
    rewrite bind_put in Hk0. apply (Hfirst nr); [lia|].
    rewrite bind_put in Hk0.
    destruct (negb (bool_decide (a = get sp))).
    + rewrite put_run in Hk0. injection Hk0 as <- _. cbn. eexists. now rewrite <- app_assoc.
    + injection Hk0 as <- _. cbn. eauto.
  - rewrite bind_put in Hk0. apply (Hfirst (-1)); [lia|].
    rewrite bind_put in Hk0.
    match type of Hk0 with bind _ _ ?s0 = _ => set (s1 := s0) in * end.
    assert (Hptr : forall s2 (r0 : result unit),
               write_ptr E (write_obj E (write_value E fuel)) T (get sp) s1 = (s2, r0) ->
               exists ts, stream s2 = stream s1 ++ ts).
    { intros s2 r0 Hrun.
      change (write_ptr E (write_obj E (write_value E fuel)) T (get sp))
        with (write_value E (S fuel) (VPtr T (get sp))) in Hrun.
      apply write_value_appends in Hrun. eauto. }
    assert (Hs1 : exists ts, stream s1 = stream (set_stream (stream s ++ [TokInt (-1)]) s) ++ ts).
    { subst s1. cbn. eauto. }
    destruct Hs1 as [ts1 Hts1].
    assert (Hgo : forall s2, (exists ts, stream s2 = stream s1 ++ ts) ->
                  exists ts, stream s2
                             = stream (set_stream (stream s ++ [TokInt (-1)]) s) ++ ts).
    { intros s2 [ts Hts]. rewrite Hts, Hts1. eexists. now rewrite <- app_assoc. }
    bind_cases Hk0.
    + apply Hptr in Hm. destruct Hm as [ts Hts].
      bind_cases Hk.
      * injection Hk0 as <- _. apply Hgo. cbn.
        destruct (negb (bool_decide (a = get sp))).
        -- rewrite put_run in Hm. injection Hm as <-. cbn. rewrite Hts.
           eexists. now rewrite <- app_assoc.
        -- injection Hm as <-. eauto.
      * destruct (negb (bool_decide (a = get sp))); [|discriminate].
        rewrite put_run in Hm. discriminate.
    + apply Hptr in Hm. apply Hgo. exact Hm.
Qed.

Lemma null_shared_handle_witness :
  archive_shared scene (fun _ _ => ret tt) (ret 0) "GraphNode"
    {| owner := Some 3%nat; get := nullptr |} (new_archive true [])
    = (set_stream [TokInt (-2)] (new_archive true []),
       Ok {| owner := Some 3%nat; get := nullptr |}) /\
  archive_shared scene (fun _ _ => ret tt) (ret 0) "GraphNode" face_as_node
    (set_stream [TokInt (-2); TokInt 5] (new_archive false []))
    = (set_stream [TokInt 5] (new_archive false []), Ok null_shared) /\
  head (written (new_archive true [])
          (fst (write_value scene 3 (VShared "GraphNode" face_as_node) (new_archive true []))))
    <> Some (TokInt (-2)).
Proof.
  split; [|split].
  - apply (null_shared_handle scene (fun _ _ => ret tt) (ret 0) 2 "GraphNode"
             (new_archive true []) [] null_shared); reflexivity.
  - apply (null_shared_handle scene (fun _ _ => ret tt) (ret 0) 2 "GraphNode"
             (new_archive false []) [TokInt 5] face_as_node). reflexivity.
  - destruct (null_shared_handle scene (fun _ _ => ret tt) (ret 0) 2 "GraphNode"
                (new_archive true []) [] null_shared) as (_ & _ & H).
    apply (H face_as_node _
             (snd (write_value scene 3 (VShared "GraphNode" face_as_node)
                     (new_archive true [])))).
    + discriminate.
    + apply slots_ok_new.
    + now destruct (write_value scene 3 (VShared "GraphNode" face_as_node)
                      (new_archive true [])).
Defined.

(** *** Reading a written session back *)

(** What is known of the value read for a written value: it has the
    same type, and a primitive is the primitive written. *)
Definition agrees (v a : value) : Prop :=
  type_of a = type_of v /\ match v with VPrim t => a = VPrim t | _ => True end.

Lemma prim_kind_eqb_eq a b : prim_kind_eqb a b = true -> a = b.
Proof. destruct a, b; (reflexivity || discriminate). Qed.

Lemma read_value_type E fuel t s s' v :
  read_value E fuel t s = (s', Ok v) -> type_of v = t.
Proof.
  destruct fuel as [|f]; [discriminate|]. cbn [read_value].
  destruct t as [k|T|T]; intros H; bind_cases H; try discriminate.
  - injection Hk as _ <-. unfold get_prim in Hm. bind_cases Hm; [|discriminate].
    destruct (prim_kind_eqb (kind_of a0) k) eqn:Hkk; [|discriminate].
    injection Hk as _ <-. cbn. f_equal. now apply prim_kind_eqb_eq.
  - now injection Hk as _ <-.
  - now injection Hk as _ <-.
Qed.

Lemma value_reads_back E fuel v :
  env_mirrors E ->
  forall W W', write_value E fuel v W = (W', Ok tt) -> slots_ok W ->
    exists ts, stream W' = stream W ++ ts /\ slots_ok W' /\
      forall R rest, counts_match W R ->
        exists R' a, read_value E fuel (type_of v) (set_stream (ts ++ rest) R) = (R', Ok a) /\
                     stream R' = rest /\ counts_match W' R' /\ agrees v a.
Proof.
  intros HE W W' Hw Hok.
  destruct (mirrors_value E fuel v HE W W' Hw Hok) as (ts & Hs & Hok' & Hr).
  exists ts. split; [exact Hs|]. split; [exact Hok'|]. intros R rest Hc.
  destruct (Hr R rest Hc) as (R' & a & Ha & Hst & Hc').
  exists R', a. split; [exact Ha|]. split; [exact Hst|]. split; [exact Hc'|].
  split; [eapply read_value_type; exact Ha|].
  destruct v as [t|T p|T sp]; [|exact I|exact I].
  destruct fuel as [|f]; [discriminate|]. cbn [write_value] in Hw.
  rewrite put_run in Hw. injection Hw as <-. cbn [stream set_stream] in Hs.
  apply app_inv_head in Hs. subst ts.
  cbn [read_value type_of app] in Ha.
  rewrite (bind_ok _ _ _ _ _ (get_prim_cons _ _ _)) in Ha. now injection Ha as _ <-.
Qed.

Lemma values_read_back E fuel vs :
  env_mirrors E ->
  forall W W', archive_all (write_value E fuel) vs W = (W', Ok tt) -> slots_ok W ->
    exists ts, stream W' = stream W ++ ts /\ slots_ok W' /\
      forall R rest, counts_match W R ->
        exists R' vs',
          read_all (read_value E fuel) (map type_of vs) (set_stream (ts ++ rest) R)
            = (R', Ok vs') /\
          stream R' = rest /\ counts_match W' R' /\ Forall2 agrees vs vs'.
Proof.
  intros HE. induction vs as [|v vs IH]; intros W W' Hw Hok.
  - injection Hw as <-. exists []. rewrite app_nil_r. split; [reflexivity|].
    split; [exact Hok|]. intros R rest Hc. eexists _, _. split; [reflexivity|].
    split; [reflexivity|]. split; [exact Hc|constructor].
  - cbn [archive_all] in Hw. bind_cases Hw; [|discriminate]. destruct a.
    destruct (value_reads_back E fuel v HE _ _ Hm Hok) as (ts1 & Hs1 & Hok1 & Hr1).
    destruct (IH _ _ Hk Hok1) as (ts2 & Hs2 & Hok2 & Hr2).
    exists (ts1 ++ ts2). split; [rewrite Hs2, Hs1; now rewrite app_assoc|].
    split; [exact Hok2|]. intros R rest Hc.
    destruct (Hr1 R (ts2 ++ rest) Hc) as (R1 & x & Hx & Hst1 & Hc1 & Hag).
    destruct (Hr2 R1 rest Hc1) as (R2 & xs & Hxs & Hst2 & Hc2 & Hags).
    rewrite (set_stream_id R1 _ Hst1) in Hxs.
    exists R2, (x :: xs). cbn [map read_all]. rewrite <- app_assoc.
    rewrite (bind_ok _ _ _ _ _ Hx), (bind_ok _ _ _ _ _ Hxs).
    split; [reflexivity|]. split; [exact Hst2|]. split; [exact Hc2|]. now constructor.
Qed.


Definition sample_graph : list value :=
  [VPrim (TokDouble 7); VShared "GraphNode" face_as_node; VPtr "Colored" 1016;
   VPtr "Point" 3000; VShared "Colored" face_as_colored; VPtr "Point" 3000].


(** *** A class without a default constructor *)

(** X17. Archiving a raw pointer to an object of exactly the static
    type, when that type cannot be default constructed, throws after
    the address has been given its slot: nothing is written, but the
    table and the counter have changed.  Archived again by a caller who
    caught the exception, the pointer is written as a reference to that
    slot, for which the sink holds no object, and a reader that is
    level with the writer indexes its table out of range on it. *)
Theorem missing_default_constructor_leaves_slot (E : Env) (fuel : nat) (T : string)
    (p : addr) (s : Archive) :
  p <> nullptr -> typeid_of E T p = T -> is_constructible E T = false ->
  slots_ok s -> ptr2nr s !! p = None ->
  write_value E (S fuel) (VPtr T p) s
    = (register_ptr p s, Fault (no_default_constructor T)) /\
  write_value E (S fuel) (VPtr T p) (register_ptr p s)
    = (set_stream (stream s ++ [TokInt (ptr_count s); TokBool false; TokString T])
         (register_ptr p s), Ok tt) /\
  (forall R rest, counts_match s R ->
     read_value E (S fuel) (FPtr T)
       (set_stream ([TokInt (ptr_count s); TokBool false; TokString T] ++ rest) R)
     = (set_stream rest R, Fault OutOfRange)).
Proof.
  intros Hp Hty Hcons Hok Hnone.
  assert (Hreg : reg_ptr_of E T p = Ok p).
  { unfold reg_ptr_of. rewrite Hty. now rewrite decide_False by auto. }
  split; [|split].
  - cbn [write_value]. unfold write_ptr. rewrite decide_False by exact Hp.
    unfold canonical. rewrite Hreg, bind_lift_ok, bind_get_state, Hnone, bind_modify.
    rewrite Hty. rewrite decide_True by reflexivity. now rewrite Hcons.
  - cbn [write_value]. unfold write_ptr. rewrite decide_False by exact Hp.
    unfold canonical. rewrite Hreg, bind_lift_ok, bind_get_state.
    cbn [ptr2nr register_ptr]. rewrite lookup_insert_eq.
    rewrite !bind_put, put_run. rewrite Hty.
    rewrite bool_decide_eq_true_2 by reflexivity. cbn. now rewrite <- !app_assoc.
  - intros R rest [Hc _]. destruct Hok as (Hcount & _).
    cbn [read_value]. unfold read_ptr. cbn [app].
    rewrite bind_assoc, (bind_ok _ _ _ _ _ (get_int_cons _ _ _)).
    rewrite !decide_False by lia.
    rewrite bind_assoc, (bind_ok _ _ _ _ _ (get_bool_cons _ _ _)).
    rewrite bind_assoc, (bind_ok _ _ _ _ _ (get_string_cons _ _ _)).
    rewrite bind_assoc, bind_get_state. unfold index.
    rewrite decide_True by lia. cbn [nr2ptr set_stream].
    rewrite lookup_ge_None_2 by lia. reflexivity.
Qed.

Definition abstract_scene : Env :=
  {| typeid_of := typeid_of scene;
     is_constructible := fun T => negb (String.eqb T "Shape");
     object_size := object_size scene;
     IsRegistered := IsRegistered scene;
     GetArchiveRegister := GetArchiveRegister scene;
     DoArchive_out := DoArchive_out scene;
     DoArchive_in := DoArchive_in scene |}.

Lemma missing_default_constructor_leaves_slot_witness :
  write_value abstract_scene 2 (VPtr "Shape" 3000) (new_archive true [])
    = (register_ptr 3000 (new_archive true []), Fault (no_default_constructor "Shape")) /\
  write_value abstract_scene 2 (VPtr "Shape" 3000) (register_ptr 3000 (new_archive true []))
    = (set_stream (stream (new_archive true [])
                   ++ [TokInt (ptr_count (new_archive true [])); TokBool false;
                       TokString "Shape"])
         (register_ptr 3000 (new_archive true [])), Ok tt) /\
  (forall R rest, counts_match (new_archive true []) R ->
     read_value abstract_scene 2 (FPtr "Shape")
       (set_stream ([TokInt (ptr_count (new_archive true [])); TokBool false;
                     TokString "Shape"] ++ rest) R)
     = (set_stream rest R, Fault OutOfRange)).
Proof.
  apply (missing_default_constructor_leaves_slot abstract_scene 1 "Shape" 3000
           (new_archive true [])).
  - discriminate.
  - reflexivity.
  - reflexivity.
  - apply slots_ok_new.
  - reflexivity.
Defined.

(** *** Raw pointers to one object *)

(** Whether a downcast moves the pointer depends on the two classes,
    not on the object. *)
Definition casts_uniform (E : Env) : Prop :=
  forall name T a b b',
    downcaster (GetArchiveRegister E name) T a = Ok a ->
    downcaster (GetArchiveRegister E name) T b = Ok b' -> b' = b.

(** The pointer [a] that stands for the canonical address [q] under
    the static type [T], for a writer who held [p] with canonical
    address [reg]. *)
Definition cast_of (E : Env) (T : string) (p reg q a : addr) : Prop :=
  if bool_decide (reg = p) then a = q
  else upcaster (GetArchiveRegister E (typeid_of E T p)) T q = Ok a.

(** How the pointer read for a written pointer hangs on the table
    entry of its canonical address. *)
Definition ptr_link (E : Env) (T : string) (p reg : addr) (W' R' : Archive) (a : addr) : Prop :=
  exists nr q,
    ptr2nr W' !! reg = Some nr /\ nr2ptr R' !! Z.to_nat nr = Some q /\ cast_of E T p reg q a.

Lemma write_obj_keeps_ptr_slot E f T p s s' r reg nr :
  ptr2nr s !! reg = Some nr ->
  write_obj E (write_value E f) T p s = (s', r) -> ptr2nr s' !! reg = Some nr.
Proof.
  unfold write_obj. apply (archive_all_inv (fun x => ptr2nr x !! reg = Some nr)).
  intros v s0 s1 r0. apply write_value_keeps_ptr_slot.
Qed.

Lemma archive_all_keeps_ptr_slot E fuel vs s s' r reg nr :
  ptr2nr s !! reg = Some nr ->
  archive_all (write_value E fuel) vs s = (s', r) -> ptr2nr s' !! reg = Some nr.
Proof.
  apply (archive_all_inv (fun x => ptr2nr x !! reg = Some nr)).
  intros v s0 s1 r0. apply write_value_keeps_ptr_slot.
Qed.

Lemma read_value_keeps_ptr E fuel t s s' r :
  read_value E fuel t s = (s', r) -> nr2ptr s `prefix_of` nr2ptr s'.
Proof.
  intros H. revert H.
  apply (read_value_inv E (fun x => nr2ptr s `prefix_of` nr2ptr x)); auto.
  intros s0 p H. cbn. now apply prefix_app_r.
Qed.

Lemma read_all_keeps_ptr E fuel ts s s' r :
  read_all (read_value E fuel) ts s = (s', r) -> nr2ptr s `prefix_of` nr2ptr s'.
Proof.
  intros H. revert H.
  apply (read_all_inv (fun x => nr2ptr s `prefix_of` nr2ptr x)
           (read_value E fuel) ts); [|reflexivity].
  intros t s0 s1 r0 Hp H. etrans; [exact Hp|]. eapply read_value_keeps_ptr, H.
Qed.

Lemma read_obj_keeps_ptr E f T name p s s' r :
  read_obj E (read_value E f) T name p s = (s', r) -> nr2ptr s `prefix_of` nr2ptr s'.
Proof.
  intros H. unfold read_obj in H. bind_cases H.
  - unfold store_object, modify in Hk. injection Hk as <- _. cbn.
    eapply read_all_keeps_ptr, Hm.
  - eapply read_all_keeps_ptr, Hm.
Qed.

Lemma lookup_pushed {A} (l l' : list A) x n :
  Z.of_nat (length l) = n -> (l ++ [x]) `prefix_of` l' -> l' !! Z.to_nat n = Some x.
Proof.
  intros Hn Hpre. eapply prefix_lookup_Some; [|exact Hpre].
  rewrite lookup_app_r by lia. replace (Z.to_nat n - length l)%nat with 0%nat by lia.
  reflexivity.
Qed.

(** One raw pointer, written and read back, with its table entry. *)
Lemma ptr_value_link E fuel T p W W' :
  env_mirrors E -> casts_uniform E ->
  write_value E fuel (VPtr T p) W = (W', Ok tt) -> slots_ok W ->
  exists ts, stream W' = stream W ++ ts /\ slots_ok W' /\
    forall R rest, counts_match W R ->
      exists R' a, read_value E fuel (FPtr T) (set_stream (ts ++ rest) R)
                     = (R', Ok (VPtr T a)) /\
                   stream R' = rest /\ counts_match W' R' /\
                   forall reg, p <> nullptr -> reg_ptr_of E T p = Ok reg ->
                               ptr_link E T p reg W' R' a.
Proof.
  intros HE HU Hw Hok. destruct fuel as [|f]; [discriminate|].
  cbn [write_value] in Hw. cbn [read_value].
  assert (Hobj : forall T' p' q,
             mirrors (write_obj E (write_value E f) T' p')
                     (read_obj E (read_value E f) T' (typeid_of E T' p') q)).
  { intros T' p' q. apply mirrors_obj; [exact HE|]. intros v. now apply mirrors_value. }
  unfold write_ptr in Hw.
  case_decide as Hp.
  { (* null *)
    rewrite put_run in Hw. injection Hw as <-.
    exists [TokInt (-2)]. split; [reflexivity|]. split; [exact Hok|].
    intros R rest Hc. exists (set_stream rest R), nullptr.
    split; [reflexivity|]. split; [reflexivity|]. split; [exact Hc|]. intros; contradiction. }
  unfold canonical in Hw.
  destruct (reg_ptr_of E T p) as [reg|fl] eqn:Hreg; [|discriminate].
  rewrite bind_lift_ok, bind_get_state in Hw.
  destruct (ptr2nr W !! reg) as [nr|] eqn:Hl.
  { (* a seen address *)
    rewrite !bind_put, put_run in Hw. injection Hw as <-.
    eexists [TokInt nr; TokBool _; TokString _].
    split; [cbn; now rewrite <- !app_assoc|]. split; [exact Hok|].
    intros R rest Hc.
    assert (Hnr : 0 <= nr < Z.of_nat (length (nr2ptr R))).
    { destruct Hok as (_ & _ & Hpt & _). apply Hpt in Hl. destruct Hc as [<- _]. exact Hl. }
    unfold read_ptr. cbn [app].
    rewrite bind_assoc, (bind_ok _ _ _ _ _ (get_int_cons _ _ _)).
    rewrite !decide_False by lia.
    rewrite bind_assoc, (bind_ok _ _ _ _ _ (get_bool_cons _ _ _)).
    rewrite bind_assoc, (bind_ok _ _ _ _ _ (get_string_cons _ _ _)).
    destruct (index_in_range (nr2ptr R) nr (set_stream rest R) Hnr) as (q & Hq0 & Hq).
    destruct (bool_decide (reg = p)) eqn:Hd; cbn [negb]; rewrite bind_assoc, bind_get_state;
      change (nr2ptr (set_stream rest R)) with (nr2ptr R).
    - rewrite (bind_ok _ _ _ _ _ Hq).
      exists (set_stream rest R), q. split; [reflexivity|]. split; [reflexivity|].
      split; [exact Hc|]. intros reg' _ [= <-]. exists nr, q.
      split; [exact Hl|]. split; [exact Hq0|]. unfold cast_of. now rewrite Hd.
    - apply bool_decide_eq_false in Hd.
      pose proof (reg_ptr_of_moved _ _ _ _ Hreg Hd) as Hdown.
      destruct (casts_total E HE _ _ _ _ Hdown) as (_ & Hup & _).
      destruct (Hup q) as [b Hb].
      rewrite bind_assoc, (bind_ok _ _ _ _ _ Hq). unfold lift at 1.
      unfold bind at 1. rewrite Hb.
      exists (set_stream rest R), b. split; [reflexivity|]. split; [reflexivity|].
      split; [exact Hc|]. intros reg' _ [= <-]. exists nr, q.
      split; [exact Hl|]. split; [exact Hq0|]. unfold cast_of.
      rewrite bool_decide_eq_false_2 by exact Hd. exact Hb. }
  (* a new address *)
  rewrite bind_modify in Hw.
  pose proof (slots_ok_register_ptr reg W Hok) as Hok1.
  assert (Hslot : ptr2nr (register_ptr reg W) !! reg = Some (ptr_count W)).
  { cbn. apply lookup_insert_eq. }
  case_decide as Hty.
  - destruct (is_constructible E T) eqn:Hcons; [|discriminate].
    rewrite bind_put in Hw.
    pose proof (slots_ok_set_stream (stream (register_ptr reg W) ++ [TokInt (-1)]) _ Hok1)
      as Hok2.
    destruct (Hobj T p 0 _ _ Hw Hok2) as (ts & Hs & Hok' & _).
    exists (TokInt (-1) :: ts). split; [rewrite Hs; cbn; now rewrite <- app_assoc|].
    split; [exact Hok'|]. intros R rest Hc.
    unfold read_ptr. cbn [app].
    rewrite bind_assoc, (bind_ok _ _ _ _ _ (get_int_cons _ _ _)).
    rewrite decide_False by lia. rewrite decide_True by reflexivity.
    unfold constructIfPossible. rewrite Hcons. rewrite bind_assoc.
    unfold new_object, bind at 1.
    rewrite bind_assoc, bind_modify.
    set (q := next_object (heap (set_stream (ts ++ rest) R))).
    destruct (Hobj T p q _ _ Hw Hok2) as (ts' & Hs' & _ & Hr).
    assert (ts' = ts) as -> by (rewrite Hs in Hs'; now apply app_inv_head in Hs').
    match goal with |- context [push_ptr q ?R0] => set (R1 := push_ptr q R0) end.
    assert (Hc1 : counts_match (set_stream (stream (register_ptr reg W) ++ [TokInt (-1)])
                                  (register_ptr reg W)) R1).
    { apply counts_match_set_stream_l. subst R1. apply counts_match_ptr.
      apply counts_match_set_heap, counts_match_set_stream_r, Hc. }
    destruct (Hr R1 rest Hc1) as (R2 & [] & Hrd & Hst & Hc2).
    rewrite Hty in Hrd.
    assert (HR1 : set_stream (ts ++ rest) R1 = R1) by (apply set_stream_id; reflexivity).
    rewrite HR1 in Hrd. rewrite bind_assoc, (bind_ok _ _ _ _ _ Hrd).
    exists R2, q. split; [reflexivity|]. split; [exact Hst|]. split; [exact Hc2|].
    intros reg' _ [= <-]. exists (ptr_count W), q.
    split; [eapply write_obj_keeps_ptr_slot; [|exact Hw]; exact Hslot|].
    split.
    { pose proof (read_obj_keeps_ptr _ _ _ _ _ _ _ _ Hrd) as Hpre.
      subst R1. cbn [nr2ptr push_ptr set_heap set_stream] in Hpre.
      eapply lookup_pushed; [|exact Hpre]. now destruct Hc as [-> _]. }
    unfold cast_of.
    assert (reg = p) as ->.
    { unfold reg_ptr_of in Hreg. rewrite Hty in Hreg.
      rewrite decide_False in Hreg by auto. now injection Hreg. }
    now rewrite bool_decide_eq_true_2.
  - destruct (negb (IsRegistered E (typeid_of E T p))) eqn:Hir; [discriminate|].
    rewrite !bind_put in Hw. cbn [stream set_stream] in Hw.
    set (name := typeid_of E T p) in *.
    set (W1 := set_stream ((stream (register_ptr reg W) ++ [TokInt (-3)]) ++ [TokString name])
                 (set_stream (stream (register_ptr reg W) ++ [TokInt (-3)])
                    (register_ptr reg W))) in *.
    assert (Hok2 : slots_ok W1) by (subst W1; auto using slots_ok_set_stream).
    destruct (Hobj T p 0 _ _ Hw Hok2) as (ts & Hs & Hok' & _).
    exists (TokInt (-3) :: TokString name :: ts).
    split; [rewrite Hs; subst W1; cbn; now rewrite <- !app_assoc|].
    split; [exact Hok'|]. intros R rest Hc.
    assert (Hdown : downcaster (GetArchiveRegister E name) T p = Ok reg).
    { subst name. apply reg_ptr_of_other_type; [exact Hreg|exact Hty]. }
    destruct (casts_total E HE _ _ _ _ Hdown) as (Hdn & _ & Hcr).
    unfold read_ptr. cbn [app].
    rewrite bind_assoc, (bind_ok _ _ _ _ _ (get_int_cons _ _ _)).
    rewrite !decide_False by lia. rewrite decide_True by reflexivity.
    rewrite bind_assoc, (bind_ok _ _ _ _ _ (get_string_cons _ _ _)).
    destruct (Hcr (heap (set_stream (ts ++ rest) R))) as (h' & q & Hq).
    rewrite bind_assoc. unfold call_creator, bind at 1. rewrite Hq.
    destruct (Hdn q) as [b Hb]. rewrite bind_assoc, Hb, bind_lift_ok, bind_assoc, bind_modify.
    destruct (Hobj T p q _ _ Hw Hok2) as (ts' & Hs' & _ & Hr).
    assert (ts' = ts) as -> by (rewrite Hs in Hs'; now apply app_inv_head in Hs').
    match goal with |- context [push_ptr b ?R0] => set (R1 := push_ptr b R0) end.
    assert (Hc1 : counts_match W1 R1).
    { subst W1 R1. do 2 apply counts_match_set_stream_l. apply counts_match_ptr.
      apply counts_match_set_heap, counts_match_set_stream_r, Hc. }
    destruct (Hr R1 rest Hc1) as (R2 & [] & Hrd & Hst & Hc2).
    assert (HR1 : set_stream (ts ++ rest) R1 = R1) by (apply set_stream_id; reflexivity).
    rewrite HR1 in Hrd. fold name in Hrd. rewrite bind_assoc, (bind_ok _ _ _ _ _ Hrd).
    exists R2, q. split; [reflexivity|]. split; [exact Hst|]. split; [exact Hc2|].
    intros reg' _ [= <-]. exists (ptr_count W), b.
    split; [eapply write_obj_keeps_ptr_slot; [|exact Hw]; exact Hslot|].
    split.
    { pose proof (read_obj_keeps_ptr _ _ _ _ _ _ _ _ Hrd) as Hpre.
      subst R1. cbn [nr2ptr push_ptr set_heap set_stream] in Hpre.
      eapply lookup_pushed; [|exact Hpre]. now destruct Hc as [-> _]. }
    unfold cast_of. fold name.
    destruct (bool_decide (reg = p)) eqn:Hd.
    + apply bool_decide_eq_true in Hd. subst reg. symmetry. eapply HU; [exact Hdown|exact Hb].
    + apply (casts_inverse E HE). exact Hb.
Qed.

Lemma write_ptr_seen E fuel T p reg nr s :
  p <> nullptr ->
  reg_ptr_of E T p = Ok reg ->
  ptr2nr s !! reg = Some nr ->
  write_value E (S fuel) (VPtr T p) s
    = (set_stream (stream s ++ [TokInt nr; TokBool (negb (bool_decide (reg = p)));
                                TokString (typeid_of E T p)]) s, Ok tt).
Proof.
  intros Hp Hreg Hl. cbn [write_value]. unfold write_ptr.
  rewrite decide_False by exact Hp. unfold canonical. rewrite Hreg.
  rewrite bind_lift_ok, bind_get_state, Hl, !bind_put, put_run.
  cbn. now rewrite <- !app_assoc.
Qed.


Lemma scene_casts_uniform : casts_uniform scene.
Proof.
  intros name T a b b'. cbn. destruct (String.eqb name "Face"); [|discriminate].
  cbn. unfold face_down.
  destruct (String.eqb T "Face"); [congruence|].
  destruct (String.eqb T "GraphNode"); [congruence|].
  destruct (String.eqb T "Colored"); [|discriminate].
  intros [= Ha]. lia.
Qed.


(** *** An object that points to itself *)

(** X22. A raw pointer met again inside the payload of the object it
    points to is a back reference, since the address has its slot
    before the payload is written: an object with a raw pointer to
    itself among its fields, here of exactly the static type, is read
    back as an object whose field points to the object itself. *)
Theorem raw_self_reference_reads_back (E : Env) (f : nat) (T : string) (p : addr)
    (f1 f2 : list value) (W : Archive) :
  env_mirrors E -> casts_uniform E ->
  p <> nullptr -> typeid_of E T p = T ->
  DoArchive_out E T p = f1 ++ VPtr T p :: f2 ->
  write_session E (S f) [VPtr T p] = (W, Ok tt) ->
  exists R a vs1 vs2,
    read_session E (S f) [FPtr T] (stream W) = (R, Ok [VPtr T a]) /\
    objects (heap R) !! a = Some (vs1 ++ VPtr T a :: vs2) /\
    length vs1 = length f1 /\ length vs2 = length f2.
Proof.
  intros HE HU Hp Hty Hfields Hw. unfold write_session in Hw.
  cbn [archive_all] in Hw. bind_cases Hw; [|discriminate]. destruct a.
  injection Hk as ->. rename Hm into Hw.
  assert (Hreg : reg_ptr_of E T p = Ok p).
  { unfold reg_ptr_of. rewrite Hty. now rewrite decide_False by auto. }
  cbn [write_value] in Hw. unfold write_ptr in Hw.
  rewrite decide_False in Hw by exact Hp. unfold canonical in Hw.
  rewrite Hreg, bind_lift_ok, bind_get_state in Hw.
  cbn [ptr2nr new_archive] in Hw. rewrite lookup_empty, bind_modify in Hw.
  rewrite Hty in Hw. rewrite decide_True in Hw by reflexivity.
  destruct (is_constructible E T) eqn:Hcons; [|discriminate].
  rewrite bind_put in Hw. unfold write_obj in Hw. rewrite Hfields in Hw.
  set (Wa := set_stream (stream (register_ptr p (new_archive true [])) ++ [TokInt (-1)])
               (register_ptr p (new_archive true []))) in *.
  assert (Hoka : slots_ok Wa).
  { subst Wa. apply slots_ok_set_stream, slots_ok_register_ptr, slots_ok_new. }
  assert (Hslot : ptr2nr Wa !! p = Some 0) by (subst Wa; cbn; apply lookup_insert_eq).
  rewrite archive_all_app in Hw. bind_cases Hw; [|discriminate]. destruct a.
  rename s into Wb, Hm into Hpre.
  cbn [archive_all] in Hk. bind_cases Hk; [|discriminate]. destruct a.
  rename s into Wc, Hm into Hself, Hk0 into Hpost.
  destruct (mirrors_values E f f1 HE _ _ Hpre Hoka) as (ts1 & Hs1 & Hokb & Hr1).
  destruct (ptr_value_link E f T p _ _ HE HU Hself Hokb) as (ts2 & Hs2 & Hokc & Hr2).
  destruct (mirrors_values E f f2 HE _ _ Hpost Hokc) as (ts3 & Hs3 & _ & Hr3).
  assert (Hstream : stream W = TokInt (-1) :: ts1 ++ ts2 ++ ts3).
  { rewrite Hs3, Hs2, Hs1. subst Wa. cbn. now rewrite <- !app_assoc. }
  (* the read pass *)
  set (q := next_object empty_heap).
  set (R1 := push_ptr q
               (set_heap {| next_object := q + object_size E T; next_owner := 0%nat;
                            objects := ∅ |}
                  (new_archive false (ts1 ++ ts2 ++ ts3)))).
  assert (Hc1 : counts_match Wa R1) by (subst Wa R1; split; reflexivity).
  destruct (Hr1 R1 (ts2 ++ ts3) Hc1) as (Ra & vs1 & Hrd1 & Hsta & Hca).
  destruct (Hr2 Ra ts3 Hca) as (Rb & a & Hrd2 & Hstb & Hcb & Hlink).
  destruct (Hr3 Rb [] Hcb) as (Rc & vs2 & Hrd3 & Hstc & _).
  assert (HR1 : set_stream (ts1 ++ ts2 ++ ts3) R1 = R1) by (apply set_stream_id; reflexivity).
  rewrite HR1 in Hrd1.
  rewrite (set_stream_id Ra _ Hsta) in Hrd2.
  rewrite app_nil_r in Hrd3. rewrite (set_stream_id Rb _ Hstb) in Hrd3.
  (* the field is the object *)
  destruct (Hlink p Hp Hreg) as (nr & q' & Hnr & Hq' & Hcast).
  assert (nr = 0) as ->.
  { pose proof (archive_all_keeps_ptr_slot _ _ _ _ _ _ _ _ Hslot Hpre) as Hb.
    pose proof (write_value_keeps_ptr_slot _ _ _ _ _ _ _ _ Hb Hself) as Hc.
    congruence. }
  assert (q' = q) as ->.
  { assert (Hq1 : nr2ptr R1 !! Z.to_nat 0 = Some q) by reflexivity.
    assert (Hqa : nr2ptr Ra !! Z.to_nat 0 = Some q).
    { eapply prefix_lookup_Some; [exact Hq1|]. eapply read_all_keeps_ptr, Hrd1. }
    assert (Hqb : nr2ptr Rb !! Z.to_nat 0 = Some q).
    { eapply prefix_lookup_Some; [exact Hqa|]. eapply read_value_keeps_ptr, Hrd2. }
    congruence. }
  unfold cast_of in Hcast. rewrite bool_decide_eq_true_2 in Hcast by reflexivity. subst a.
  assert (Hfields_in : read_all (read_value E f) (DoArchive_in E T T) R1
                       = (Rc, Ok (vs1 ++ VPtr T q :: vs2))).
  { rewrite <- Hty at 2. rewrite (layout_mirrors E HE), Hfields, map_app. cbn [map].
    eapply read_all_app; [exact Hrd1|].
    eapply read_all_cons; [exact Hrd2|exact Hrd3]. }
  exists (set_heap {| next_object := next_object (heap Rc); next_owner := next_owner (heap Rc);
                      objects := <[q := vs1 ++ VPtr T q :: vs2]> (objects (heap Rc)) |} Rc),
    q, vs1, vs2.
  split.
  { unfold read_session. rewrite Hstream. cbn [read_all read_value].
    unfold read_ptr.
    change (new_archive false (TokInt (-1) :: ts1 ++ ts2 ++ ts3))
      with (set_stream (TokInt (-1) :: ts1 ++ ts2 ++ ts3) (new_archive false [])).
    rewrite !bind_assoc, (bind_ok _ _ _ _ _ (get_int_cons _ _ _)).
    rewrite decide_False by lia. rewrite decide_True by reflexivity.
    unfold constructIfPossible. rewrite Hcons. rewrite !bind_assoc.
    unfold new_object, bind at 1. rewrite !bind_assoc, bind_modify.
    change (push_ptr _ _) with R1.
    change (next_object (heap (set_stream (ts1 ++ ts2 ++ ts3) (new_archive false []))))
      with q.
    unfold read_obj. rewrite !bind_assoc, (bind_ok _ _ _ _ _ Hfields_in).
    reflexivity. }
  split; [cbn; apply lookup_insert_eq|].
  split; [rewrite (read_all_length _ _ _ _ _ Hrd1); apply length_map|].
  rewrite (read_all_length _ _ _ _ _ Hrd3); apply length_map.
Qed.

(** A world of rings: every [Ring] holds a number, a raw pointer to
    itself and a flag; nothing is registered. *)
Definition ring_scene : Env :=
  {| typeid_of := fun T _ => T;
     is_constructible := fun _ => true;
     object_size := fun _ => 32;
     IsRegistered := fun _ => false;
     GetArchiveRegister := fun _ => no_info;
     DoArchive_out := fun T p =>
       [VPrim (TokInt 1); VPtr T p; VPrim (TokBool true)];
     DoArchive_in := fun T _ => [FPrim KInt; FPtr T; FPrim KBool] |}.

Lemma ring_scene_mirrors : env_mirrors ring_scene.
Proof. split; [reflexivity|discriminate|discriminate]. Qed.

Lemma ring_scene_casts_uniform : casts_uniform ring_scene.
Proof. intros name T a b b'. discriminate. Qed.

Lemma raw_self_reference_reads_back_witness :
  exists R a vs1 vs2,
    read_session ring_scene 3 [FPtr "Ring"]
      (stream (fst (write_session ring_scene 3 [VPtr "Ring" 7000])))
      = (R, Ok [VPtr "Ring" a]) /\
    objects (heap R) !! a = Some (vs1 ++ VPtr "Ring" a :: vs2) /\
    length vs1 = length [VPrim (TokInt 1)] /\ length vs2 = length [VPrim (TokBool true)].
Proof.
  apply (raw_self_reference_reads_back ring_scene 2 "Ring" 7000
           [VPrim (TokInt 1)] [VPrim (TokBool true)]
           (fst (write_session ring_scene 3 [VPtr "Ring" 7000]))
           ring_scene_mirrors ring_scene_casts_uniform).
  - discriminate.
  - reflexivity.
  - reflexivity.
  - vm_compute. reflexivity.
Defined.

(** *** The two directions *)

(** X23. The tables of the two directions never mix.  A write session
    leaves the vectors of rebuilt pointers empty and the free store
    alone; a read session never assigns a slot number: its two maps
    stay empty and its two counters stay 0, the slots being counted by
    the lengths of its vectors. *)
Theorem directions_do_not_mix (E : Env) (fuel : nat) :
  (forall vs,
     is_output (fst (write_session E fuel vs)) = true /\
     nr2ptr (fst (write_session E fuel vs)) = [] /\
     nr2shared_ptr (fst (write_session E fuel vs)) = [] /\
     heap (fst (write_session E fuel vs)) = empty_heap) /\
  (forall ts src,
     is_output (fst (read_session E fuel ts src)) = false /\
     ptr_count (fst (read_session E fuel ts src)) = 0 /\
     shared_ptr_count (fst (read_session E fuel ts src)) = 0 /\
     ptr2nr (fst (read_session E fuel ts src)) = ∅ /\
     shared_ptr2nr (fst (read_session E fuel ts src)) = ∅).
Proof.
  split.
  - intros vs. unfold write_session.
    destruct (archive_all (write_value E fuel) vs (new_archive true [])) as [s r] eqn:H.
    cbn [fst]. revert H.
    apply (archive_all_inv (fun x => is_output x = true /\ nr2ptr x = [] /\
                                     nr2shared_ptr x = [] /\ heap x = empty_heap));
      [|now repeat split].
    intros v s0 s1 r0 (H1 & H2 & H3 & H4) Hrun.
    destruct (write_value_read_side _ _ _ _ _ _ Hrun) as (-> & -> & -> & ->). auto.
  - intros ts src. unfold read_session.
    destruct (read_all (read_value E fuel) ts (new_archive false src)) as [s r] eqn:H.
    cbn [fst]. revert H.
    set (I := fun x => is_output x = false /\ ptr_count x = 0 /\
                       shared_ptr_count x = 0 /\ ptr2nr x = ∅ /\ shared_ptr2nr x = ∅).
    apply (read_all_inv I); [|now repeat split].
    intros t s0 s1 r0. apply (read_value_inv E I); subst I; cbn; auto.
Qed.

End Tables.

(** ** The casters of a registered class

    [RegisterClassForArchive<T, Bases...>] builds the three closures of
    [T] from the closures its bases have in the register:
    [Archive::Caster<T, Bases...>] tries the bases from left to right
    and moves on to the next when one throws an [Exception]. *)

Module Register.
Import Core.

Section Caster.

(* The register as the closures find it when they run. *)
Variable GetArchiveRegister : string -> ClassArchiveInfo.
(* [dynamic_cast<B*>(p)] for a [T* p] to a base [B] of [T], and
   [dynamic_cast<T*>(p)] for a [B* p]. *)
Variable to_base from_base : string -> string -> addr -> addr.
(* [std::is_constructible<T>::value] and [sizeof(T)] *)
Variable is_constructible : string -> bool.
Variable object_size : string -> Z.

(** [Caster<T, Bases...>::tryUpcast(ti, p)] *)
Fixpoint tryUpcast (T : string) (bases : list string) (ti : string) (p : addr) : result addr :=
  match bases with
  | [] => Fault (cast_failed "Upcast")
  | B1 :: Brest =>
      match upcaster (GetArchiveRegister B1) ti (to_base T B1 p) with
      | Fault (Exception _) => tryUpcast T Brest ti p
      | r => r
      end
  end.

(** [Caster<T, Bases...>::tryDowncast(ti, p)] *)
Fixpoint tryDowncast (T : string) (bases : list string) (ti : string) (p : addr)
  : result addr :=
  match bases with
  | [] => Fault (cast_failed "Downcast")
  | B1 :: Brest =>
      if String.eqb B1 ti then Ok (from_base T B1 p)
      else
        match downcaster (GetArchiveRegister B1) ti p with
        | Ok q => Ok (from_base T B1 q)
        | Fault (Exception _) => tryDowncast T Brest ti p
        | Fault f => Fault f
        end
  end.

(** [detail::constructIfPossible<T>()] on the free store. *)
Definition construct (T : string) (h : Heap) : Heap * result addr :=
  if is_constructible T then
    ({| next_object := next_object h + object_size T; next_owner := next_owner h;
        objects := objects h |}, Ok (next_object h))
  else (h, Fault (not_default_constructible T)).

(** The [ClassArchiveInfo] that the constructor of
    [RegisterClassForArchive<T, Bases...>] hands to
    [SetArchiveRegister]. *)
Definition RegisterClassForArchive (T : string) (bases : list string) : ClassArchiveInfo :=
  {| creator := fun ti h =>
       match construct T h with
       | (h', Ok p) => (h', if String.eqb T ti then Ok p else tryUpcast T bases ti p)
       | (h', Fault f) => (h', Fault f)
       end;
     upcaster := fun ti p => if String.eqb T ti then Ok p else tryUpcast T bases ti p;
     downcaster := fun ti p => if String.eqb T ti then Ok p else tryDowncast T bases ti p |}.

(** *** A registered hierarchy

    Every class is in the register with the closures its registration
    built, the hierarchy is well founded, and a pointer cast to a base
    and back, or from a base and back, is the pointer it was. *)
Variable bases_of : string -> list string.
Variable depth : string -> nat.

Hypothesis bases_below : forall T B, In B (bases_of T) -> (depth B < depth T)%nat.
Hypothesis registered_up : forall T ti p,
  upcaster (GetArchiveRegister T) ti p
  = upcaster (RegisterClassForArchive T (bases_of T)) ti p.
Hypothesis registered_down : forall T ti p,
  downcaster (GetArchiveRegister T) ti p
  = downcaster (RegisterClassForArchive T (bases_of T)) ti p.
Hypothesis registered_creator : forall T ti h,
  creator (GetArchiveRegister T) ti h
  = creator (RegisterClassForArchive T (bases_of T)) ti h.
Hypothesis cast_back : forall T B x, In B (bases_of T) -> from_base T B (to_base T B x) = x.
Hypothesis cast_forth : forall T B x, In B (bases_of T) -> to_base T B (from_base T B x) = x.

(** Whether [T] can be cast to [ti]: always, or never. *)
Definition castable (T ti : string) : Prop :=
  (forall p, exists q, upcaster (GetArchiveRegister T) ti p = Ok q) /\
  (forall q, exists p, downcaster (GetArchiveRegister T) ti q = Ok p).

Definition not_castable (T ti : string) : Prop :=
  (forall p, upcaster (GetArchiveRegister T) ti p = Fault (cast_failed "Upcast")) /\
  (forall q, downcaster (GetArchiveRegister T) ti q = Fault (cast_failed "Downcast")).

Lemma not_castable_other T ti : not_castable T ti -> String.eqb T ti = false.
Proof.
  intros [Hup _]. destruct (String.eqb T ti) eqn:He; [|reflexivity].
  specialize (Hup 0). rewrite registered_up in Hup. cbn in Hup. rewrite He in Hup.
  discriminate.
Qed.

Lemma try_cases T ti bs :
  (forall B, In B bs -> castable B ti \/ not_castable B ti) ->
  ((forall p, exists q, tryUpcast T bs ti p = Ok q) /\
   (forall q, exists p, tryDowncast T bs ti q = Ok p)) \/
  ((forall p, tryUpcast T bs ti p = Fault (cast_failed "Upcast")) /\
   (forall q, tryDowncast T bs ti q = Fault (cast_failed "Downcast"))).
Proof.
  induction bs as [|B bs IH]; intros Hbs.
  - right. split; reflexivity.
  - destruct (Hbs B (or_introl eq_refl)) as [[Hup Hdn]|Hno].
    + left. split.
      * intros p. cbn [tryUpcast]. destruct (Hup (to_base T B p)) as [q ->]. eauto.
      * intros q. cbn [tryDowncast]. destruct (String.eqb B ti); [eauto|].
        destruct (Hdn q) as [p ->]. eauto.
    + pose proof (not_castable_other B ti Hno) as Hne. destruct Hno as [Hup Hdn].
      destruct (IH (fun B' HB' => Hbs B' (or_intror HB'))) as [[Hu Hd]|[Hu Hd]].
      * left. split.
        -- intros p. cbn [tryUpcast]. rewrite Hup. unfold cast_failed. apply Hu.
        -- intros q. cbn [tryDowncast]. rewrite Hne, Hdn. unfold cast_failed. apply Hd.
      * right. split.
        -- intros p. cbn [tryUpcast]. rewrite Hup. unfold cast_failed. apply Hu.
        -- intros q. cbn [tryDowncast]. rewrite Hne, Hdn. unfold cast_failed. apply Hd.
Qed.

Lemma cast_cases T ti : castable T ti \/ not_castable T ti.
Proof.
  remember (depth T) as n eqn:Hn. revert T Hn.
  induction n as [n IH] using lt_wf_ind. intros T ->.
  destruct (String.eqb T ti) eqn:He.
  - left. split.
    + intros p. exists p. rewrite registered_up. cbn. now rewrite He.
    + intros q. exists q. rewrite registered_down. cbn. now rewrite He.
  - destruct (try_cases T ti (bases_of T)) as [[Hu Hd]|[Hu Hd]].
    + intros B HB. eapply IH; [apply bases_below; exact HB|reflexivity].
    + left. split.
      * intros p. rewrite registered_up. cbn. rewrite He. apply Hu.
      * intros q. rewrite registered_down. cbn. rewrite He. apply Hd.
    + right. split.
      * intros p. rewrite registered_up. cbn. rewrite He. apply Hu.
      * intros q. rewrite registered_down. cbn. rewrite He. apply Hd.
Qed.

Lemma castable_not T ti p f :
  upcaster (GetArchiveRegister T) ti p = Fault f -> not_castable T ti.
Proof.
  intros H. destruct (cast_cases T ti) as [[Hup _]|Hno]; [|exact Hno].
  destruct (Hup p) as [q Hq]. congruence.
Qed.

Lemma castable_not_down T ti q f :
  downcaster (GetArchiveRegister T) ti q = Fault f -> not_castable T ti.
Proof.
  intros H. destruct (cast_cases T ti) as [[_ Hdn]|Hno]; [|exact Hno].
  destruct (Hdn q) as [p Hp]. congruence.
Qed.

Lemma try_up_down T ti bs p q :
  (forall B, In B bs -> In B (bases_of T)) ->
  (forall B p q, In B bs -> upcaster (GetArchiveRegister B) ti p = Ok q ->
                 downcaster (GetArchiveRegister B) ti q = Ok p) ->
  tryUpcast T bs ti p = Ok q -> tryDowncast T bs ti q = Ok p.
Proof.
  intros Hin Hinv. induction bs as [|B bs IH]; [discriminate|].
  cbn [tryUpcast tryDowncast].
  destruct (upcaster (GetArchiveRegister B) ti (to_base T B p)) as [q0|f] eqn:Hup.
  - intros [= ->]. destruct (String.eqb B ti) eqn:He.
    + rewrite registered_up in Hup. cbn in Hup. rewrite He in Hup. injection Hup as <-.
      now rewrite cast_back by (apply Hin; now left).
    + rewrite (Hinv B _ _ (or_introl eq_refl) Hup).
      now rewrite cast_back by (apply Hin; now left).
  - pose proof (castable_not B ti _ f Hup) as Hno.
    pose proof (not_castable_other B ti Hno) as Hne. destruct Hno as [Hu Hd].
    rewrite Hu in Hup. injection Hup as <-. unfold cast_failed at 1.
    rewrite Hne, Hd. unfold cast_failed at 1.
    apply IH; [intros B' HB'; apply Hin; now right|].
    intros B' p' q' HB'. apply Hinv. now right.
Qed.

Lemma try_down_up T ti bs p q :
  (forall B, In B bs -> In B (bases_of T)) ->
  (forall B p q, In B bs -> downcaster (GetArchiveRegister B) ti q = Ok p ->
                 upcaster (GetArchiveRegister B) ti p = Ok q) ->
  tryDowncast T bs ti q = Ok p -> tryUpcast T bs ti p = Ok q.
Proof.
  intros Hin Hinv. induction bs as [|B bs IH]; [discriminate|].
  cbn [tryUpcast tryDowncast].
  destruct (String.eqb B ti) eqn:He.
  - intros [= <-]. rewrite cast_forth by (apply Hin; now left).
    rewrite registered_up. cbn. now rewrite He.
  - destruct (downcaster (GetArchiveRegister B) ti q) as [q0|f] eqn:Hdn.
    + intros [= <-]. rewrite cast_forth by (apply Hin; now left).
      now rewrite (Hinv B _ _ (or_introl eq_refl) Hdn).
    + pose proof (castable_not_down B ti _ f Hdn) as [Hu Hd].
      rewrite Hd in Hdn. injection Hdn as <-. unfold cast_failed at 1.
      rewrite Hu. unfold cast_failed at 1.
      apply IH; [intros B' HB'; apply Hin; now right|].
    intros B' p' q' HB'. apply Hinv. now right.
Qed.

Lemma up_then_down T ti p q :
  upcaster (GetArchiveRegister T) ti p = Ok q -> downcaster (GetArchiveRegister T) ti q = Ok p.
Proof.
  remember (depth T) as n eqn:Hn. revert T Hn p q.
  induction n as [n IH] using lt_wf_ind. intros T -> p q.
  rewrite registered_up, registered_down. cbn.
  destruct (String.eqb T ti); [now intros [= ->]|].
  apply try_up_down; [auto|]. intros B p0 q0 HB.
  eapply IH; [apply bases_below; exact HB|reflexivity].
Qed.

Lemma down_then_up T ti p q :
  downcaster (GetArchiveRegister T) ti q = Ok p -> upcaster (GetArchiveRegister T) ti p = Ok q.
Proof.
  remember (depth T) as n eqn:Hn. revert T Hn p q.
  induction n as [n IH] using lt_wf_ind. intros T -> p q.
  rewrite registered_up, registered_down. cbn.
  destruct (String.eqb T ti); [now intros [= ->]|].
  apply try_down_up; [auto|]. intros B p0 q0 HB.
  eapply IH; [apply bases_below; exact HB|reflexivity].
Qed.

(** X19. In a registered hierarchy the upcaster and the downcaster of
    a class are inverse to each other, for every class they can be
    asked for: the two walks through the bases, each taking the first
    base that does not throw, take the same path. *)
Theorem registered_casts_are_inverse (T ti : string) (p q : addr) :
  upcaster (GetArchiveRegister T) ti p = Ok q <->
  downcaster (GetArchiveRegister T) ti q = Ok p.
Proof. split; [apply up_then_down|apply down_then_up]. Qed.

(** X20. In a registered hierarchy, whether a class can be cast to
    another does not depend on the pointer: either the upcaster and the
    downcaster succeed on every pointer, and the creator returns what
    the upcaster makes of the new object, or both throw the exception
    of [Caster<T>] on every pointer, and the creator throws it after
    the object has been constructed. *)
Theorem registered_casts_are_uniform (T ti : string) :
  (castable T ti /\
   forall h, is_constructible T = true ->
     exists q, upcaster (GetArchiveRegister T) ti (next_object h) = Ok q /\
               creator (GetArchiveRegister T) ti h = (fst (construct T h), Ok q)) \/
  (not_castable T ti /\
   forall h, is_constructible T = true ->
     creator (GetArchiveRegister T) ti h = (fst (construct T h), Fault (cast_failed "Upcast"))).
Proof.
  assert (Hcr : forall h, is_constructible T = true ->
            creator (GetArchiveRegister T) ti h
            = (fst (construct T h), upcaster (GetArchiveRegister T) ti (next_object h))).
  { intros h Hc. rewrite registered_creator, registered_up. cbn. unfold construct.
    now rewrite Hc. }
  destruct (cast_cases T ti) as [Hyes|Hno].
  - left. split; [exact Hyes|]. intros h Hc. destruct Hyes as [Hup _].
    destruct (Hup (next_object h)) as [q Hq]. exists q. split; [exact Hq|].
    now rewrite Hcr, Hq.
  - right. split; [exact Hno|]. intros h Hc. destruct Hno as [Hup _].
    now rewrite Hcr, Hup.
Qed.

End Caster.

(** The hierarchy of the scenario: [Face] registered with its bases
    [GraphNode] (at offset 0) and [Colored] (at offset 16), every other
    class registered without bases. *)
Definition face_bases (T : string) : list string :=
  if String.eqb T "Face" then ["GraphNode"; "Colored"] else [].

Definition face_depth (T : string) : nat := if String.eqb T "Face" then 1%nat else 0%nat.

Definition face_to_base (T B : string) (p : addr) : addr :=
  if String.eqb B "Colored" then p + 16 else p.

Definition face_from_base (T B : string) (p : addr) : addr :=
  if String.eqb B "Colored" then p - 16 else p.

Definition leaf_register (T : string) : ClassArchiveInfo :=
  RegisterClassForArchive (fun _ => no_info) face_to_base face_from_base
    (fun _ => true) (fun _ => 32) T [].

Definition face_register (T : string) : ClassArchiveInfo :=
  RegisterClassForArchive leaf_register face_to_base face_from_base
    (fun _ => true) (fun _ => 32) T (face_bases T).

Lemma face_below T B : In B (face_bases T) -> (face_depth B < face_depth T)%nat.
Proof.
  unfold face_bases, face_depth. destruct (String.eqb T "Face"); [|contradiction].
  intros [<-|[<-|[]]]; cbn; lia.
Qed.

Lemma face_registered_up T ti p :
  upcaster (face_register T) ti p
  = upcaster (RegisterClassForArchive face_register face_to_base face_from_base
                (fun _ => true) (fun _ => 32) T (face_bases T)) ti p.
Proof.
  unfold face_register at 1. cbn [upcaster RegisterClassForArchive].
  destruct (String.eqb T ti); [reflexivity|].
  unfold face_bases. destruct (String.eqb T "Face"); reflexivity.
Qed.

Lemma face_registered_down T ti p :
  downcaster (face_register T) ti p
  = downcaster (RegisterClassForArchive face_register face_to_base face_from_base
                  (fun _ => true) (fun _ => 32) T (face_bases T)) ti p.
Proof.
  unfold face_register at 1. cbn [downcaster RegisterClassForArchive].
  destruct (String.eqb T ti); [reflexivity|].
  unfold face_bases. destruct (String.eqb T "Face"); reflexivity.
Qed.

Lemma face_registered_creator T ti h :
  creator (face_register T) ti h
  = creator (RegisterClassForArchive face_register face_to_base face_from_base
               (fun _ => true) (fun _ => 32) T (face_bases T)) ti h.
Proof.
  unfold face_register at 1. cbn [creator RegisterClassForArchive construct].
  destruct (String.eqb T ti); [reflexivity|].
  unfold face_bases. destruct (String.eqb T "Face"); reflexivity.
Qed.

Lemma face_cast_back T B x :
  In B (face_bases T) -> face_from_base T B (face_to_base T B x) = x.
Proof.
  intros _. unfold face_from_base, face_to_base. destruct (String.eqb B "Colored"); lia.
Qed.

Lemma face_cast_forth T B x :
  In B (face_bases T) -> face_to_base T B (face_from_base T B x) = x.
Proof.
  intros _. unfold face_from_base, face_to_base. destruct (String.eqb B "Colored"); lia.
Qed.

Lemma registered_casts_are_inverse_witness :
  upcaster (face_register "Face") "Colored" 1000 = Ok 1016 <->
  downcaster (face_register "Face") "Colored" 1016 = Ok 1000.
Proof.
  apply (registered_casts_are_inverse face_register face_to_base face_from_base
           (fun _ => true) (fun _ => 32) face_bases face_depth
           face_below face_registered_up face_registered_down
           face_cast_back face_cast_forth "Face" "Colored" 1000 1016).
Defined.

Lemma registered_casts_are_uniform_witness :
  (castable face_register "Face" "Patch" /\
   forall h, true = true ->
     exists q, upcaster (face_register "Face") "Patch" (next_object h) = Ok q /\
               creator (face_register "Face") "Patch" h
               = (fst (construct (fun _ => true) (fun _ => 32) "Face" h), Ok q)) \/
  (not_castable face_register "Face" "Patch" /\
   forall h, true = true ->
     creator (face_register "Face") "Patch" h
     = (fst (construct (fun _ => true) (fun _ => 32) "Face" h), Fault (cast_failed "Upcast"))).
Proof.
  apply (registered_casts_are_uniform face_register face_to_base face_from_base
           (fun _ => true) (fun _ => 32) face_bases face_depth
           face_below face_registered_up face_registered_down face_registered_creator
           "Face" "Patch").
Defined.

End Register.
